(** * Battlefield messaging fabric: ledger, chain and routing

    A shallow embedding of
    - utils/military_crypto.py (class MilitaryBlockchain),
    - p2p_comm/battlefield_network.py (LocalLedger, P2PNetworkSimulator),
    - demo/battlefield_server.py (BattlefieldCommunicationServer),
    with hashlib.sha256 and json.dumps written out so that blocks can be
    hashed and mined by evaluation.

    Python values are modelled as follows: int as Z, str as the string of its
    UTF-8 bytes, a dict with str keys as an association list in insertion
    order, a set as gset, registries keyed by node id as gmap where order is
    not observed.  Calls that can raise return a [result]; the unbounded
    mining loop takes a fuel argument. *)

From Stdlib Require Import ZArith List Ascii String.
From stdpp Require Import gmap strings list pretty sorting.
From Equations Require Import Equations.

Open Scope Z_scope.

(** Exceptions that the modelled code can raise. *)
Inductive exn : Type :=
| KeyError (key : string)
| ValueError (what : string).

(** The outcome of a call: it returns, raises, or (for a call that mines) has
    not returned within the fuel given to the mining loop. *)
Inductive result (A : Type) : Type :=
| Ok (a : A)
| Raise (e : exn)
| Timeout.
Arguments Ok {A} a.
Arguments Raise {A} e.
Arguments Timeout {A}.

Definition bind {A B} (r : result A) (k : A -> result B) : result B :=
  match r with
  | Ok a => k a
  | Raise e => Raise e
  | Timeout => Timeout
  end.

(** A for loop whose body may raise. *)
Fixpoint for_each {A S} (body : S -> A -> result S) (l : list A) (s : S)
    : result S :=
  match l with
  | [] => Ok s
  | a :: l' =>
      match body s a with
      | Ok s' => for_each body l' s'
      | Raise e => Raise e
      | Timeout => Timeout
      end
  end.

Notation "x <- r ;; k" := (bind r (fun x => k))
  (at level 100, r at next level, right associativity).

(** * hashlib.sha256 *)

Module Sha256.

Definition mask32 : Z := 4294967295.
Definition w32 (x : Z) : Z := Z.land x mask32.
Definition add32 (x y : Z) : Z := w32 (x + y).
Definition rotr (n x : Z) : Z :=
  Z.lor (Z.shiftr x n) (w32 (Z.shiftl x (32 - n))).
Definition shr (n x : Z) : Z := Z.shiftr x n.
Definition xor3 (a b c : Z) : Z := Z.lxor (Z.lxor a b) c.

Definition Ch (x y z : Z) : Z :=
  Z.lxor (Z.land x y) (Z.land (Z.lxor x mask32) z).
Definition Maj (x y z : Z) : Z :=
  xor3 (Z.land x y) (Z.land x z) (Z.land y z).
Definition bsig0 (x : Z) : Z := xor3 (rotr 2 x) (rotr 13 x) (rotr 22 x).
Definition bsig1 (x : Z) : Z := xor3 (rotr 6 x) (rotr 11 x) (rotr 25 x).
Definition ssig0 (x : Z) : Z := xor3 (rotr 7 x) (rotr 18 x) (shr 3 x).
Definition ssig1 (x : Z) : Z := xor3 (rotr 17 x) (rotr 19 x) (shr 10 x).

(** The round constants and the initial hash value are fractional bits of
    roots of the first primes: the first 32 bits of the fractional part of
    the cube root (K) and of the square root (H0). *)
Definition is_prime (n : nat) : bool :=
  (1 <? n)%nat && forallb (fun d => negb (n mod d =? 0)%nat) (seq 2 (n - 2)).

Definition first_primes (count : nat) : list Z :=
  map Z.of_nat (firstn count (List.filter is_prime (seq 2 310))).

(** The integer cube root below 2^bits, found bit by bit. *)
Fixpoint cube_root (bits : nat) (x acc : Z) : Z :=
  match bits with
  | O => acc
  | S b =>
      let c := acc + Z.shiftl 1 (Z.of_nat b) in
      cube_root b x (if c * c * c <=? x then c else acc)
  end.

Definition K : list Z := Eval vm_compute in
  map (fun p => w32 (cube_root 36 (Z.shiftl p 96) 0)) (first_primes 64).

Definition H0 : list Z := Eval vm_compute in
  map (fun p => w32 (Z.sqrt (Z.shiftl p 64))) (first_primes 8).

(** Big-endian bytes of a word, and back. *)
Definition be_bytes (n : nat) (x : Z) : list Z :=
  map (fun i => Z.land (Z.shiftr x (8 * Z.of_nat i)) 255) (rev (seq 0 n)).

Fixpoint be_words (bs : list Z) : list Z :=
  match bs with
  | a :: b :: c :: d :: rest =>
      (Z.shiftl a 24 + Z.shiftl b 16 + Z.shiftl c 8 + d) :: be_words rest
  | _ => []
  end.

(** Padding: 0x80, zeros up to 56 mod 64, then the bit length on 8 bytes. *)
Definition pad (msg : list Z) : list Z :=
  let len := Z.of_nat (length msg) in
  let k := Z.to_nat ((55 - len) mod 64) in
  msg ++ 128 :: repeat 0 k ++ be_bytes 8 (8 * len).

Fixpoint chunks (size : nat) (n : nat) (ws : list Z) : list (list Z) :=
  match n with
  | O => []
  | S n' => firstn size ws :: chunks size n' (skipn size ws)
  end.

(** One round; the window holds the sixteen most recent schedule words. *)
Definition next_w (win : list Z) : Z :=
  add32 (add32 (ssig1 (nth 14 win 0)) (nth 9 win 0))
        (add32 (ssig0 (nth 1 win 0)) (nth 0 win 0)).

Definition round (st : list Z * list Z) (k : Z) : list Z * list Z :=
  let '(v, win) := st in
  match v, win with
  | [a; b; c; d; e; f; g; h], w :: win' =>
      let t1 := add32 (add32 (add32 h (bsig1 e)) (add32 (Ch e f g) k)) w in
      let t2 := add32 (bsig0 a) (Maj a b c) in
      ([add32 t1 t2; a; b; c; add32 d t1; e; f; g], win' ++ [next_w win])
  | _, _ => st
  end.

Definition compress (h : list Z) (block : list Z) : list Z :=
  let '(v, _) := fold_left round K (h, block) in
  map (fun p => add32 (fst p) (snd p)) (combine h v).

Definition digest (msg : list Z) : list Z :=
  let ws := be_words (pad msg) in
  fold_left compress (chunks 16 (length ws / 16) ws) H0.

Definition hex_digit (d : Z) : ascii :=
  ascii_of_N (Z.to_N (if d <? 10 then 48 + d else 87 + d)).

Definition hex_byte (b : Z) : list ascii :=
  [hex_digit (Z.shiftr b 4); hex_digit (Z.land b 15)].

Definition bytes_of_string (s : string) : list Z :=
  map (fun c => Z.of_N (N_of_ascii c)) (list_ascii_of_string s).

(** hashlib.sha256(s.encode()).hexdigest() *)
Definition sha256_hex (s : string) : string :=
  string_of_list_ascii
    (concat (map hex_byte (concat (map (be_bytes 4) (digest (bytes_of_string s)))))).

End Sha256.


(** * json.dumps with sort_keys=True, and dict operations *)
Module Json.

(** The values json.dumps accepts in this program. A float is carried by
    the text json.dumps prints for it (float.__repr__). *)
#[warnings="-register-all"]
Inductive json : Type :=
| JNull
| JBool (b : bool)
| JInt (n : Z)
| JFloat (repr : string)
| JStr (s : string)
| JList (l : list json)
| JDict (d : list (string * json)).

(** A Python dict with str keys, in insertion order. *)
Definition dict : Type := list (string * json).

Fixpoint dict_get (k : string) (d : dict) : option json :=
  match d with
  | [] => None
  | (k', v) :: d' => if String.eqb k k' then Some v else dict_get k d'
  end.

(** d.get(k): None when the key is absent. *)
Definition get (k : string) (d : dict) : json :=
  match dict_get k d with Some v => v | None => JNull end.

(** d[k] = v: overwrite in place, or append a new key. *)
Fixpoint dict_set (k : string) (v : json) (d : dict) : dict :=
  match d with
  | [] => [(k, v)]
  | (k', v') :: d' =>
      if String.eqb k k' then (k', v) :: d' else (k', v') :: dict_set k v d'
  end.

(** d.pop(k, None) *)
Fixpoint dict_pop (k : string) (d : dict) : dict :=
  match d with
  | [] => []
  | (k', v') :: d' =>
      if String.eqb k k' then d' else (k', v') :: dict_pop k d'
  end.

(** sorted(items) on (key, value) pairs with distinct str keys. *)
Fixpoint insert_item {A} (kv : string * A) (l : list (string * A)) :=
  match l with
  | [] => [kv]
  | kv' :: l' =>
      if String.leb (fst kv) (fst kv') then kv :: l else kv' :: insert_item kv l'
  end.

Definition sort_items {A} (l : list (string * A)) : list (string * A) :=
  fold_right insert_item [] l.

Definition dquote : string := String (ascii_of_nat 34) "".
Definition backslash : string := String (ascii_of_nat 92) "".

Definition hex4 (n : Z) : string :=
  string_of_list_ascii
    (Sha256.hex_byte (Z.land (Z.shiftr n 8) 255) ++ Sha256.hex_byte (Z.land n 255)).

Definition u_escape (cp : Z) : string := backslash +:+ "u" +:+ hex4 cp.

(** A code point above the ASCII range: a surrogate pair beyond 0xFFFF. *)
Definition escape_code_point (cp : Z) : string :=
  if cp <? 65536 then u_escape cp
  else
    let v := cp - 65536 in
    u_escape (Z.lor 55296 (Z.land (Z.shiftr v 10) 1023))
      +:+ u_escape (Z.lor 56320 (Z.land v 1023)).

Definition cont (b : Z) : Z := Z.land b 63.

(** py_encode_basestring_ascii, read over the UTF-8 bytes of the str. *)
Fixpoint escape_bytes (bs : list Z) : string :=
  match bs with
  | [] => ""
  | b :: rest =>
      if b =? 34 then backslash +:+ dquote +:+ escape_bytes rest
      else if b =? 92 then backslash +:+ backslash +:+ escape_bytes rest
      else if b =? 8 then backslash +:+ "b" +:+ escape_bytes rest
      else if b =? 12 then backslash +:+ "f" +:+ escape_bytes rest
      else if b =? 10 then backslash +:+ "n" +:+ escape_bytes rest
      else if b =? 13 then backslash +:+ "r" +:+ escape_bytes rest
      else if b =? 9 then backslash +:+ "t" +:+ escape_bytes rest
      else if (32 <=? b) && (b <? 127) then
        String (ascii_of_N (Z.to_N b)) (escape_bytes rest)
      else if b <? 128 then u_escape b +:+ escape_bytes rest
      else if b <? 224 then
        match rest with
        | b1 :: rest' =>
            escape_code_point (Z.shiftl (Z.land b 31) 6 + cont b1)
              +:+ escape_bytes rest'
        | _ => ""
        end
      else if b <? 240 then
        match rest with
        | b1 :: b2 :: rest' =>
            escape_code_point
              (Z.shiftl (Z.land b 15) 12 + Z.shiftl (cont b1) 6 + cont b2)
              +:+ escape_bytes rest'
        | _ => ""
        end
      else
        match rest with
        | b1 :: b2 :: b3 :: rest' =>
            escape_code_point
              (Z.shiftl (Z.land b 7) 18 + Z.shiftl (cont b1) 12
               + Z.shiftl (cont b2) 6 + cont b3)
              +:+ escape_bytes rest'
        | _ => ""
        end
  end.

Definition dumps_str (s : string) : string :=
  dquote +:+ escape_bytes (Sha256.bytes_of_string s) +:+ dquote.

(** sep.join(l) *)
Definition join (sep : string) (l : list string) : string :=
  match l with
  | [] => ""
  | x :: xs => fold_left (fun acc y => acc +:+ sep +:+ y) xs x
  end.

Definition dumps_item (kv : string * string) : string :=
  dumps_str (fst kv) +:+ ": " +:+ snd kv.

(** json.dumps(v, sort_keys=True) *)
Fixpoint dumps (v : json) : string :=
  match v with
  | JNull => "null"
  | JBool true => "true"
  | JBool false => "false"
  | JInt n => pretty n
  | JFloat r => r
  | JStr s => dumps_str s
  | JList l => "[" +:+ join ", " (map dumps l) +:+ "]"
  | JDict d =>
      "{" +:+ join ", "
               (map dumps_item
                  (sort_items (map (fun kv => match kv with (k, x) => (k, dumps x) end) d)))
        +:+ "}"
  end.
End Json.


(** * utils/military_crypto.py: class MilitaryBlockchain *)
Module MilitaryBlockchain.
Import Sha256 Json.

(** Python's == on the values a block holds. Floats are compared through
    their printed text and are not taken equal to an int; every comparison
    made by the validation functions below has a str on one side. *)
Fixpoint py_eq (a b : json) : bool :=
  match a, b with
  | JNull, JNull => true
  | JBool x, JBool y => Bool.eqb x y
  | JBool x, JInt n => n =? (if x then 1 else 0)
  | JInt n, JBool x => n =? (if x then 1 else 0)
  | JInt m, JInt n => m =? n
  | JFloat r, JFloat r' => String.eqb r r'
  | JStr s, JStr t => String.eqb s t
  | JList l, JList l' =>
      (fix go (l l' : list json) : bool :=
         match l, l' with
         | [], [] => true
         | x :: l, y :: l' => py_eq x y && go l l'
         | _, _ => false
         end) l l'
  | JDict d, JDict d' =>
      (length d =? length d')%nat
      && forallb (fun kv => match kv with
                            | (k, v) => match dict_get k d' with
                                        | Some v' => py_eq v v'
                                        | None => false
                                        end
                            end) d
  | _, _ => false
  end.

(** [leaves] of one level to the next: adjacent pairs are concatenated and
    hashed, a trailing single leaf is paired with itself. *)
Fixpoint next_level (leaves : list string) : list string :=
  match leaves with
  | [] => []
  | [a] => [sha256_hex (a +:+ a)]
  | a :: b :: rest => sha256_hex (a +:+ b) :: next_level rest
  end.

(** while len(leaves) > 1: leaves = next_level *)
Equations? merkle_loop (leaves : list string) : list string
  by wf (length leaves) lt :=
  merkle_loop [] := [];
  merkle_loop [a] := [a];
  merkle_loop (a :: b :: rest) := merkle_loop (next_level (a :: b :: rest)).
Proof.
  assert (shrink : forall l, (length (next_level l) <= length l)%nat).
  { fix IH 1. intros [|x [|y l]]; simpl; try lia. specialize (IH l). lia. }
  specialize (shrink rest). simpl. lia.
Qed.

Definition create_merkle_tree (transactions : list dict) : string :=
  match transactions with
  | [] => sha256_hex ""
  | _ =>
      let leaves := map (fun tx => sha256_hex (dumps (JDict tx))) transactions in
      match merkle_loop leaves with
      | root :: _ => root
      | [] => sha256_hex ""
      end
  end.

Definition calculate_block_hash (block_data : dict) : string :=
  sha256_hex (dumps (JDict block_data)).

(** "0" * difficulty: empty for a difficulty of zero or less. *)
Definition zeros (difficulty : Z) : string :=
  string_of_list_ascii (repeat "0"%char (Z.to_nat difficulty)).

(** The while True loop of mine_block, bounded by [fuel] iterations.
    The dict passed in is updated in place, so the loop also returns it. *)
Fixpoint mine_loop (fuel : nat) (target : string) (block_data : dict)
    (nonce : Z) : option (string * Z * dict) :=
  match fuel with
  | O => None
  | S fuel' =>
      let block_data := dict_set "nonce" (JInt nonce) block_data in
      let block_hash := calculate_block_hash block_data in
      if String.prefix target block_hash then Some (block_hash, nonce, block_data)
      else mine_loop fuel' target block_data (nonce + 1)
  end.

Definition mine_block (fuel : nat) (block_data : dict) (difficulty : Z)
    : option (string * Z * dict) :=
  mine_loop fuel (zeros difficulty) block_data 0.

Definition validate_block_hash (block : dict) : bool :=
  let stored_hash := get "block_hash" block in
  let block_copy := dict_pop "block_hash" block in
  let calculated_hash := calculate_block_hash block_copy in
  py_eq stored_hash (JStr calculated_hash).

(** The for loop of validate_block_chain from index 1 on; [previous_block]
    is blocks[i-1]. *)
Fixpoint validate_links (previous_block : dict) (rest : list dict) : bool :=
  match rest with
  | [] => true
  | current_block :: rest' =>
      if negb (py_eq (get "previous_hash" current_block)
                     (get "block_hash" previous_block))
      then false
      else if negb (validate_block_hash current_block) then false
      else validate_links current_block rest'
  end.

Definition validate_block_chain (blocks : list dict) : bool :=
  match blocks with
  | [] => true
  | first :: rest =>
      if negb (validate_block_hash first) then false
      else validate_links first rest
  end.

End MilitaryBlockchain.

(** * p2p_comm/battlefield_network.py *)
Module Net.
Import Sha256 Json MilitaryBlockchain.

Inductive ConnectivityMode : Type := ONLINE | P2P_WIFI | P2P_RADIO | OFFLINE.

Inductive MessageType : Type :=
| CHAT | ALERT | COMMAND | STATUS | SYNC_REQUEST | SYNC_RESPONSE.

Definition MessageType_value (t : MessageType) : string :=
  match t with
  | CHAT => "chat"
  | ALERT => "alert"
  | COMMAND => "command"
  | STATUS => "status"
  | SYNC_REQUEST => "sync_request"
  | SYNC_RESPONSE => "sync_response"
  end.

#[global] Instance ConnectivityMode_eq_dec : EqDecision ConnectivityMode.
Proof. solve_decision. Defined.

Module P2PMessage.
(** [timestamp] is a float, carried by its printed text. *)
Record t : Type := mk {
  message_id : string;
  sender_id : string;
  receiver_id : option string;
  message_type : MessageType;
  content : string;
  timestamp : string;
  lamport_clock : Z;
  vector_clock : list (string * Z);
  encrypted_payload : string;
  digital_signature : string;
  hop_count : Z;
  max_hops : Z
}.

Definition set_hop_count (h : Z) (m : t) : t :=
  mk (message_id m) (sender_id m) (receiver_id m) (message_type m)
     (content m) (timestamp m) (lamport_clock m) (vector_clock m)
     (encrypted_payload m) (digital_signature m) h (max_hops m).

(** asdict(self), with the message type replaced by its value. *)
Definition to_dict (m : t) : dict :=
  [ ("message_id", JStr (message_id m));
    ("sender_id", JStr (sender_id m));
    ("receiver_id", match receiver_id m with Some r => JStr r | None => JNull end);
    ("message_type", JStr (MessageType_value (message_type m)));
    ("content", JStr (content m));
    ("timestamp", JFloat (timestamp m));
    ("lamport_clock", JInt (lamport_clock m));
    ("vector_clock", JDict (map (fun kv => (fst kv, JInt (snd kv))) (vector_clock m)));
    ("encrypted_payload", JStr (encrypted_payload m));
    ("digital_signature", JStr (digital_signature m));
    ("hop_count", JInt (hop_count m));
    ("max_hops", JInt (max_hops m)) ].
End P2PMessage.

Module PeerNode.
(** [location] and [last_seen] hold floats, carried by their text. *)
Record t : Type := mk {
  node_id : string;
  node_name : string;
  rank : string;
  location : string * string;
  connectivity_mode : ConnectivityMode;
  is_online : bool;
  last_seen : string;
  public_key : string;
  private_key : string
}.

Definition set_mode (c : ConnectivityMode) (online : bool) (n : t) : t :=
  mk (node_id n) (node_name n) (rank n) (location n) c online
     (last_seen n) (public_key n) (private_key n).
End PeerNode.

Module LocalLedger.
Record t : Type := mk {
  node_id : string;
  blocks : list dict;
  pending_messages : list P2PMessage.t;
  last_block_hash : string
}.

(** LocalLedger.__init__ *)
Definition init (node_id : string) : t := mk node_id [] [] (zeros 64).

(** The block add_message builds before mining; [now] is time.time(). *)
Definition new_block (self : t) (message : P2PMessage.t) (now : string) : dict :=
  [ ("block_number", JInt (Z.of_nat (length (blocks self))));
    ("timestamp", JFloat now);
    ("previous_hash", JStr (last_block_hash self));
    ("message_data", JDict (P2PMessage.to_dict message));
    ("node_id", JStr (node_id self));
    ("nonce", JInt 0) ].

(** add_message; None when the mining loop runs past [fuel] rounds.
    Returns the updated ledger and the appended block. *)
Definition add_message (fuel : nat) (self : t) (message : P2PMessage.t)
    (now : string) : option (t * dict) :=
  let block := new_block self message now in
  match mine_block fuel block 2 with
  | None => None
  | Some (block_hash, nonce, block) =>
      let block := dict_set "block_hash" (JStr block_hash) block in
      let block := dict_set "nonce" (JInt nonce) block in
      Some (mk (node_id self) (blocks self ++ [block]) (pending_messages self)
               block_hash,
            block)
  end.

Definition validate_chain (self : t) : bool :=
  validate_block_chain (blocks self).
End LocalLedger.

Module P2PNetworkSimulator.
(** [objects] is the store of the P2PMessage objects created so far, by
    address.  A queue holds addresses: a queued message is the very
    object the router goes on updating (hop_count).  [node_order] lists the
    keys of self.nodes in the order they were inserted, the order in which
    the dict is iterated. *)
Record t : Type := mk {
  nodes : gmap string PeerNode.t;
  ledgers : gmap string LocalLedger.t;
  message_queues : gmap string (list nat);
  network_topology : gmap string (gset string);
  server_online : bool;
  lamport_clock : Z;
  objects : list P2PMessage.t;
  node_order : list string
}.

(** P2PNetworkSimulator.__init__ *)
Definition init : t := mk ∅ ∅ ∅ ∅ true 0 [] [].

Definition set_nodes (v : gmap string PeerNode.t) (s : t) : t :=
  mk v (ledgers s) (message_queues s) (network_topology s)
     (server_online s) (lamport_clock s) (objects s) (node_order s).
Definition set_ledgers (v : gmap string LocalLedger.t) (s : t) : t :=
  mk (nodes s) v (message_queues s) (network_topology s)
     (server_online s) (lamport_clock s) (objects s) (node_order s).
Definition set_message_queues (v : gmap string (list nat)) (s : t) : t :=
  mk (nodes s) (ledgers s) v (network_topology s)
     (server_online s) (lamport_clock s) (objects s) (node_order s).
Definition set_network_topology (v : gmap string (gset string)) (s : t) : t :=
  mk (nodes s) (ledgers s) (message_queues s) v
     (server_online s) (lamport_clock s) (objects s) (node_order s).
Definition set_server_online (v : bool) (s : t) : t :=
  mk (nodes s) (ledgers s) (message_queues s) (network_topology s)
     v (lamport_clock s) (objects s) (node_order s).
Definition set_lamport_clock (v : Z) (s : t) : t :=
  mk (nodes s) (ledgers s) (message_queues s) (network_topology s)
     (server_online s) v (objects s) (node_order s).
Definition set_objects (v : list P2PMessage.t) (s : t) : t :=
  mk (nodes s) (ledgers s) (message_queues s) (network_topology s)
     (server_online s) (lamport_clock s) v (node_order s).

Definition null_message : P2PMessage.t :=
  P2PMessage.mk "" "" None CHAT "" "" 0 [] "" "" 0 5.

(** The object at address [r]. *)
Definition deref (self : t) (r : nat) : P2PMessage.t :=
  nth r (objects self) null_message.

Definition add_node (self : t) (node : PeerNode.t) : t :=
  let k := PeerNode.node_id node in
  mk (<[k := node]> (nodes self))
     (<[k := LocalLedger.init k]> (ledgers self))
     (<[k := []]> (message_queues self))
     (<[k := ∅]> (network_topology self))
     (server_online self) (lamport_clock self) (objects self)
     (match nodes self !! k with
      | Some _ => node_order self
      | None => node_order self ++ [k]
      end).

(** list(self.nodes.values()) *)
Definition node_values (self : t) : list PeerNode.t :=
  omap (fun k => nodes self !! k) (node_order self).

Definition simulate_server_failure (self : t) : t :=
  set_nodes
    ((fun node =>
        if decide (PeerNode.connectivity_mode node = ONLINE)
        then PeerNode.set_mode P2P_WIFI (PeerNode.is_online node) node
        else node) <$> nodes self)
    (set_server_online false self).

(** The state change of simulate_server_recovery; sync_all_nodes, called
    last, only reads the ledgers and prints. *)
Definition simulate_server_recovery (self : t) : t :=
  set_nodes
    ((fun node =>
        match PeerNode.connectivity_mode node with
        | P2P_WIFI | P2P_RADIO =>
            PeerNode.set_mode ONLINE (PeerNode.is_online node) node
        | _ => node
        end) <$> nodes self)
    (set_server_online true self).

Definition simulate_node_dropout (self : t) (node_id : string) : t :=
  match nodes self !! node_id with
  | Some node =>
      set_nodes (<[node_id := PeerNode.set_mode OFFLINE false node]> (nodes self)) self
  | None => self
  end.

(** The state change of simulate_node_reconnect (sync_node only reads). *)
Definition simulate_node_reconnect (self : t) (node_id : string) : t :=
  match nodes self !! node_id with
  | Some node =>
      set_nodes (<[node_id := PeerNode.set_mode P2P_WIFI true node]> (nodes self)) self
  | None => self
  end.

(** network_topology[a].add(b) *)
Definition topology_add (a b : string) (topo : gmap string (gset string))
    : result (gmap string (gset string)) :=
  match topo !! a with
  | Some peers => Ok (<[a := peers ∪ {[b]}]> topo)
  | None => Raise (KeyError a)
  end.

Fixpoint pairs_after {A} (l : list A) : list (A * A) :=
  match l with
  | [] => []
  | a :: l' => map (pair a) l' ++ pairs_after l'
  end.

(** establish_p2p_connections.  can_communicate_p2p compares a float
    distance with a float range; it is taken as the parameter [can]. *)
Definition establish_p2p_connections (can : PeerNode.t -> PeerNode.t -> bool)
    (self : t) : result t :=
  let node_list := node_values self in
  topo <- for_each
            (fun topo p =>
               let '(node1, node2) := p in
               if can node1 node2 then
                 topo <- topology_add (PeerNode.node_id node1)
                                      (PeerNode.node_id node2) topo ;;
                 topology_add (PeerNode.node_id node2)
                              (PeerNode.node_id node1) topo
               else Ok topo)
            (pairs_after node_list) (network_topology self) ;;
  Ok (set_network_topology topo self).

(** message_queues[k].append(message) *)
Definition queue_append (k : string) (r : nat) (q : gmap string (list nat))
    : result (gmap string (list nat)) :=
  match q !! k with
  | Some l => Ok (<[k := l ++ [r]]> q)
  | None => Raise (KeyError k)
  end.

(** The broadcast branch of deliver_via_server; its closing print looks
    the sender up in self.nodes. *)
Definition server_broadcast (self : t) (r : nat) : result (t * bool) :=
  let message := deref self r in
  q <- for_each
         (fun q node_id =>
            if negb (String.eqb node_id (P2PMessage.sender_id message))
            then queue_append node_id r q else Ok q)
         (node_order self) (message_queues self) ;;
  match nodes self !! P2PMessage.sender_id message with
  | Some _ => Ok (set_message_queues q self, true)
  | None => Raise (KeyError (P2PMessage.sender_id message))
  end.

(** [if message.receiver_id:] holds for a str that is not empty.  The print
    of the direct branch looks the receiver up in self.nodes. *)
Definition deliver_via_server (self : t) (r : nat) : result (t * bool) :=
  let message := deref self r in
  match P2PMessage.receiver_id message with
  | Some receiver_id =>
      if String.eqb receiver_id "" then server_broadcast self r
      else
        match message_queues self !! receiver_id with
        | Some l =>
            match nodes self !! receiver_id with
            | Some _ =>
                Ok (set_message_queues
                      (<[receiver_id := l ++ [r]]> (message_queues self)) self,
                    true)
            | None => Raise (KeyError receiver_id)
            end
        | None => Ok (self, false)
        end
  | None => server_broadcast self r
  end.

(** The state of the loop over connected_peers: the queues, the
    message's hop_count and the delivered flag. *)
Definition p2p_state : Type := gmap string (list nat) * Z * bool.

Definition p2p_step (nodes : gmap string PeerNode.t)
    (receiver_id : option string) (r : nat) (st : p2p_state)
    (peer_id : string) : result p2p_state :=
  let '(q, hop_count, delivered) := st in
  match nodes !! peer_id with
  | None => Raise (KeyError peer_id)
  | Some peer =>
      if negb (PeerNode.is_online peer) then Ok st
      else if decide (receiver_id = Some peer_id) then
        q <- queue_append peer_id r q ;; Ok (q, hop_count, true)
      else if decide (receiver_id = None) then
        q <- queue_append peer_id r q ;; Ok (q, hop_count, true)
      else Ok (q, hop_count + 1, delivered)
  end.

(** deliver_via_p2p; the print that closes a delivered broadcast looks the
    sender up in self.nodes. *)
Definition deliver_via_p2p (self : t) (r : nat) : result (t * bool) :=
  let message := deref self r in
  if P2PMessage.max_hops message <=? P2PMessage.hop_count message
  then Ok (self, false)
  else
    let sender_id := P2PMessage.sender_id message in
    let connected_peers := default ∅ (network_topology self !! sender_id) in
    st <- for_each (p2p_step (nodes self) (P2PMessage.receiver_id message) r)
            (elements connected_peers)
            (message_queues self, P2PMessage.hop_count message, false) ;;
    let '(q, hop_count, delivered) := st in
    let self' :=
      set_objects
        (<[r := P2PMessage.set_hop_count hop_count message]> (objects self))
        (set_message_queues q self) in
    if bool_decide (P2PMessage.receiver_id message = None) && delivered then
      match nodes self !! sender_id with
      | Some _ => Ok (self', delivered)
      | None => Raise (KeyError sender_id)
      end
    else Ok (self', delivered).

Definition route_message (self : t) (r : nat) : result (t * bool) :=
  let message := deref self r in
  match nodes self !! P2PMessage.sender_id message with
  | None => Raise (KeyError (P2PMessage.sender_id message))
  | Some sender =>
      if decide (PeerNode.connectivity_mode sender = OFFLINE)
      then Ok (self, false)
      else if bool_decide (PeerNode.connectivity_mode sender = ONLINE)
              && server_online self
      then deliver_via_server self r
      else deliver_via_p2p self r
  end.

(** What send_message draws from outside the simulator: uuid.uuid4(),
    time.time() for the message and for its block, the outcome of
    aes_encrypt(...) (its value once through json.dumps, or the exception it
    raises), the outcome of sign_message(...) (which raises ValueError on a
    private key that is not PEM), and the fuel of the mining loop. *)
Record send_env : Type := {
  uuid : string;
  now : string;
  block_now : string;
  sealed : result string;
  signature : result string;
  fuel : nat
}.

Definition send_message (self : t) (sender_id : string)
    (receiver_id : option string) (message_type : MessageType)
    (content : string) (env : send_env) : result (t * bool) :=
  match nodes self !! sender_id with
  | None => Ok (self, false)
  | Some sender =>
      let self := set_lamport_clock (lamport_clock self + 1) self in
      let vector_clock :=
        map (fun k => (k, if String.eqb k sender_id
                          then lamport_clock self else 0))
            (node_order self) in
      payload <- sealed env ;;
      digital_signature <- signature env ;;
      let message :=
        P2PMessage.mk (uuid env) sender_id receiver_id message_type content
          (now env) (lamport_clock self) vector_clock payload
          digital_signature 0 5 in
      let r := length (objects self) in
      let self := set_objects (objects self ++ [message]) self in
      match ledgers self !! sender_id with
      | None => Raise (KeyError sender_id)
      | Some ledger =>
          match LocalLedger.add_message (fuel env) ledger message (block_now env) with
          | None => Timeout
          | Some (ledger, _) =>
              route_message
                (set_ledgers (<[sender_id := ledger]> (ledgers self)) self) r
          end
      end
  end.
End P2PNetworkSimulator.

End Net.

(** * demo/battlefield_server.py *)
Module Demo.

Inductive NetworkState : Type := CENTRALIZED | P2P_FALLBACK | DEGRADED | ISOLATED.
Inductive MessageType : Type := CHAT | COMMAND | ALERT | STATUS | SYSTEM.
Inductive NodeStatus : Type := ONLINE | P2P_ONLY | OFFLINE | RECONNECTING.

#[global] Instance NetworkState_eq_dec : EqDecision NetworkState.
Proof. solve_decision. Defined.
#[global] Instance NodeStatus_eq_dec : EqDecision NodeStatus.
Proof. solve_decision. Defined.

(** MessageType(value): None stands for the ValueError of an unknown value. *)
Definition MessageType_of_value (v : string) : option MessageType :=
  if String.eqb v "chat" then Some CHAT
  else if String.eqb v "command" then Some COMMAND
  else if String.eqb v "alert" then Some ALERT
  else if String.eqb v "status" then Some STATUS
  else if String.eqb v "system" then Some SYSTEM
  else None.

Module BattlefieldMessage.
Record t : Type := mk {
  id : string;
  sender_id : string;
  content : string;
  message_type : MessageType;
  timestamp : string;
  lamport_clock : Z;
  recipients : list string;
  encrypted : bool;
  signature : string;
  route_path : list string;
  delivery_attempts : Z
}.

Definition set_recipients (v : list string) (m : t) : t :=
  mk (id m) (sender_id m) (content m) (message_type m) (timestamp m)
     (lamport_clock m) v (encrypted m) (signature m) (route_path m)
     (delivery_attempts m).
Definition set_route_path (v : list string) (m : t) : t :=
  mk (id m) (sender_id m) (content m) (message_type m) (timestamp m)
     (lamport_clock m) (recipients m) (encrypted m) (signature m) v
     (delivery_attempts m).
End BattlefieldMessage.

Module BattlefieldNode.
(** [position] holds the x and y coordinates; the demo nodes have integer
    ones.  The websocket field, never set, is left out. *)
Record t : Type := mk {
  id : string;
  name : string;
  rank : string;
  unit : string;
  position : Z * Z;
  status : NodeStatus;
  last_seen : string;
  p2p_connections : gset string;
  message_queue : list BattlefieldMessage.t;
  lamport_clock : Z
}.

Definition set_status (v : NodeStatus) (n : t) : t :=
  mk (id n) (name n) (rank n) (unit n) (position n) v (last_seen n)
     (p2p_connections n) (message_queue n) (lamport_clock n).
Definition set_last_seen (v : string) (n : t) : t :=
  mk (id n) (name n) (rank n) (unit n) (position n) (status n) v
     (p2p_connections n) (message_queue n) (lamport_clock n).
Definition set_message_queue (v : list BattlefieldMessage.t) (n : t) : t :=
  mk (id n) (name n) (rank n) (unit n) (position n) (status n) (last_seen n)
     (p2p_connections n) v (lamport_clock n).
Definition set_lamport_clock (v : Z) (n : t) : t :=
  mk (id n) (name n) (rank n) (unit n) (position n) (status n) (last_seen n)
     (p2p_connections n) (message_queue n) v.
End BattlefieldNode.

Module NetworkEvent.
Record t : Type := mk {
  event_type : string;
  description : string;
  timestamp : string;
  affected_nodes : list string;
  severity : string
}.
End NetworkEvent.

(** self.nodes: a dict in insertion order, which the flood iterates. *)
Definition registry : Type := list (string * BattlefieldNode.t).

Fixpoint lookup_node (k : string) (nodes : registry) : option BattlefieldNode.t :=
  match nodes with
  | [] => None
  | (k', n) :: nodes' => if String.eqb k k' then Some n else lookup_node k nodes'
  end.

(** An update of the node object stored under key [k]. *)
Fixpoint update_node (k : string) (f : BattlefieldNode.t -> BattlefieldNode.t)
    (nodes : registry) : registry :=
  match nodes with
  | [] => []
  | (k', n) :: nodes' =>
      if String.eqb k k' then (k', f n) :: nodes'
      else (k', n) :: update_node k f nodes'
  end.

Definition map_nodes (f : BattlefieldNode.t -> BattlefieldNode.t)
    (nodes : registry) : registry :=
  map (fun kn => (fst kn, f (snd kn))) nodes.

(** The frames handed to broadcast_to_clients. *)
Inductive frame : Type :=
| new_message (message : BattlefieldMessage.t) (sender_name : string)
| system_event (event : NetworkEvent.t)
| network_topology (server_online : bool) (network_state : NetworkState)
    (nodes : registry).

Module Server.
(** [outbox] records, in order, the frames passed to broadcast_to_clients. *)
Record t : Type := mk {
  server_online : bool;
  network_state : NetworkState;
  nodes : registry;
  messages : list BattlefieldMessage.t;
  events : list NetworkEvent.t;
  outbox : list frame
}.

Definition set_nodes (v : registry) (s : t) : t :=
  mk (server_online s) (network_state s) v (messages s) (events s) (outbox s).
Definition set_messages (v : list BattlefieldMessage.t) (s : t) : t :=
  mk (server_online s) (network_state s) (nodes s) v (events s) (outbox s).
Definition set_events (v : list NetworkEvent.t) (s : t) : t :=
  mk (server_online s) (network_state s) (nodes s) (messages s) v (outbox s).
Definition set_outbox (v : list frame) (s : t) : t :=
  mk (server_online s) (network_state s) (nodes s) (messages s) (events s) v.
Definition set_mode (online : bool) (st : NetworkState) (s : t) : t :=
  mk online st (nodes s) (messages s) (events s) (outbox s).
End Server.
Import Server.

Definition broadcast_to_clients (f : frame) (self : Server.t) : Server.t :=
  set_outbox (outbox self ++ [f]) self.

Definition topology_frame (self : Server.t) : frame :=
  network_topology (server_online self) (network_state self) (nodes self).

Definition demo_node (id name rank unit : string) (x y : Z) (now : string)
    : string * BattlefieldNode.t :=
  (id, BattlefieldNode.mk id name rank unit (x, y) ONLINE now ∅ [] 0).

(** BattlefieldCommunicationServer.__init__ with initialize_demo_nodes. *)
Definition init (now : string) : Server.t :=
  Server.mk true CENTRALIZED
    [ demo_node "alpha_1" "Alpha Team Lead" "Sergeant" "Alpha Company" 100 150 now;
      demo_node "bravo_1" "Bravo Scout" "Corporal" "Bravo Company" 300 200 now;
      demo_node "charlie_1" "Charlie Support" "Private" "Charlie Company" 200 350 now;
      demo_node "delta_1" "Delta Command" "Lieutenant" "Delta Command" 450 180 now;
      demo_node "echo_1" "Echo Medic" "Corporal" "Echo Support" 350 100 now ]
    [] [] [].

(** calculate_distance(pos1, pos2) <= 200.  On integer coordinates the
    float test is the integer test on the squared distance, as long as the
    squared distance converts to a float; beyond that (coordinates of more
    than 150 digits) the code raises OverflowError, which is left out. *)
Definition within_p2p_range (pos1 pos2 : Z * Z) : bool :=
  (fst pos1 - fst pos2) ^ 2 + (snd pos1 - snd pos2) ^ 2 <=? 200 ^ 2.

Definition route_message_centralized (message : BattlefieldMessage.t)
    : BattlefieldMessage.t :=
  BattlefieldMessage.set_route_path ["central_server"] message.

(** The state the flood updates: visited, next_hops, message.route_path. *)
Definition flood_state : Type := gset string * list string * list string.

(** The innermost loop, over self.nodes.items(), for one current node. *)
Definition scan_targets (node : BattlefieldNode.t) (nodes : registry)
    (st : flood_state) : flood_state :=
  fold_left
    (fun (st : flood_state) (kn : string * BattlefieldNode.t) =>
       let '(visited, next_hops, route_path) := st in
       let '(target_id, target_node) := kn in
       if bool_decide (target_id ∈ visited)
          || bool_decide (BattlefieldNode.status target_node = OFFLINE)
       then st
       else if within_p2p_range (BattlefieldNode.position node)
                                (BattlefieldNode.position target_node)
       then (visited ∪ {[target_id]}, next_hops ++ [target_id],
             route_path ++ [target_id])
       else st)
    nodes st.

(** The body of the loop over current_hops. *)
Definition expand (nodes : registry) (st : flood_state) (current_node : string)
    : flood_state :=
  match lookup_node current_node nodes with
  | None => st
  | Some node =>
      if bool_decide (BattlefieldNode.status node = OFFLINE) then st
      else scan_targets node nodes st
  end.

(** for hop in range(max_hops), left when a level reaches nobody. *)
Fixpoint flood (hops : nat) (nodes : registry) (visited : gset string)
    (current_hops : list string) (route_path : list string) : list string :=
  match hops with
  | O => route_path
  | S hops' =>
      let '(visited, next_hops, route_path) :=
        fold_left (expand nodes) current_hops (visited, [], route_path) in
      match next_hops with
      | [] => route_path
      | _ => flood hops' nodes visited next_hops route_path
      end
  end.

Definition max_hops : nat := 3.

Definition route_message_p2p (self : Server.t) (message : BattlefieldMessage.t)
    (sender_id : string) : BattlefieldMessage.t :=
  let message :=
    match BattlefieldMessage.recipients message with
    | [] => BattlefieldMessage.set_recipients (map fst (nodes self)) message
    | _ => message
    end in
  BattlefieldMessage.set_route_path
    (flood max_hops (nodes self) {[sender_id]} [sender_id]
       (BattlefieldMessage.route_path message))
    message.

(** The send_message frame after data.get(...) and its defaults: content
    defaults to the empty str, message_type to chat, recipients to []. *)
Record request : Type := {
  sender_id : option string;
  content : string;
  message_type : string;
  recipients : list string
}.

(** uuid.uuid4(), datetime.now() and random.randint(1000, 9999). *)
Record send_env : Type := {
  uuid : string;
  now : string;
  sig : Z
}.

Definition handle_send_message (self : Server.t) (data : request)
    (env : send_env) : result Server.t :=
  match MessageType_of_value (message_type data) with
  | None => Raise (ValueError (message_type data))
  | Some message_type =>
      match sender_id data with
      | None => Ok self
      | Some sender_id =>
          if String.eqb sender_id "" then Ok self
          else
            match lookup_node sender_id (nodes self) with
            | None => Ok self
            | Some sender =>
                let message :=
                  BattlefieldMessage.mk (uuid env) sender_id (content data)
                    message_type (now env)
                    (BattlefieldNode.lamport_clock sender + 1)
                    (recipients data) true ("sig_" +:+ pretty (sig env)) [] 0 in
                let self :=
                  set_nodes
                    (update_node sender_id
                       (BattlefieldNode.set_lamport_clock
                          (BattlefieldMessage.lamport_clock message))
                       (nodes self)) self in
                let message :=
                  if server_online self
                     && bool_decide (network_state self = CENTRALIZED)
                  then route_message_centralized message
                  else route_message_p2p self message sender_id in
                let self := set_messages (messages self ++ [message]) self in
                Ok (broadcast_to_clients
                      (new_message message (BattlefieldNode.name sender)) self)
            end
      end
  end.

Definition emit_event (e : NetworkEvent.t) (self : Server.t) : Server.t :=
  broadcast_to_clients (system_event e) (set_events (events self ++ [e]) self).

Definition simulate_server_failure (self : Server.t) (now : string) : Server.t :=
  if server_online self then
    let self := set_mode false P2P_FALLBACK self in
    let self :=
      set_nodes
        (map_nodes (fun n => if bool_decide (BattlefieldNode.status n = ONLINE)
                             then BattlefieldNode.set_status P2P_ONLY n else n)
                   (nodes self)) self in
    let self :=
      emit_event
        (NetworkEvent.mk "server_failure"
           "Central communication server has failed. Switching to P2P mode."
           now (map fst (nodes self)) "critical") self in
    broadcast_to_clients (topology_frame self) self
  else self.

(** max(node.lamport_clock for node in self.nodes.values()) *)
Definition max_clock (nodes : registry) : result Z :=
  match nodes with
  | [] => Raise (ValueError "max() arg is an empty sequence")
  | (_, n) :: rest =>
      Ok (fold_left (fun m kn => Z.max m (BattlefieldNode.lamport_clock (snd kn)))
            rest (BattlefieldNode.lamport_clock n))
  end.

Definition synchronize_network (self : Server.t) : result Server.t :=
  max_clock <- max_clock (nodes self) ;;
  let nodes := map_nodes (BattlefieldNode.set_lamport_clock (max_clock + 1))
                 (nodes self) in
  let nodes := map_nodes (BattlefieldNode.set_message_queue []) nodes in
  Ok (set_nodes nodes self).

Definition simulate_server_recovery (self : Server.t) (now : string)
    : result Server.t :=
  if server_online self then Ok self
  else
    let self := set_mode true CENTRALIZED self in
    let self :=
      set_nodes
        (map_nodes (fun n => if bool_decide (BattlefieldNode.status n = P2P_ONLY)
                             then BattlefieldNode.set_status ONLINE n else n)
                   (nodes self)) self in
    self <- synchronize_network self ;;
    let self :=
      emit_event
        (NetworkEvent.mk "server_recovery"
           "Central server recovered. Network synchronized successfully."
           now (map fst (nodes self)) "info") self in
    Ok (broadcast_to_clients (topology_frame self) self).

Definition handle_force_sync (self : Server.t) (now : string) : result Server.t :=
  self <- synchronize_network self ;;
  Ok (emit_event
        (NetworkEvent.mk "manual_sync" "Manual network synchronization completed"
           now (map fst (nodes self)) "info") self).

(** simulate_node_dropout; [choice] is the index random.choice draws among
    the nodes that are ONLINE or P2P_ONLY. *)
Definition simulate_node_dropout (self : Server.t) (choice : nat) (now : string)
    : Server.t :=
  let online_nodes :=
    filter (fun kn => bool_decide (BattlefieldNode.status (snd kn) = ONLINE)
                      || bool_decide (BattlefieldNode.status (snd kn) = P2P_ONLY))
           (nodes self) in
  match nth_error online_nodes choice with
  | None => self
  | Some (k, dropout_node) =>
      let self :=
        set_nodes (update_node k (BattlefieldNode.set_status OFFLINE) (nodes self))
                  self in
      let self :=
        emit_event
          (NetworkEvent.mk "node_dropout"
             (BattlefieldNode.name dropout_node +:+ " ("
                +:+ BattlefieldNode.rank dropout_node +:+ ") has gone offline")
             now [BattlefieldNode.id dropout_node] "warning") self in
      broadcast_to_clients (topology_frame self) self
  end.

(** schedule_node_recovery once its sleep is over. *)
Definition schedule_node_recovery (self : Server.t) (node_id : string)
    (now : string) : Server.t :=
  match lookup_node node_id (nodes self) with
  | None => self
  | Some node =>
      let self :=
        set_nodes
          (update_node node_id
             (fun n => BattlefieldNode.set_last_seen now
                         (BattlefieldNode.set_status
                            (if server_online self then ONLINE else P2P_ONLY) n))
             (nodes self)) self in
      let self :=
        emit_event
          (NetworkEvent.mk "node_recovery"
             (BattlefieldNode.name node +:+ " has reconnected to the network")
             now [BattlefieldNode.id node] "info") self in
      broadcast_to_clients (topology_frame self) self
  end.

(** simulate_network_partition: the two halves are only counted. *)
Definition simulate_network_partition (self : Server.t) (now : string)
    : Server.t :=
  let nodes_list := (nodes self).*2 in
  if (length nodes_list <? 2)%nat then self
  else
    let partition_size := (length nodes_list / 2)%nat in
    let partition_a := take partition_size nodes_list in
    let partition_b := drop partition_size nodes_list in
    emit_event
      (NetworkEvent.mk "network_partition"
         ("Network partitioned: " +:+ pretty (length partition_a) +:+ " vs "
            +:+ pretty (length partition_b) +:+ " nodes")
         now (map BattlefieldNode.id nodes_list) "critical") self.

(** The connections of get_network_topology, each with its from, to and
    type; the distance and the strength, floats, are left out. *)
Definition connections (self : Server.t) : list (string * string * string) :=
  if server_online self && bool_decide (network_state self = CENTRALIZED) then
    map (fun node_id => ("central_server", node_id, "centralized"))
        (List.filter
           (fun n => match lookup_node n (nodes self) with
                     | Some node => bool_decide (BattlefieldNode.status node = ONLINE)
                     | None => false
                     end)
           (map fst (nodes self)))
  else
    nodes self ≫= fun kn1 =>
      if bool_decide (BattlefieldNode.status kn1.2 = OFFLINE) then []
      else
        nodes self ≫= fun kn2 =>
          if bool_decide (BattlefieldNode.status kn2.2 = OFFLINE)
             || String.leb kn2.1 kn1.1
          then []
          else if within_p2p_range (BattlefieldNode.position kn1.2)
                                   (BattlefieldNode.position kn2.2)
          then [(kn1.1, kn2.1, "p2p")]
          else [].

(** The get_network_status branch of handle_client_message. *)
Definition get_network_status (self : Server.t) : Server.t :=
  broadcast_to_clients (topology_frame self) self.

End Demo.

(** * Statements about the chain functions *)
Module ChainSpec.
Import Sha256 Json MilitaryBlockchain.

(** [h] starts with [d] characters 0. *)
Definition leading_zeros (d : nat) (h : string) : Prop :=
  forall i, (i < d)%nat -> String.get i h = Some "0"%char.

(** A property of every adjacent pair (prev, cur) of a chain. *)
Fixpoint adjacent (P : dict -> dict -> Prop) (blocks : list dict) : Prop :=
  match blocks with
  | prev :: (cur :: _) as rest => P prev cur /\ adjacent P rest
  | _ => True
  end.

(** cur.previous_hash == prev.block_hash *)
Definition hash_linked (prev cur : dict) : Prop :=
  py_eq (get "previous_hash" cur) (get "block_hash" prev) = true.

(** cur.block_number == prev.block_number + 1 *)
Definition numbered (prev cur : dict) : Prop :=
  exists n, get "block_number" prev = JInt n
            /\ get "block_number" cur = JInt (n + 1).

Definition hash_valid (block : dict) : Prop :=
  get "block_hash" block = JStr (calculate_block_hash (dict_pop "block_hash" block)).

Definition genesis_shape (block : dict) : Prop :=
  get "previous_hash" block = JStr (zeros 64)
  /\ get "block_number" block = JInt 0.

(** Chain validity as the specification words it. *)
Definition chain_valid_as_specified (blocks : list dict) : Prop :=
  adjacent (fun prev cur => hash_linked prev cur /\ numbered prev cur) blocks
  /\ Forall hash_valid blocks
  /\ match blocks with
     | [] => True
     | genesis :: _ => genesis_shape genesis
     end.

(** What validate_block_chain examines. *)
Definition chain_valid_as_coded (blocks : list dict) : Prop :=
  adjacent hash_linked blocks /\ Forall hash_valid blocks.

(** A two-block chain with sound hashes and links whose block numbers are
    7 and 3 and whose first block does not point at the zero hash. *)
Definition odd_first : dict := Eval vm_compute in
  let body := [("block_number", JInt 7); ("previous_hash", JStr "abc");
               ("nonce", JInt 0)] in
  dict_set "block_hash" (JStr (calculate_block_hash body)) body.

Definition odd_second : dict := Eval vm_compute in
  let body := [("block_number", JInt 3);
               ("previous_hash", get "block_hash" odd_first);
               ("nonce", JInt 0)] in
  dict_set "block_hash" (JStr (calculate_block_hash body)) body.

(** The Merkle root as the specification words it: an odd trailing leaf is
    duplicated, then adjacent pairs are hashed, until one root remains. *)
Definition duplicate_odd_trailing (leaves : list string) : list string :=
  if Nat.odd (length leaves) then leaves ++ [List.last leaves ""] else leaves.

Fixpoint hash_pairs (leaves : list string) : list string :=
  match leaves with
  | l :: r :: rest => sha256_hex (l +:+ r) :: hash_pairs rest
  | _ => []
  end.

Equations? reduce_to_root (leaves : list string) : option string
  by wf (length leaves) lt :=
  reduce_to_root [] := None;
  reduce_to_root [root] := Some root;
  reduce_to_root (a :: b :: rest) :=
    reduce_to_root (hash_pairs (duplicate_odd_trailing (a :: b :: rest))).
Proof.
  assert (halves : forall l, (length (hash_pairs l) <= length l / 2)%nat).
  { fix IH 1. intros [|x [|y l]]; simpl length; try lia.
    specialize (IH l).
    change (S (S (length l))) with (2 + length l)%nat.
    replace ((2 + length l) / 2)%nat with (S (length l / 2)).
    - lia.
    - symmetry. replace (2 + length l)%nat with (1 * 2 + length l)%nat by lia.
      rewrite Nat.div_add_l by lia. lia. }
  specialize (halves (duplicate_odd_trailing (a :: b :: rest))).
  assert (length (duplicate_odd_trailing (a :: b :: rest)) <= S (S (S (length rest))))%nat.
  { unfold duplicate_odd_trailing. destruct (Nat.odd _); [rewrite length_app|]; simpl; lia. }
  assert (length (duplicate_odd_trailing (a :: b :: rest)) / 2
          <= S (S (S (length rest))) / 2)%nat by (apply Nat.Div0.div_le_mono; lia).
  assert (S (S (S (length rest))) / 2 < S (S (length rest)))%nat.
  { apply Nat.Div0.div_lt_upper_bound. lia. }
  lia.
Qed.

Definition MerkleRoot (transactions : list dict) : string :=
  match transactions with
  | [] => sha256_hex ""
  | _ =>
      default (sha256_hex "")
        (reduce_to_root (map (fun tx => sha256_hex (dumps (JDict tx))) transactions))
  end.

(** A block whose first nonce with one leading zero is 3. *)
Definition report_block : dict :=
  [("block_number", JInt 1); ("previous_hash", JStr (zeros 64));
   ("data", JStr "report 26")].

Definition tx_a : dict := [("unit", JStr "alpha"); ("seq", JInt 1)].
Definition tx_b : dict := [("unit", JStr "bravo"); ("seq", JInt 2)].

End ChainSpec.


(** * Statements about the local ledger *)
Module LedgerSpec.
Import Sha256 Json MilitaryBlockchain ChainSpec Net.

(** The ledgers add_message can produce from a fresh one. *)
Inductive reachable (node_id : string) : LocalLedger.t -> Prop :=
| reachable_init : reachable node_id (LocalLedger.init node_id)
| reachable_add fuel self message now self' block :
    reachable node_id self ->
    LocalLedger.add_message fuel self message now = Some (self', block) ->
    reachable node_id self'.

(** last_block_hash is the hash of the last block, or the zero hash. *)
Definition last_hash_ok (self : LocalLedger.t) : Prop :=
  match last (LocalLedger.blocks self) with
  | Some block => get "block_hash" block = JStr (LocalLedger.last_block_hash self)
  | None => LocalLedger.last_block_hash self = zeros 64
  end.

Definition numbered_by_index (self : LocalLedger.t) : Prop :=
  forall (i : nat) (block : dict),
    LocalLedger.blocks self !! i = Some block ->
    get "block_number" block = JInt (Z.of_nat i).

Definition links_ok (self : LocalLedger.t) : Prop :=
  forall (i : nat) (prev cur : dict),
    LocalLedger.blocks self !! i = Some prev ->
    LocalLedger.blocks self !! S i = Some cur ->
    get "previous_hash" cur = get "block_hash" prev.

(** The block add_message appends, as the specification words it. *)
Definition block_as_specified (self : LocalLedger.t) (message : P2PMessage.t)
    (block : dict) : Prop :=
  dict_get "block_number" block
    = Some (JInt (Z.of_nat (length (LocalLedger.blocks self))))
  /\ dict_get "previous_hash" block = Some (JStr (LocalLedger.last_block_hash self))
  /\ dict_get "merkle_root" block
     = Some (JStr (create_merkle_tree [P2PMessage.to_dict message])).

Definition ledger0 : LocalLedger.t := LocalLedger.init "alpha_1".

Definition message1 : P2PMessage.t :=
  P2PMessage.mk "m1" "alpha_1" (Some "bravo_1") COMMAND "hold" "1700000000.5" 1
    [("alpha_1", 1)] "{}" "ab" 0 5.

Definition message2 : P2PMessage.t :=
  P2PMessage.mk "m2" "alpha_1" None STATUS "clear" "1700000100.5" 2
    [("alpha_1", 2)] "{}" "cd" 0 5.

(** Both blocks below are mined at the first nonce. *)
Definition block1 : dict := Eval vm_compute in
  match LocalLedger.add_message 1 ledger0 message1 "1700000868.0" with
  | Some (_, block) => block
  | None => []
  end.

Definition ledger1 : LocalLedger.t := Eval vm_compute in
  match LocalLedger.add_message 1 ledger0 message1 "1700000868.0" with
  | Some (ledger, _) => ledger
  | None => ledger0
  end.

Definition block2 : dict := Eval vm_compute in
  match LocalLedger.add_message 1 ledger1 message2 "1700000214.0" with
  | Some (_, block) => block
  | None => []
  end.

Definition ledger2 : LocalLedger.t := Eval vm_compute in
  match LocalLedger.add_message 1 ledger1 message2 "1700000214.0" with
  | Some (ledger, _) => ledger
  | None => ledger1
  end.

End LedgerSpec.

(** * Statements about the P2P simulator *)
Module NetSpec.
Import Json Net.
Import P2PNetworkSimulator.

(** network_topology.get(sender_id, set()) *)
Definition neighbours (self : P2PNetworkSimulator.t) (sender_id : string)
    : gset string :=
  default ∅ (network_topology self !! sender_id).

Definition online (self : P2PNetworkSimulator.t) (n : string) : Prop :=
  exists peer, nodes self !! n = Some peer /\ PeerNode.is_online peer = true.

(** The message at address [r] was appended to the queue of node [n]. *)
Definition enqueued (self self' : P2PNetworkSimulator.t) (r : nat) (n : string)
    : Prop :=
  exists l, message_queues self !! n = Some l
            /\ message_queues self' !! n = Some (l ++ [r]).

Definition untouched (self self' : P2PNetworkSimulator.t) (n : string) : Prop :=
  message_queues self' !! n = message_queues self !! n.

(** The registries name the same nodes and every peer is a node. *)
Definition well_formed (self : P2PNetworkSimulator.t) : Prop :=
  (forall k, is_Some (nodes self !! k) <-> is_Some (message_queues self !! k))
  /\ (forall k, is_Some (nodes self !! k) <-> is_Some (ledgers self !! k))
  /\ (forall k peers p, network_topology self !! k = Some peers -> p ∈ peers ->
        is_Some (nodes self !! p)).

(** One call of a method of the simulator that returns. *)
Inductive step : P2PNetworkSimulator.t -> P2PNetworkSimulator.t -> Prop :=
| step_add_node self node : step self (add_node self node)
| step_server_failure self : step self (simulate_server_failure self)
| step_server_recovery self : step self (simulate_server_recovery self)
| step_node_dropout self node_id : step self (simulate_node_dropout self node_id)
| step_node_reconnect self node_id : step self (simulate_node_reconnect self node_id)
| step_establish can self self' :
    establish_p2p_connections can self = Ok self' -> step self self'
| step_send self sender_id receiver_id message_type content env self' delivered :
    send_message self sender_id receiver_id message_type content env
      = Ok (self', delivered) ->
    step self self'.

Inductive reachable : P2PNetworkSimulator.t -> Prop :=
| reachable_init : reachable P2PNetworkSimulator.init
| reachable_step self self' : reachable self -> step self self' -> reachable self'.


Definition peer (node_id : string) (mode : ConnectivityMode) (is_online : bool)
    : PeerNode.t :=
  PeerNode.mk node_id node_id "Private" ("32.77", "-96.79") mode is_online
    "1700000000.0" "pub" "priv".

(** alpha_1 has bravo_1, charlie_1 and delta_1 as peers; charlie_1 is off
    line and echo_1 is not a peer of alpha_1. *)
Definition mesh : P2PNetworkSimulator.t :=
  P2PNetworkSimulator.mk
    (list_to_map [("alpha_1", peer "alpha_1" P2P_WIFI true);
                  ("bravo_1", peer "bravo_1" P2P_WIFI true);
                  ("charlie_1", peer "charlie_1" OFFLINE false);
                  ("delta_1", peer "delta_1" P2P_WIFI true);
                  ("echo_1", peer "echo_1" P2P_WIFI true)])
    (list_to_map [("alpha_1", LocalLedger.init "alpha_1");
                  ("bravo_1", LocalLedger.init "bravo_1");
                  ("charlie_1", LocalLedger.init "charlie_1");
                  ("delta_1", LocalLedger.init "delta_1");
                  ("echo_1", LocalLedger.init "echo_1")])
    (list_to_map [("alpha_1", []); ("bravo_1", []); ("charlie_1", []);
                  ("delta_1", []); ("echo_1", [])])
    (list_to_map [("alpha_1", {["bravo_1"; "charlie_1"; "delta_1"]});
                  ("bravo_1", {["alpha_1"; "echo_1"]});
                  ("charlie_1", {["alpha_1"]});
                  ("delta_1", {["alpha_1"]});
                  ("echo_1", {["bravo_1"]})])
    false 1
    [P2PMessage.mk "u-0" "alpha_1" (Some "bravo_1") ALERT "contact"
       "1700000000.5" 1 [("alpha_1", 1)] "{}" "ab" 0 5]
    ["alpha_1"; "bravo_1"; "charlie_1"; "delta_1"; "echo_1"].

Definition two_nodes : P2PNetworkSimulator.t :=
  add_node (add_node P2PNetworkSimulator.init (peer "alpha_1" ONLINE true))
           (peer "bravo_1" ONLINE true).

Definition first_send_env : send_env :=
  {| uuid := "u-1"; now := "1700000001.5"; block_now := "1700000530.0";
     sealed := Ok "{}"; signature := Ok "ab"; fuel := 1 |}.

End NetSpec.

(** * Statements about the demo server *)
Module DemoSpec.
Import Demo.
Import Demo.Server.

(** The path handle_send_message takes. *)
Definition centralized (self : Server.t) : bool :=
  server_online self && bool_decide (network_state self = CENTRALIZED).

(** Nodes that take part in a resync. *)
Definition participating (st : NodeStatus) : Prop :=
  st = ONLINE \/ st = P2P_ONLY \/ st = RECONNECTING.

(** [L] is the greatest Lamport clock over all nodes. *)
Definition is_max_clock (nodes : registry) (L : Z) : Prop :=
  (exists kn, kn ∈ nodes /\ BattlefieldNode.lamport_clock kn.2 = L)
  /\ forall kn, kn ∈ nodes -> BattlefieldNode.lamport_clock kn.2 <= L.

(** A resync ran: force_sync, or server_recovery on a server that was down. *)
Definition resync (self : Server.t) (now : string) (self' : Server.t) : Prop :=
  handle_force_sync self now = Ok self'
  \/ (server_online self = false /\ simulate_server_recovery self now = Ok self').

(** message_queue_size of node [k], as get_network_topology reports it. *)
Definition message_queue_size (self : Server.t) (k : string) : option nat :=
  (fun n => length (BattlefieldNode.message_queue n)) <$> lookup_node k (nodes self).

Definition message_queues (self : Server.t) : list (string * list BattlefieldMessage.t) :=
  map (fun kn => (kn.1, BattlefieldNode.message_queue kn.2)) (nodes self).

(** Routing boundedness as the specification words it. *)
Definition route_bounded (message : BattlefieldMessage.t) : Prop :=
  (length (BattlefieldMessage.route_path message) <= max_hops + 1)%nat
  /\ NoDup (BattlefieldMessage.route_path message).

Definition send_from (sender : string) : request :=
  {| sender_id := Some sender; content := "status"; message_type := "chat";
     recipients := [] |}.

Definition demo_env : send_env :=
  {| uuid := "6f1c"; now := "2025-09-13T14:30:05"; sig := 4242 |}.

(** The demo server after alpha_1 dropped out (server still up). *)
Definition alpha_dropped : Server.t :=
  simulate_node_dropout (init "2025-09-13T14:30:00") 0 "2025-09-13T14:30:01".

(** The same, with the server down as well. *)
Definition alpha_dropped_p2p : Server.t :=
  simulate_server_failure alpha_dropped "2025-09-13T14:30:02".

(** The state after bravo_1 sent one message over the P2P path. *)
Definition after_bravo : Server.t :=
  match handle_send_message alpha_dropped_p2p (send_from "bravo_1") demo_env with
  | Ok self => self
  | _ => alpha_dropped_p2p
  end.

(** Offline deferral as the specification words it: the sender's queue
    grows by exactly one. *)
Definition offline_queue_grows (self self' : Server.t) (sender : string) : Prop :=
  exists q, message_queue_size self sender = Some q
            /\ message_queue_size self' sender = Some (S q).

End DemoSpec.

(** * Runs of the demo server *)
Module DemoRun.
Import Demo.
Import Demo.Server.
Import DemoSpec.

(** One handler of the server, run from its first line to its last. *)
Inductive step : Server.t -> Server.t -> Prop :=
| step_send_message self data env self' :
    handle_send_message self data env = Ok self' -> step self self'
| step_server_failure self now : step self (simulate_server_failure self now)
| step_server_recovery self now self' :
    simulate_server_recovery self now = Ok self' -> step self self'
| step_force_sync self now self' :
    handle_force_sync self now = Ok self' -> step self self'
| step_node_dropout self choice now :
    step self (simulate_node_dropout self choice now)
| step_node_recovery self node_id now :
    step self (schedule_node_recovery self node_id now)
| step_network_partition self now :
    step self (simulate_network_partition self now)
| step_network_status self : step self (get_network_status self).

(** The states the server started at [now] can be in. *)
Inductive reachable (now : string) : Server.t -> Prop :=
| reachable_init : reachable now (init now)
| reachable_step self self' :
    reachable now self -> step self self' -> reachable now self'.

(** The status a node that is not OFFLINE has while the server is up, or
    down. *)
Definition live_status (server_online : bool) : NodeStatus :=
  if server_online then ONLINE else P2P_ONLY.

(** The mode, the statuses and the registry fit together. *)
Definition coherent (self : Server.t) : Prop :=
  network_state self = (if server_online self then CENTRALIZED else P2P_FALLBACK)
  /\ map fst (nodes self) = ["alpha_1"; "bravo_1"; "charlie_1"; "delta_1"; "echo_1"]
  /\ Forall (fun kn => BattlefieldNode.id kn.2 = kn.1
                       /\ BattlefieldNode.message_queue kn.2 = []
                       /\ (BattlefieldNode.status kn.2 = OFFLINE
                           \/ BattlefieldNode.status kn.2
                              = live_status (server_online self)))
            (nodes self).

(** [x] is at most [n] radio links from [sender], over nodes that are not
    OFFLINE. *)
Inductive within_hops (nodes : registry) (sender : string)
    : nat -> string -> Prop :=
| within_hops_sender n : within_hops nodes sender n sender
| within_hops_link n a node b target :
    within_hops nodes sender n a ->
    lookup_node a nodes = Some node ->
    BattlefieldNode.status node <> OFFLINE ->
    (b, target) ∈ nodes ->
    BattlefieldNode.status target <> OFFLINE ->
    within_p2p_range (BattlefieldNode.position node)
                     (BattlefieldNode.position target) = true ->
    within_hops nodes sender (S n) b.

End DemoRun.
(** * Proofs about the chain functions *)
Module ChainProofs.
Import Sha256 Json MilitaryBlockchain ChainSpec.

#[local] Arguments sha256_hex : simpl never.
#[local] Arguments dumps : simpl never.
#[local] Arguments calculate_block_hash : simpl never.
#[local] Arguments String.prefix : simpl never.
#[local] Opaque sha256_hex dumps.

Lemma dict_get_set_eq k v d : dict_get k (dict_set k v d) = Some v.
Proof.
  induction d as [|[k' v'] d IH]; simpl.
  - now rewrite String.eqb_refl.
  - destruct (String.eqb k k') eqn:E; simpl; rewrite E; auto.
Qed.

Lemma dict_get_set_ne k k' v d :
  k <> k' -> dict_get k' (dict_set k v d) = dict_get k' d.
Proof.
  intros Hne. induction d as [|[k2 v2] d IH]; simpl.
  - destruct (String.eqb k' k) eqn:E; auto.
    apply String.eqb_eq in E. congruence.
  - destruct (String.eqb k k2) eqn:E; simpl.
    + apply String.eqb_eq in E. subst k2.
      destruct (String.eqb k' k) eqn:E'; auto.
      apply String.eqb_eq in E'. congruence.
    + now rewrite IH.
Qed.

Lemma dict_set_set k v v' d : dict_set k v (dict_set k v' d) = dict_set k v d.
Proof.
  induction d as [|[k2 v2] d IH]; simpl.
  - now rewrite String.eqb_refl.
  - destruct (String.eqb k k2) eqn:E; simpl; rewrite E; congruence.
Qed.

Lemma dict_get_pop_eq k d : dict_get k d = None -> dict_pop k d = d.
Proof.
  induction d as [|[k2 v2] d IH]; simpl; auto.
  destruct (String.eqb k k2); [discriminate|]. intros H. now rewrite IH.
Qed.

Lemma dict_pop_set_fresh k v d : dict_get k d = None -> dict_pop k (dict_set k v d) = d.
Proof.
  induction d as [|[k2 v2] d IH]; simpl.
  - now rewrite String.eqb_refl.
  - destruct (String.eqb k k2) eqn:E; [discriminate|]. simpl. rewrite E.
    intros H. now rewrite IH.
Qed.

Lemma get_set_eq k v d : get k (dict_set k v d) = v.
Proof. unfold get. now rewrite dict_get_set_eq. Qed.

Lemma get_set_ne k k' v d : k <> k' -> get k' (dict_set k v d) = get k' d.
Proof. intros. unfold get. now rewrite dict_get_set_ne. Qed.

(** Comparison with a str: equal only to that very str. *)
Lemma py_eq_str_r a s : py_eq a (JStr s) = true <-> a = JStr s.
Proof.
  destruct a; simpl; split; try discriminate; try congruence.
  - intros H. apply String.eqb_eq in H. congruence.
  - intros [= ->]. apply String.eqb_refl.
Qed.

Lemma validate_block_hash_spec block :
  validate_block_hash block = true <-> hash_valid block.
Proof. unfold validate_block_hash, hash_valid. apply py_eq_str_r. Qed.

Lemma prefix_zeros_get (d : nat) (h : string) :
  String.prefix (string_of_list_ascii (repeat "0"%char d)) h = true
  <-> leading_zeros d h.
Proof.
  revert h. induction d as [|d IH]; intros h.
  - simpl. split; [intros _ i Hi; lia|]. intros _. now destruct h.
  - destruct h as [|c h].
    + simpl. split; [discriminate|]. intros H. specialize (H 0%nat ltac:(lia)). discriminate.
    + change (String.prefix (string_of_list_ascii (repeat "0"%char (S d))) (String c h))
        with (if Ascii.ascii_dec "0" c
              then String.prefix (string_of_list_ascii (repeat "0"%char d)) h
              else false).
      destruct (Ascii.ascii_dec "0" c) as [<-|Hc].
      * rewrite IH. split.
        -- intros H [|i] Hi; simpl; [reflexivity|]. apply H. lia.
        -- intros H i Hi. apply (H (S i)). lia.
      * split; [discriminate|]. intros H. specialize (H 0%nat ltac:(lia)).
        simpl in H. congruence.
Qed.

Lemma startswith_zeros difficulty h :
  String.prefix (zeros difficulty) h = true
  <-> leading_zeros (Z.to_nat difficulty) h.
Proof. apply prefix_zeros_get. Qed.

Lemma mine_loop_spec fuel target block start block_hash nonce block' :
  mine_loop fuel target block start = Some (block_hash, nonce, block') ->
  start <= nonce
  /\ block' = dict_set "nonce" (JInt nonce) block
  /\ block_hash = calculate_block_hash block'
  /\ String.prefix target block_hash = true
  /\ forall n, start <= n < nonce ->
       String.prefix target
         (calculate_block_hash (dict_set "nonce" (JInt n) block)) = false.
Proof.
  revert block start. induction fuel as [|fuel IH]; intros block start H.
  - discriminate.
  - cbn [mine_loop] in H.
    destruct (String.prefix target
                (calculate_block_hash (dict_set "nonce" (JInt start) block))) eqn:Hp.
    + inversion H; subst.
      split; [lia|]. split; [reflexivity|]. split; [reflexivity|].
      split; [exact Hp|]. intros n Hn. lia.
    + apply IH in H as (Hle & Hb & Hh & Hpre & Hmin).
      rewrite dict_set_set in Hb.
      split; [lia|]. split; [exact Hb|]. split; [exact Hh|].
      split; [exact Hpre|].
      intros n Hn. destruct (Z.eq_dec n start) as [->|]; [exact Hp|].
      specialize (Hmin n). rewrite dict_set_set in Hmin. apply Hmin. lia.
Qed.

Lemma mine_loop_finds fuel target block start n :
  start <= n -> (Z.to_nat (n - start) < fuel)%nat ->
  String.prefix target (calculate_block_hash (dict_set "nonce" (JInt n) block)) = true ->
  exists r, mine_loop fuel target block start = Some r.
Proof.
  revert block start. induction fuel as [|fuel IH]; intros block start Hle Hf Hp.
  - lia.
  - cbn [mine_loop].
    destruct (String.prefix target
                (calculate_block_hash (dict_set "nonce" (JInt start) block))) eqn:E;
      [eauto|].
    destruct (Z.eq_dec n start) as [->|Hne]; [congruence|].
    apply IH; [lia|lia|]. now rewrite dict_set_set.
Qed.

(** Enough fuel: when some nonce from 0 on meets the target, the search
    returns. *)
Lemma mine_block_returns block difficulty n :
  0 <= n ->
  leading_zeros (Z.to_nat difficulty)
    (calculate_block_hash (dict_set "nonce" (JInt n) block)) ->
  exists r, mine_block (S (Z.to_nat n)) block difficulty = Some r.
Proof.
  intros Hn Hz. unfold mine_block. apply (mine_loop_finds _ _ _ _ n); [lia|lia|].
  now apply startswith_zeros.
Qed.

(** C5: whenever mine_block returns (hash, nonce), the hash is the hash of the
    block with that nonce set, it starts with [difficulty] characters 0, and
    no smaller nonce from 0 on gives such a hash. *)
Theorem mine_block_least_nonce fuel block difficulty block_hash nonce block' :
  mine_block fuel block difficulty = Some (block_hash, nonce, block') ->
  block_hash = calculate_block_hash (dict_set "nonce" (JInt nonce) block)
  /\ leading_zeros (Z.to_nat difficulty) block_hash
  /\ 0 <= nonce
  /\ forall n, 0 <= n < nonce ->
       ~ leading_zeros (Z.to_nat difficulty)
           (calculate_block_hash (dict_set "nonce" (JInt n) block)).
Proof.
  intros H. apply mine_loop_spec in H as (Hle & Hb & Hh & Hpre & Hmin).
  subst block'. split; [exact Hh|]. split; [now apply startswith_zeros|].
  split; [exact Hle|].
  intros n Hn Hz. apply startswith_zeros in Hz.
  rewrite (Hmin n Hn) in Hz. discriminate.
Qed.

Lemma mine_block_least_nonce_witness :
  exists block_hash,
    block_hash = calculate_block_hash (dict_set "nonce" (JInt 3) report_block)
    /\ leading_zeros (Z.to_nat 1) block_hash
    /\ 0 <= 3
    /\ forall n, 0 <= n < 3 ->
         ~ leading_zeros (Z.to_nat 1)
             (calculate_block_hash (dict_set "nonce" (JInt n) report_block)).
Proof.
  eexists.
  apply (mine_block_least_nonce 4 report_block 1 _ 3
           (dict_set "nonce" (JInt 3) report_block)).
  vm_compute. reflexivity.
Defined.

Lemma validate_links_spec previous_block rest :
  validate_links previous_block rest = true
  <-> adjacent hash_linked (previous_block :: rest) /\ Forall hash_valid rest.
Proof.
  revert previous_block. induction rest as [|cur rest IH]; intros prev.
  - simpl. split; auto.
  - cbn [validate_links adjacent]. unfold hash_linked at 1.
    destruct (py_eq (get "previous_hash" cur) (get "block_hash" prev)); simpl.
    + destruct (validate_block_hash cur) eqn:Hv; simpl.
      * rewrite IH. apply validate_block_hash_spec in Hv.
        split.
        -- intros [Ha Hf]. split; [split; [reflexivity | exact Ha]|].
           constructor; assumption.
        -- intros [[_ Ha] Hf]. apply Forall_cons in Hf as [_ Hf]. split; assumption.
      * split; [discriminate|]. intros [_ Hf]. apply Forall_cons in Hf as [Hc _].
        apply validate_block_hash_spec in Hc. congruence.
    + split; [discriminate|]. intros [[Hl _] _]. discriminate.
Qed.

(** C1 (amended): validate_block_chain accepts exactly the chains in which
    every adjacent pair has cur.previous_hash == prev.block_hash and every
    block stores the hash recomputed from the block without its block_hash;
    block numbers and the shape of the first block are not examined. *)
Theorem validate_block_chain_accepts blocks :
  validate_block_chain blocks = true <-> chain_valid_as_coded blocks.
Proof.
  unfold chain_valid_as_coded. destruct blocks as [|first rest].
  - simpl. split; auto.
  - cbn [validate_block_chain].
    destruct (validate_block_hash first) eqn:Hv; simpl.
    + rewrite validate_links_spec. apply validate_block_hash_spec in Hv.
      split.
      * intros [Ha Hf]. split; [exact Ha|]. constructor; assumption.
      * intros [Ha Hf]. apply Forall_cons in Hf as [_ Hf]. split; assumption.
    + split; [discriminate|]. intros [_ Hf]. apply Forall_cons in Hf as [Hc _].
      apply validate_block_hash_spec in Hc. congruence.
Qed.

(** C1, as stated, fails: this chain is accepted although its block numbers
    are 7 then 3 and its first block has previous_hash abc. *)
Lemma validate_block_chain_ignores_numbers :
  validate_block_chain [odd_first; odd_second] = true
  /\ ~ chain_valid_as_specified [odd_first; odd_second].
Proof.
  split; [vm_compute; reflexivity|].
  intros (_ & _ & (Hprev & _)). vm_compute in Hprev. discriminate.
Qed.

Lemma duplicate_odd_trailing_cons2 a b rest :
  duplicate_odd_trailing (a :: b :: rest) = a :: b :: duplicate_odd_trailing rest.
Proof.
  unfold duplicate_odd_trailing.
  change (Nat.odd (length (a :: b :: rest))) with (Nat.odd (length rest)).
  destruct (Nat.odd (length rest)) eqn:Hodd; [|reflexivity].
  destruct rest as [|c rest]; [discriminate|]. reflexivity.
Qed.

Lemma next_level_pairs leaves :
  next_level leaves = hash_pairs (duplicate_odd_trailing leaves).
Proof.
  revert leaves. fix IH 1. intros [|a [|b rest]].
  - reflexivity.
  - reflexivity.
  - rewrite duplicate_odd_trailing_cons2. cbn [next_level hash_pairs].
    f_equal. apply IH.
Qed.

Lemma merkle_loop_root leaves : head (merkle_loop leaves) = reduce_to_root leaves.
Proof.
  funelim (merkle_loop leaves); simp merkle_loop reduce_to_root; try reflexivity.
  rewrite <- next_level_pairs. assumption.
Qed.

(** C2: create_merkle_tree returns the hash of the empty byte string on the
    empty list and otherwise the root obtained by hashing each transaction,
    duplicating an odd trailing leaf, and hashing adjacent pairs until one
    root remains; exchanging two transactions can change the root. *)
Theorem create_merkle_tree_root :
  create_merkle_tree [] = sha256_hex ""
  /\ (forall transactions, create_merkle_tree transactions = MerkleRoot transactions)
  /\ exists transactions transactions',
       transactions ≡ₚ transactions'
       /\ create_merkle_tree transactions <> create_merkle_tree transactions'.
Proof.
  split; [reflexivity|]. split.
  - intros [|tx txs]; [reflexivity|].
    unfold create_merkle_tree, MerkleRoot.
    generalize (merkle_loop_root
                  (map (fun tx => sha256_hex (dumps (JDict tx))) (tx :: txs))).
    destruct (merkle_loop _); intros <-; reflexivity.
  - exists [tx_a; tx_b], [tx_b; tx_a]. split; [apply perm_swap|].
    vm_compute. discriminate.
Qed.

End ChainProofs.

(** * Proofs about the local ledger *)
Module LedgerProofs.
Import Sha256 Json MilitaryBlockchain ChainSpec ChainProofs Net LedgerSpec.

#[local] Arguments sha256_hex : simpl never.
#[local] Arguments dumps : simpl never.
#[local] Arguments calculate_block_hash : simpl never.
#[local] Arguments String.prefix : simpl never.
#[local] Opaque sha256_hex dumps calculate_block_hash.

Ltac dict_compute :=
  cbv [LocalLedger.new_block dict_set dict_get dict_pop get
       String.eqb Ascii.eqb Bool.eqb andb].

(** What add_message does to the ledger and to the block it builds. *)
Lemma add_message_inv fuel self message now self' block :
  LocalLedger.add_message fuel self message now = Some (self', block) ->
  exists block_hash nonce,
    mine_block fuel (LocalLedger.new_block self message now) 2
      = Some (block_hash, nonce,
              dict_set "nonce" (JInt nonce) (LocalLedger.new_block self message now))
    /\ block =
         [ ("block_number", JInt (Z.of_nat (length (LocalLedger.blocks self))));
           ("timestamp", JFloat now);
           ("previous_hash", JStr (LocalLedger.last_block_hash self));
           ("message_data", JDict (P2PMessage.to_dict message));
           ("node_id", JStr (LocalLedger.node_id self));
           ("nonce", JInt nonce);
           ("block_hash", JStr block_hash) ]
    /\ self' = LocalLedger.mk (LocalLedger.node_id self)
                 (LocalLedger.blocks self ++ [block])
                 (LocalLedger.pending_messages self) block_hash.
Proof.
  unfold LocalLedger.add_message. intros H.
  destruct (mine_block fuel (LocalLedger.new_block self message now) 2)
    as [[[block_hash nonce] mined]|] eqn:Hmine; [|discriminate].
  pose proof Hmine as Hspec. apply mine_loop_spec in Hspec as (_ & -> & _).
  exists block_hash, nonce. split; [reflexivity|].
  inversion H; subst. split; reflexivity.
Qed.

(** C3 (amended): the block add_message appends has block_number =
    len(chain), previous_hash = the ledger's last_block_hash, the given
    timestamp, the message dict as message_data, the node id, and no
    merkle_root key; it is mined at the fixed difficulty 2 (least nonce from
    0), stores its own hash, is appended to the chain, and last_block_hash
    becomes that hash. *)
Theorem add_message_block fuel self message now self' block :
  LocalLedger.add_message fuel self message now = Some (self', block) ->
  dict_get "block_number" block
    = Some (JInt (Z.of_nat (length (LocalLedger.blocks self))))
  /\ dict_get "previous_hash" block = Some (JStr (LocalLedger.last_block_hash self))
  /\ dict_get "timestamp" block = Some (JFloat now)
  /\ dict_get "message_data" block = Some (JDict (P2PMessage.to_dict message))
  /\ dict_get "node_id" block = Some (JStr (LocalLedger.node_id self))
  /\ dict_get "merkle_root" block = None
  /\ (exists nonce,
        dict_get "nonce" block = Some (JInt nonce)
        /\ 0 <= nonce
        /\ forall n, 0 <= n < nonce ->
             ~ leading_zeros 2
                 (calculate_block_hash
                    (dict_set "nonce" (JInt n)
                       (LocalLedger.new_block self message now))))
  /\ dict_get "block_hash" block = Some (JStr (LocalLedger.last_block_hash self'))
  /\ leading_zeros 2 (LocalLedger.last_block_hash self')
  /\ hash_valid block
  /\ LocalLedger.blocks self' = LocalLedger.blocks self ++ [block]
  /\ LocalLedger.node_id self' = LocalLedger.node_id self
  /\ LocalLedger.pending_messages self' = LocalLedger.pending_messages self.
Proof.
  intros H. apply add_message_inv in H as (block_hash & nonce & Hmine & -> & ->).
  pose proof Hmine as Hloop. apply mine_loop_spec in Hloop as (Hle & _ & Hh & Hpre & Hmin).
  repeat (split; [reflexivity|]).
  split.
  { exists nonce. split; [reflexivity|]. split; [exact Hle|].
    intros n Hn Hz. apply (startswith_zeros 2) in Hz.
    rewrite (Hmin n Hn) in Hz. discriminate. }
  split; [reflexivity|].
  split; [apply (startswith_zeros 2); exact Hpre|].
  split; [|repeat split; reflexivity].
  unfold hash_valid. rewrite Hh. reflexivity.
Qed.

Lemma add_message_block_witness :
  dict_get "block_number" block1 = Some (JInt 0)
  /\ dict_get "merkle_root" block1 = None
  /\ hash_valid block1
  /\ LocalLedger.blocks ledger1 = [block1].
Proof.
  pose proof (add_message_block 1 ledger0 message1 "1700000868.0" ledger1 block1)
    as H.
  specialize (H ltac:(vm_compute; reflexivity)).
  destruct H as (Hn & _ & _ & _ & _ & Hm & _ & _ & _ & Hv & Hb & _).
  exact (conj Hn (conj Hm (conj Hv Hb))).
Defined.

(** C3, as stated, fails: the appended block carries no merkle_root. *)
Lemma add_message_no_merkle_root :
  LocalLedger.add_message 1 ledger0 message1 "1700000868.0" = Some (ledger1, block1)
  /\ ~ block_as_specified ledger0 message1 block1.
Proof.
  split; [vm_compute; reflexivity|].
  intros (_ & _ & Hroot). vm_compute in Hroot. discriminate.
Qed.

(** C4: in every ledger reached from a fresh one by add_message calls,
    last_block_hash is the hash of the last block (the zero hash when there is
    none), each block's block_number is its index, and each block's
    previous_hash is the block_hash of the block before it. *)
Theorem reachable_ledger_invariant node_id self :
  reachable node_id self ->
  last_hash_ok self /\ numbered_by_index self /\ links_ok self.
Proof.
  induction 1 as [|fuel self message now self' block Hreach IH Hadd].
  - split; [reflexivity|]. split.
    + intros i b Hi. destruct i; discriminate.
    + intros i p c Hi. destruct i; discriminate.
  - destruct IH as (Hlast & Hnum & Hlink).
    apply add_message_inv in Hadd as (block_hash & nonce & _ & Hblock & ->).
    assert (Hbn : get "block_number" block
                  = JInt (Z.of_nat (length (LocalLedger.blocks self))))
      by (subst block; reflexivity).
    assert (Hbh : get "block_hash" block = JStr block_hash)
      by (subst block; reflexivity).
    assert (Hph : get "previous_hash" block = JStr (LocalLedger.last_block_hash self))
      by (subst block; reflexivity).
    clear Hblock. cbn [LocalLedger.blocks LocalLedger.last_block_hash].
    split; [|split].
    + unfold last_hash_ok. cbn [LocalLedger.blocks LocalLedger.last_block_hash].
      rewrite last_snoc. exact Hbh.
    + intros i b Hi. cbn [LocalLedger.blocks] in Hi.
      destruct (decide (i < length (LocalLedger.blocks self))%nat) as [Hlt|Hge].
      * rewrite lookup_app_l in Hi by exact Hlt. eauto.
      * rewrite lookup_app_r in Hi by lia.
        destruct (i - length (LocalLedger.blocks self))%nat eqn:E;
          [|destruct n; discriminate].
        inversion Hi; subst b. replace i with (length (LocalLedger.blocks self)) by lia.
        exact Hbn.
    + intros i p c Hp Hc. cbn [LocalLedger.blocks] in Hp, Hc.
      destruct (decide (S i < length (LocalLedger.blocks self))%nat) as [Hlt|Hge].
      * rewrite lookup_app_l in Hp by lia. rewrite lookup_app_l in Hc by lia. eauto.
      * assert (Hi : (i < length (LocalLedger.blocks self))%nat).
        { apply lookup_lt_Some in Hp. rewrite length_app in Hp. simpl in Hp.
          apply lookup_lt_Some in Hc. rewrite length_app in Hc. simpl in Hc. lia. }
        rewrite lookup_app_l in Hp by lia.
        rewrite lookup_app_r in Hc by lia.
        replace (S i - length (LocalLedger.blocks self))%nat with 0%nat in Hc by lia.
        inversion Hc; subst c. rewrite Hph.
        unfold last_hash_ok in Hlast.
        assert (Hl : last (LocalLedger.blocks self) = Some p).
        { rewrite last_lookup.
          replace (Nat.pred (length (LocalLedger.blocks self))) with i by lia.
          exact Hp. }
        rewrite Hl in Hlast. symmetry. exact Hlast.
Qed.

Lemma ledger2_reachable : reachable "alpha_1" ledger2.
Proof.
  apply (reachable_add _ 1 ledger1 message2 "1700000214.0" ledger2 block2).
  - apply (reachable_add _ 1 ledger0 message1 "1700000868.0" ledger1 block1).
    + apply reachable_init.
    + vm_compute. reflexivity.
  - vm_compute. reflexivity.
Defined.

Lemma reachable_ledger_invariant_witness :
  last_hash_ok ledger2 /\ numbered_by_index ledger2 /\ links_ok ledger2.
Proof.
  apply (reachable_ledger_invariant "alpha_1" ledger2).
  apply (reachable_add _ 1 ledger1 message2 "1700000214.0" ledger2 block2).
  - apply (reachable_add _ 1 ledger0 message1 "1700000868.0" ledger1 block1).
    + apply reachable_init.
    + vm_compute. reflexivity.
  - vm_compute. reflexivity.
Defined.

End LedgerProofs.

(** * Proofs about the P2P simulator *)
Module NetProofs.
Import Json Net NetSpec.
Import P2PNetworkSimulator.

Lemma queue_append_lookup k r q q' n :
  queue_append k r q = Ok q' ->
  (n = k -> exists l, q !! k = Some l /\ q' !! n = Some (l ++ [r]))
  /\ (n <> k -> q' !! n = q !! n).
Proof.
  unfold queue_append. destruct (q !! k) as [l|] eqn:Hk; [|discriminate].
  intros [= <-]. split.
  - intros ->. exists l. split; [reflexivity|]. apply lookup_insert_eq.
  - intros Hne. apply lookup_insert_ne. congruence.
Qed.

(** A pass over peers that do not include [n] leaves the queue of [n]. *)
Lemma p2p_loop_other nodes receiver_id r peers st st' n :
  for_each (p2p_step nodes receiver_id r) peers st = Ok st' ->
  n ∉ peers ->
  st'.1.1 !! n = st.1.1 !! n.
Proof.
  revert st. induction peers as [|p peers IH]; intros st Hloop Hn.
  - simpl in Hloop. congruence.
  - apply not_elem_of_cons in Hn as [Hne Hn].
    cbn [for_each] in Hloop.
    destruct (p2p_step nodes receiver_id r st p) as [st1| |] eqn:Hstep;
      try discriminate.
    rewrite (IH _ Hloop Hn). clear IH Hloop.
    destruct st as [[q h] d]. unfold p2p_step in Hstep.
    destruct (nodes !! p) as [pn|]; [|discriminate].
    destruct (negb (PeerNode.is_online pn)); [congruence|].
    repeat case_decide.
    + destruct (queue_append p r q) as [q1| |] eqn:Hq; try discriminate.
      simpl in Hstep. inversion Hstep; subst st1. simpl.
      apply (queue_append_lookup _ _ _ _ n) in Hq as [_ Hq]. auto.
    + destruct (queue_append p r q) as [q1| |] eqn:Hq; try discriminate.
      simpl in Hstep. inversion Hstep; subst st1. simpl.
      apply (queue_append_lookup _ _ _ _ n) in Hq as [_ Hq]. auto.
    + inversion Hstep; subst st1. reflexivity.
Qed.

(** With a receiver set, a pass over peers without the receiver changes no
    queue at all. *)
Lemma p2p_loop_without_receiver nodes receiver r peers st st' :
  for_each (p2p_step nodes (Some receiver) r) peers st = Ok st' ->
  receiver ∉ peers ->
  st'.1.1 = st.1.1.
Proof.
  revert st. induction peers as [|p peers IH]; intros st Hloop Hn.
  - simpl in Hloop. congruence.
  - apply not_elem_of_cons in Hn as [Hne Hn].
    cbn [for_each] in Hloop.
    destruct (p2p_step nodes (Some receiver) r st p) as [st1| |] eqn:Hstep;
      try discriminate.
    rewrite (IH _ Hloop Hn). clear IH Hloop.
    destruct st as [[q h] d]. unfold p2p_step in Hstep.
    destruct (nodes !! p) as [pn|]; [|discriminate].
    destruct (negb (PeerNode.is_online pn)); [congruence|].
    repeat case_decide; try congruence.
    inversion Hstep; subst st1. reflexivity.
Qed.

(** With a receiver set, a pass over distinct peers appends to the
    receiver's queue when the receiver is among them and on line, and
    changes nothing otherwise. *)
Lemma p2p_loop_receiver nodes receiver r peers st st' :
  NoDup peers ->
  for_each (p2p_step nodes (Some receiver) r) peers st = Ok st' ->
  (receiver ∈ peers
   /\ (exists pn, nodes !! receiver = Some pn /\ PeerNode.is_online pn = true)
   /\ (exists l, st.1.1 !! receiver = Some l
                 /\ st'.1.1 = <[receiver := l ++ [r]]> st.1.1))
  \/ (~ (receiver ∈ peers
         /\ exists pn, nodes !! receiver = Some pn /\ PeerNode.is_online pn = true)
      /\ st'.1.1 = st.1.1).
Proof.
  intros Hnd. revert st. induction Hnd as [|p peers Hp Hnd IH]; intros st Hloop.
  - right. split; [|simpl in Hloop; congruence].
    intros [Hin _]. inversion Hin.
  - cbn [for_each] in Hloop.
    destruct (p2p_step nodes (Some receiver) r st p) as [st1| |] eqn:Hstep;
      try discriminate.
    destruct st as [[q h] d]. unfold p2p_step in Hstep.
    destruct (nodes !! p) as [pn|] eqn:Hpn; [|discriminate].
    destruct (PeerNode.is_online pn) eqn:Hon; simpl in Hstep.
    + case_decide as Hrcv.
      * (* the receiver itself *)
        assert (receiver = p) by congruence. subst p.
        destruct (queue_append receiver r q) as [q1| |] eqn:Hq; try discriminate.
        simpl in Hstep. inversion Hstep; subst st1.
        apply p2p_loop_without_receiver in Hloop; [|exact Hp]. simpl in Hloop.
        unfold queue_append in Hq. destruct (q !! receiver) as [l|] eqn:Hl;
          [|discriminate].
        injection Hq as <-.
        left. split; [left|]. split; [eauto|].
        exists l. simpl. split; [exact Hl|exact Hloop].
      * try (case_decide; [discriminate|]). inversion Hstep; subst st1.
        destruct (IH _ Hloop) as [(Hin & Hon' & Hq)|(Hno & Hq)].
        -- left. split; [right; exact Hin|]. split; [exact Hon'|exact Hq].
        -- right. split; [|exact Hq].
           intros [Hin Hon']. apply Hno. split; [|exact Hon'].
           apply elem_of_cons in Hin as [->|Hin]; [congruence|exact Hin].
    + inversion Hstep; subst st1.
      destruct (IH _ Hloop) as [(Hin & Hon' & Hq)|(Hno & Hq)].
      * left. split; [right; exact Hin|]. split; [exact Hon'|exact Hq].
      * right. split; [|exact Hq].
        intros [Hin Hon']. apply Hno. split; [|exact Hon'].
        apply elem_of_cons in Hin as [->|Hin]; [|exact Hin].
        destruct Hon' as (pn' & Hpn' & Hon'). congruence.
Qed.

(** What deliver_via_p2p returns when it returns: the state it started from,
    or that state with the queues and the message updated by the pass. *)
Lemma deliver_via_p2p_inv self r self' delivered :
  deliver_via_p2p self r = Ok (self', delivered) ->
  (P2PMessage.max_hops (deref self r) <= P2PMessage.hop_count (deref self r)
   /\ self' = self /\ delivered = false)
  \/ (P2PMessage.hop_count (deref self r) < P2PMessage.max_hops (deref self r)
      /\ exists q hop_count,
           for_each (p2p_step (nodes self) (P2PMessage.receiver_id (deref self r)) r)
             (elements (neighbours self (P2PMessage.sender_id (deref self r))))
             (message_queues self, P2PMessage.hop_count (deref self r), false)
           = Ok (q, hop_count, delivered)
           /\ self' = set_objects
                        (<[r := P2PMessage.set_hop_count hop_count (deref self r)]>
                           (objects self))
                        (set_message_queues q self)).
Proof.
  unfold deliver_via_p2p, neighbours.
  destruct (Z.leb_spec (P2PMessage.max_hops (deref self r))
                       (P2PMessage.hop_count (deref self r))) as [Hge|Hlt].
  - intros [= <- <-]. left. auto.
  - intros H. right. split; [exact Hlt|].
    destruct (for_each _ _ _) as [[[q h] d]| |] eqn:Hloop; try discriminate.
    cbn [bind] in H.
    destruct (bool_decide (P2PMessage.receiver_id (deref self r) = None) && d);
      [destruct (nodes self !! P2PMessage.sender_id (deref self r));
         [|discriminate]|];
      (inversion H; subst; exists q, h; auto).
Qed.

(** C9: a call of deliver_via_p2p that returns never changes the queue of a
    node outside network_topology[sender_id]; and when the receiver is set and
    hop_count < max_hops, the message is appended to the queue of a node
    exactly when that node is the receiver, is a direct neighbour of the
    sender and is on line, every other queue being left as it was. *)
Theorem deliver_via_p2p_direct_neighbour self r self' delivered :
  deliver_via_p2p self r = Ok (self', delivered) ->
  (forall n, n ∉ neighbours self (P2PMessage.sender_id (deref self r)) ->
             untouched self self' n)
  /\ (forall receiver,
        P2PMessage.receiver_id (deref self r) = Some receiver ->
        P2PMessage.hop_count (deref self r) < P2PMessage.max_hops (deref self r) ->
        forall n,
          (enqueued self self' r n
           <-> n = receiver
               /\ n ∈ neighbours self (P2PMessage.sender_id (deref self r))
               /\ online self n)
          /\ (~ (n = receiver
                 /\ n ∈ neighbours self (P2PMessage.sender_id (deref self r))
                 /\ online self n)
              -> untouched self self' n)).
Proof.
  intros H. apply deliver_via_p2p_inv in H
    as [(Hge & -> & ->)|(Hlt & q & h & Hloop & ->)].
  - split; [reflexivity|]. intros; lia.
  - split.
    + intros n Hn. unfold untouched. cbn [message_queues set_objects set_message_queues].
      apply (p2p_loop_other _ _ _ _ _ _ n) in Hloop; [exact Hloop|].
      now rewrite elem_of_elements.
    + intros receiver Hrcv _ n. rewrite Hrcv in Hloop.
      apply p2p_loop_receiver in Hloop; [|apply NoDup_elements].
      unfold enqueued, untouched, online.
      cbn [message_queues set_objects set_message_queues].
      cbn [fst snd] in Hloop. rewrite elem_of_elements in Hloop.
      destruct Hloop as [(Hin & Hon & l & Hl & ->)|(Hno & ->)].
      * split.
        -- split.
           ++ intros (l' & Hl' & Hq).
              destruct (decide (n = receiver)) as [->|Hne]; [auto|].
              rewrite lookup_insert_ne in Hq by congruence.
              rewrite Hl' in Hq. inversion Hq as [Heq].
              apply (f_equal length) in Heq. rewrite length_app in Heq.
              simpl in Heq. lia.
           ++ intros (-> & _ & _). exists l. split; [exact Hl|].
              apply lookup_insert_eq.
        -- intros Hnot. apply lookup_insert_ne. intros <-. apply Hnot. auto.
      * split; [|reflexivity]. split.
        -- intros (l' & Hl' & Hq). rewrite Hl' in Hq. inversion Hq as [Heq].
           apply (f_equal length) in Heq. rewrite length_app in Heq.
           simpl in Heq. lia.
        -- intros (-> & Hin & Hon). exfalso. apply Hno. auto.
Qed.

Lemma deliver_via_p2p_direct_neighbour_witness :
  exists self',
    enqueued mesh self' 0 "bravo_1"
    /\ untouched mesh self' "charlie_1"
    /\ untouched mesh self' "delta_1"
    /\ untouched mesh self' "echo_1".
Proof.
  destruct (deliver_via_p2p mesh 0) as [[self' delivered]| |] eqn:Hrun;
    [|vm_compute in Hrun; discriminate|vm_compute in Hrun; discriminate].
  exists self'.
  destruct (deliver_via_p2p_direct_neighbour mesh 0 self' delivered Hrun)
    as [Hfar Hnear].
  specialize (Hnear "bravo_1" ltac:(reflexivity) ltac:(vm_compute; reflexivity)).
  split; [|split; [|split]].
  - apply (Hnear "bravo_1"). split; [reflexivity|]. split.
    + vm_compute. set_solver.
    + eexists. split; vm_compute; reflexivity.
  - apply (Hnear "charlie_1"). intros (Heq & _). discriminate.
  - apply (Hnear "delta_1"). intros (Heq & _). discriminate.
  - apply Hfar. vm_compute. set_solver.
Defined.










(** A message whose sender is in mode OFFLINE is not routed: route_message
    returns False and changes nothing. *)
Lemma route_message_offline self r sender :
  nodes self !! P2PMessage.sender_id (deref self r) = Some sender ->
  PeerNode.connectivity_mode sender = OFFLINE ->
  route_message self r = Ok (self, false).
Proof.
  intros Hs Hmode. unfold route_message. rewrite Hs.
  case_decide; [reflexivity|contradiction].
Qed.

End NetProofs.

(** * Proofs about the demo server *)
Module DemoProofs.
Import Demo.
Import Demo.Server.
Import DemoSpec.

Lemma lookup_update_node_eq k f nodes :
  lookup_node k (update_node k f nodes) = f <$> lookup_node k nodes.
Proof.
  induction nodes as [|[k' n] nodes IH]; simpl; [reflexivity|].
  destruct (String.eqb k k') eqn:E; simpl; rewrite E; auto.
Qed.

Lemma lookup_update_node_ne k k' f nodes :
  k <> k' -> lookup_node k' (update_node k f nodes) = lookup_node k' nodes.
Proof.
  intros Hne. induction nodes as [|[k2 n] nodes IH]; simpl; [reflexivity|].
  destruct (String.eqb k k2) eqn:E; simpl.
  - apply String.eqb_eq in E. subst k2.
    destruct (String.eqb k' k) eqn:E'; [|reflexivity].
    apply String.eqb_eq in E'. congruence.
  - now rewrite IH.
Qed.

Lemma keys_update_node k f nodes :
  map fst (update_node k f nodes) = map fst nodes.
Proof.
  induction nodes as [|[k' n] nodes IH]; simpl; [reflexivity|].
  destruct (String.eqb k k'); simpl; congruence.
Qed.

Lemma lookup_map_nodes k f nodes :
  lookup_node k (map_nodes f nodes) = f <$> lookup_node k nodes.
Proof.
  induction nodes as [|[k' n] nodes IH]; simpl; [reflexivity|].
  destruct (String.eqb k k'); auto.
Qed.

Lemma lookup_node_key k nodes n :
  lookup_node k nodes = Some n -> k ∈ map fst nodes.
Proof.
  induction nodes as [|[k' n'] nodes IH]; simpl; [discriminate|].
  destruct (String.eqb k k') eqn:E.
  - apply String.eqb_eq in E. subst. intros _. left.
  - intros H. right. auto.
Qed.

(** ** The flood *)

(** What the flood keeps true of visited and route_path. *)
Definition flood_inv (sender : string) (keys : list string)
    (visited : gset string) (route_path : list string) : Prop :=
  sender ∈ visited
  /\ NoDup route_path
  /\ forall x, x ∈ route_path -> x ∈ visited /\ x <> sender /\ x ∈ keys.

Lemma scan_targets_inv sender keys node targets visited next_hops route_path :
  (forall kn, kn ∈ targets -> kn.1 ∈ keys) ->
  flood_inv sender keys visited route_path ->
  let '(visited', _, route_path') :=
    scan_targets node targets (visited, next_hops, route_path) in
  flood_inv sender keys visited' route_path'.
Proof.
  unfold scan_targets.
  revert visited next_hops route_path.
  induction targets as [|[target_id target_node] targets IH];
    intros visited next_hops route_path Hkeys Hinv; [exact Hinv|].
  cbn [fold_left].
  assert (Hkeys' : forall kn, kn ∈ targets -> kn.1 ∈ keys)
    by (intros kn Hkn; apply Hkeys; now right).
  destruct (bool_decide (target_id ∈ visited)
            || bool_decide (BattlefieldNode.status target_node = OFFLINE)) eqn:Hskip;
    [now apply IH|].
  destruct (within_p2p_range _ _); [|now apply IH].
  apply IH; [exact Hkeys'|].
  apply orb_false_iff in Hskip as [Hvis _].
  apply bool_decide_eq_false in Hvis.
  destruct Hinv as (Hs & Hnd & Hrp).
  split; [apply elem_of_union; left; exact Hs|]. split.
  - apply NoDup_app. split; [exact Hnd|]. split; [|apply NoDup_singleton].
    intros x Hx Hx'. apply list_elem_of_singleton in Hx'. subst x.
    apply Hrp in Hx as (Hv & _). contradiction.
  - intros x Hx. apply elem_of_app in Hx as [Hx|Hx].
    + apply Hrp in Hx as (Hv & Hne & Hk).
      split; [apply elem_of_union; left; exact Hv|auto].
    + apply list_elem_of_singleton in Hx. subst x.
      split; [apply elem_of_union; right; apply elem_of_singleton; reflexivity|].
      split.
      * intros ->. contradiction.
      * apply (Hkeys (target_id, target_node)). left.
Qed.

Lemma expand_inv sender nodes visited next_hops route_path current_node :
  flood_inv sender (map fst nodes) visited route_path ->
  let '(visited', _, route_path') :=
    expand nodes (visited, next_hops, route_path) current_node in
  flood_inv sender (map fst nodes) visited' route_path'.
Proof.
  intros Hinv. unfold expand.
  destruct (lookup_node current_node nodes) as [node|]; [|exact Hinv].
  destruct (bool_decide _); [exact Hinv|].
  apply scan_targets_inv; [|exact Hinv].
  intros kn Hkn. apply list_elem_of_fmap. eauto.
Qed.

Lemma expand_level_inv sender nodes current_hops visited next_hops route_path :
  flood_inv sender (map fst nodes) visited route_path ->
  let '(visited', _, route_path') :=
    fold_left (expand nodes) current_hops (visited, next_hops, route_path) in
  flood_inv sender (map fst nodes) visited' route_path'.
Proof.
  revert visited next_hops route_path.
  induction current_hops as [|c current_hops IH];
    intros visited next_hops route_path Hinv; [exact Hinv|].
  cbn [fold_left].
  pose proof (expand_inv sender nodes visited next_hops route_path c Hinv) as H.
  destruct (expand nodes (visited, next_hops, route_path) c) as [[v1 n1] r1].
  now apply IH.
Qed.

Lemma flood_inv_kept sender hops nodes visited current_hops route_path :
  flood_inv sender (map fst nodes) visited route_path ->
  exists visited',
    flood_inv sender (map fst nodes) visited'
      (flood hops nodes visited current_hops route_path).
Proof.
  revert visited current_hops route_path.
  induction hops as [|hops IH]; intros visited current_hops route_path Hinv;
    [eauto|].
  cbn [flood].
  pose proof (expand_level_inv sender nodes current_hops visited [] route_path Hinv)
    as H.
  destruct (fold_left (expand nodes) current_hops (visited, [], route_path))
    as [[v1 n1] r1].
  destruct n1; [eauto|]. now apply IH.
Qed.

(** A route_path built by the flood from an empty one: no node twice, never
    the sender, only registered nodes. *)
Lemma flood_route_path sender nodes :
  let route_path := flood max_hops nodes {[sender]} [sender] [] in
  NoDup route_path
  /\ (sender ∉ route_path)
  /\ forall x, x ∈ route_path -> x ∈ map fst nodes.
Proof.
  destruct (flood_inv_kept sender max_hops nodes {[sender]} [sender] [])
    as (visited & _ & Hnd & Hrp).
  { split; [set_solver|]. split; [constructor|]. intros x Hx. inversion Hx. }
  split; [exact Hnd|]. split.
  - intros Hin. apply Hrp in Hin as (_ & Hne & _). congruence.
  - intros x Hx. now apply Hrp in Hx.
Qed.

(** A sender that is OFFLINE floods nobody. *)
Lemma flood_offline_sender hops sender node nodes route_path :
  lookup_node sender nodes = Some node ->
  BattlefieldNode.status node = OFFLINE ->
  flood hops nodes {[sender]} [sender] route_path = route_path.
Proof.
  intros Hl Hs. destruct hops; [reflexivity|].
  cbn [flood fold_left]. unfold expand. rewrite Hl, Hs. reflexivity.
Qed.

(** What handle_send_message does when it returns: nothing, or one message
    created, clocked, routed, logged and broadcast. *)
Lemma handle_send_message_inv self data env self' :
  handle_send_message self data env = Ok self' ->
  (self' = self
   /\ forall s, Demo.sender_id data = Some s -> s <> "" ->
                lookup_node s (nodes self) = None)
  \/ exists sender_id sender message,
       Demo.sender_id data = Some sender_id
       /\ sender_id <> ""
       /\ lookup_node sender_id (nodes self) = Some sender
       /\ BattlefieldMessage.lamport_clock message
          = BattlefieldNode.lamport_clock sender + 1
       /\ BattlefieldMessage.sender_id message = sender_id
       /\ BattlefieldMessage.route_path message
          = (if centralized self then ["central_server"]
             else flood max_hops
                    (update_node sender_id
                       (BattlefieldNode.set_lamport_clock
                          (BattlefieldNode.lamport_clock sender + 1))
                       (nodes self))
                    {[sender_id]} [sender_id] [])
       /\ self' = Server.mk (server_online self) (network_state self)
                    (update_node sender_id
                       (BattlefieldNode.set_lamport_clock
                          (BattlefieldNode.lamport_clock sender + 1))
                       (nodes self))
                    (messages self ++ [message]) (events self)
                    (outbox self ++ [new_message message (BattlefieldNode.name sender)]).
Proof.
  unfold handle_send_message.
  destruct (MessageType_of_value (Demo.message_type data)) as [mt|]; [|discriminate].
  destruct (Demo.sender_id data) as [s|];
    [|intros [= <-]; left; split; [reflexivity|discriminate]].
  destruct (String.eqb s "") eqn:Hs.
  { intros [= <-]. left. split; [reflexivity|].
    intros s' [= <-] Hne. apply String.eqb_eq in Hs. contradiction. }
  destruct (lookup_node s (nodes self)) as [sender|] eqn:Hl.
  2: { intros [= <-]. left. split; [reflexivity|]. intros s' [= <-] _. exact Hl. }
  intros [= <-]. right.
  apply String.eqb_neq in Hs.
  cbn [server_online network_state set_nodes].
  unfold centralized.
  destruct (server_online self && bool_decide (network_state self = CENTRALIZED)).
  - eexists s, sender, _. split; [reflexivity|]. split; [exact Hs|].
    split; [exact Hl|]. repeat split; reflexivity.
  - unfold route_message_p2p, broadcast_to_clients.
    cbn [BattlefieldMessage.recipients BattlefieldMessage.route_path
         BattlefieldMessage.lamport_clock BattlefieldMessage.sender_id
         nodes set_nodes].
    destruct (Demo.recipients data);
      (eexists s, sender, _; split; [reflexivity|]; split; [exact Hs|];
       split; [exact Hl|]; repeat split; reflexivity).
Qed.

(** X23: whatever the registry holds, a message produced by
    handle_send_message never lists a node twice in its route_path.  On the
    centralized path the route_path is the single entry central_server.  On
    the P2P path it lists registered nodes other than the sender, so its
    length is at most the number of registered nodes minus one. *)
Theorem send_route_path self data env self' :
  handle_send_message self data env = Ok self' ->
  self' = self
  \/ exists sender_id message,
       Demo.sender_id data = Some sender_id
       /\ messages self' = messages self ++ [message]
       /\ NoDup (BattlefieldMessage.route_path message)
       /\ (centralized self = true ->
           BattlefieldMessage.route_path message = ["central_server"])
       /\ (centralized self = false ->
           (sender_id ∉ BattlefieldMessage.route_path message)
           /\ (forall x, x ∈ BattlefieldMessage.route_path message ->
                         x ∈ map fst (nodes self))
           /\ (length (BattlefieldMessage.route_path message)
               <= length (nodes self) - 1)%nat).
Proof.
  intros H. apply handle_send_message_inv in H
    as [[-> _]|(s & sender & m & Hd & _ & Hl & _ & _ & Hrp & ->)]; [auto|].
  right. exists s, m. split; [exact Hd|]. split; [reflexivity|].
  destruct (centralized self).
  - rewrite Hrp. split; [apply NoDup_singleton|]. split; [auto|discriminate].
  - pose proof (flood_route_path s
                  (update_node s
                     (BattlefieldNode.set_lamport_clock
                        (BattlefieldNode.lamport_clock sender + 1)) (nodes self)))
      as (Hnd & Hns & Hkeys).
    rewrite <- Hrp in Hnd, Hns, Hkeys. rewrite keys_update_node in Hkeys.
    split; [exact Hnd|]. split; [discriminate|]. intros _.
    split; [exact Hns|]. split; [exact Hkeys|].
    assert (Hsub : s :: BattlefieldMessage.route_path m ⊆+ map fst (nodes self)).
    { apply NoDup_submseteq; [constructor; assumption|].
      intros x Hx. apply elem_of_cons in Hx as [->|Hx]; [|auto].
      eapply lookup_node_key; eauto. }
    apply submseteq_length in Hsub. rewrite length_map in Hsub. simpl in Hsub. lia.
Qed.

Lemma send_route_path_witness :
  exists self' message,
    handle_send_message alpha_dropped_p2p (send_from "bravo_1") demo_env = Ok self'
    /\ messages self' = messages alpha_dropped_p2p ++ [message]
    /\ NoDup (BattlefieldMessage.route_path message)
    /\ (length (BattlefieldMessage.route_path message) <= 4)%nat.
Proof.
  destruct (handle_send_message alpha_dropped_p2p (send_from "bravo_1") demo_env)
    as [self'| |] eqn:Hrun;
    [|vm_compute in Hrun; discriminate|vm_compute in Hrun; discriminate].
  destruct (send_route_path _ _ _ _ Hrun) as [Hsame|(s & m & _ & Hm & Hnd & _ & Hp2p)].
  - exfalso. subst self'. vm_compute in Hrun. discriminate.
  - exists self', m. split; [reflexivity|]. split; [exact Hm|]. split; [exact Hnd|].
    destruct (Hp2p ltac:(reflexivity)) as (_ & _ & Hlen). exact Hlen.
Defined.

(** ** Resync *)

Lemma max_clock_fold rest m0 :
  let m := fold_left (fun m (kn : string * BattlefieldNode.t) =>
                        Z.max m (BattlefieldNode.lamport_clock kn.2)) rest m0 in
  m0 <= m
  /\ (forall kn, kn ∈ rest -> BattlefieldNode.lamport_clock kn.2 <= m)
  /\ (m = m0 \/ exists kn, kn ∈ rest /\ BattlefieldNode.lamport_clock kn.2 = m).
Proof.
  revert m0. induction rest as [|kn rest IH]; intros m0; cbn [fold_left].
  - split; [lia|]. split; [|auto]. intros kn Hkn. inversion Hkn.
  - destruct (IH (Z.max m0 (BattlefieldNode.lamport_clock kn.2))) as (Hle & Hall & Hex).
    split; [lia|]. split.
    + intros kn' Hkn'. apply elem_of_cons in Hkn' as [->|Hkn']; [lia|auto].
    + destruct Hex as [Heq|(kn' & Hin & Heq)].
      * destruct (Z.max_spec m0 (BattlefieldNode.lamport_clock kn.2)) as [[_ Hm]|[_ Hm]].
        -- right. exists kn. split; [left|]. lia.
        -- left. lia.
      * right. exists kn'. split; [now right|exact Heq].
Qed.

Lemma max_clock_is_max nodes m :
  max_clock nodes = Ok m -> is_max_clock nodes m.
Proof.
  destruct nodes as [|[k n] rest]; [discriminate|]. cbn [max_clock].
  intros [= <-].
  destruct (max_clock_fold rest (BattlefieldNode.lamport_clock n)) as (Hle & Hall & Hex).
  split.
  - destruct Hex as [Heq|(kn & Hin & Heq)].
    + exists (k, n). split; [left|]. simpl. lia.
    + exists kn. split; [now right|exact Heq].
  - intros kn Hkn. apply elem_of_cons in Hkn as [->|Hkn]; [exact Hle|auto].
Qed.

Lemma is_max_clock_unique nodes L L' :
  is_max_clock nodes L -> is_max_clock nodes L' -> L = L'.
Proof.
  intros [(kn & Hin & Heq) Hall] [(kn' & Hin' & Heq') Hall'].
  apply Hall' in Hin. apply Hall in Hin'. lia.
Qed.

(** synchronize_network sets every node to the greatest clock plus one and
    empties every queue; it raises only on an empty registry. *)
Lemma synchronize_network_inv self self' :
  synchronize_network self = Ok self' ->
  exists m,
    is_max_clock (nodes self) m
    /\ self' = set_nodes
                 (map_nodes (BattlefieldNode.set_message_queue [])
                    (map_nodes (BattlefieldNode.set_lamport_clock (m + 1))
                       (nodes self))) self.
Proof.
  unfold synchronize_network.
  destruct (max_clock (nodes self)) as [m| |] eqn:Hm; try discriminate.
  simpl. intros [= <-]. exists m. split; [|reflexivity].
  now apply max_clock_is_max.
Qed.

Lemma is_max_clock_set_status f nodes L :
  (forall n, BattlefieldNode.lamport_clock (f n) = BattlefieldNode.lamport_clock n) ->
  is_max_clock (map_nodes f nodes) L <-> is_max_clock nodes L.
Proof.
  intros Hf. unfold is_max_clock, map_nodes. split.
  - intros [(kn & Hin & Heq) Hall].
    apply list_elem_of_fmap in Hin as (kn0 & -> & Hin0). simpl in Heq.
    rewrite Hf in Heq. split; [eauto|].
    intros kn1 Hin1. specialize (Hall (kn1.1, f kn1.2)). simpl in Hall.
    rewrite Hf in Hall. apply Hall. apply list_elem_of_fmap. eauto.
  - intros [(kn & Hin & Heq) Hall]. split.
    + exists (kn.1, f kn.2). simpl. rewrite Hf. split; [|exact Heq].
      apply list_elem_of_fmap. eauto.
    + intros kn1 Hin1. apply list_elem_of_fmap in Hin1 as (kn0 & -> & Hin0).
      simpl. rewrite Hf. auto.
Qed.

(** C8: when a resync runs (force_sync, or server_recovery on a server that
    was down), every node that is ONLINE, P2P_ONLY or RECONNECTING beforehand
    ends with its Lamport clock at L_max + 1, where L_max is the greatest
    clock over all nodes beforehand. *)
Theorem resync_clock_advance self now self' L_max :
  resync self now self' ->
  is_max_clock (nodes self) L_max ->
  forall k n,
    lookup_node k (nodes self) = Some n ->
    participating (BattlefieldNode.status n) ->
    exists n',
      lookup_node k (nodes self') = Some n'
      /\ BattlefieldNode.lamport_clock n' = L_max + 1.
Proof.
  intros Hsync Hmax k n Hl _.
  destruct Hsync as [Hrun|[Hdown Hrun]].
  - unfold handle_force_sync in Hrun.
    destruct (synchronize_network self) as [s1| |] eqn:Hs; try discriminate.
    simpl in Hrun. injection Hrun as <-.
    apply synchronize_network_inv in Hs as (m & Hm & ->).
    rewrite (is_max_clock_unique _ _ _ Hmax Hm).
    cbn [nodes emit_event broadcast_to_clients set_outbox set_events set_nodes].
    rewrite !lookup_map_nodes, Hl. simpl. eauto.
  - unfold simulate_server_recovery in Hrun. rewrite Hdown in Hrun.
    destruct (synchronize_network _) as [s1| |] eqn:Hs; try discriminate.
    simpl in Hrun. injection Hrun as <-.
    apply synchronize_network_inv in Hs as (m & Hm & ->).
    cbn [nodes set_nodes set_mode] in Hm.
    apply is_max_clock_set_status in Hm; [|intros n0; now destruct (bool_decide _)].
    rewrite (is_max_clock_unique _ _ _ Hmax Hm).
    cbn [nodes emit_event broadcast_to_clients set_outbox set_events set_nodes set_mode].
    rewrite !lookup_map_nodes, Hl. simpl. eauto.
Qed.

Lemma resync_clock_advance_witness :
  exists self' n',
    handle_force_sync after_bravo "2025-09-13T14:31:00" = Ok self'
    /\ lookup_node "charlie_1" (nodes self') = Some n'
    /\ BattlefieldNode.lamport_clock n' = 1 + 1.
Proof.
  destruct (handle_force_sync after_bravo "2025-09-13T14:31:00")
    as [self'| |] eqn:Hrun;
    [|vm_compute in Hrun; discriminate|vm_compute in Hrun; discriminate].
  destruct (resync_clock_advance after_bravo "2025-09-13T14:31:00" self' 1
              (or_introl Hrun)
              ltac:(apply max_clock_is_max; vm_compute; reflexivity)
              "charlie_1"
              (BattlefieldNode.mk "charlie_1" "Charlie Support" "Private"
                 "Charlie Company" (200, 350) P2P_ONLY "2025-09-13T14:30:00" ∅ [] 0)
              ltac:(vm_compute; reflexivity)
              ltac:(right; left; reflexivity))
    as (n' & Hl & Hc).
  exists self', n'. auto.
Defined.

End DemoProofs.

(** * Sends from a node that is off line *)
Module OfflineSend.
Import Json Net NetSpec NetProofs.
Import Demo DemoSpec DemoProofs.

Lemma queues_update_clock k c nodes :
  map (fun kn : string * BattlefieldNode.t =>
         (kn.1, BattlefieldNode.message_queue kn.2))
      (update_node k (BattlefieldNode.set_lamport_clock c) nodes)
  = map (fun kn => (kn.1, BattlefieldNode.message_queue kn.2)) nodes.
Proof.
  induction nodes as [|[k' n] nodes IH]; simpl; [reflexivity|].
  destruct (String.eqb k k'); simpl; congruence.
Qed.

(** What send_message does for a sender in mode OFFLINE, when it returns. *)
Lemma send_message_offline self s rcv mt c env self' delivered sender :
  P2PNetworkSimulator.send_message self s rcv mt c env = Ok (self', delivered) ->
  P2PNetworkSimulator.nodes self !! s = Some sender ->
  PeerNode.connectivity_mode sender = Net.OFFLINE ->
  delivered = false
  /\ P2PNetworkSimulator.message_queues self' = P2PNetworkSimulator.message_queues self
  /\ exists ledger ledger' block,
       P2PNetworkSimulator.ledgers self !! s = Some ledger
       /\ P2PNetworkSimulator.ledgers self' !! s = Some ledger'
       /\ LocalLedger.blocks ledger' = LocalLedger.blocks ledger ++ [block].
Proof.
  intros Hrun Hs Hmode. unfold P2PNetworkSimulator.send_message in Hrun.
  rewrite Hs in Hrun.
  destruct (P2PNetworkSimulator.sealed env) as [payload| |]; try discriminate.
  destruct (P2PNetworkSimulator.signature env) as [digital_signature| |];
    try discriminate.
  cbn [bind P2PNetworkSimulator.ledgers P2PNetworkSimulator.set_objects
       P2PNetworkSimulator.set_lamport_clock] in Hrun.
  destruct (P2PNetworkSimulator.ledgers self !! s) as [ledger|] eqn:Hl;
    [|discriminate].
  destruct (LocalLedger.add_message _ _ _ _) as [[ledger' block]|] eqn:Hadd;
    [|discriminate].
  rewrite (route_message_offline _ _ sender) in Hrun.
  - injection Hrun as <- <-. split; [reflexivity|]. split; [reflexivity|].
    exists ledger, ledger', block. split; [reflexivity|].
    split; [apply lookup_insert_eq|].
    apply LedgerProofs.add_message_inv in Hadd as (h & n & _ & _ & ->). reflexivity.
  - unfold P2PNetworkSimulator.deref.
    cbn [P2PNetworkSimulator.objects P2PNetworkSimulator.nodes
         P2PNetworkSimulator.set_ledgers P2PNetworkSimulator.set_objects
         P2PNetworkSimulator.set_lamport_clock].
    rewrite nth_middle. exact Hs.
  - exact Hmode.
Qed.

(** C6 (amended): a send whose sender exists and is OFFLINE is not deferred
    to a queue.  The demo server does not look at the sender's status: it
    leaves every message_queue as it was, clocks the message at the sender's
    clock plus one, logs it and broadcasts it, with route_path central_server
    on the centralized path and an empty route_path on the P2P path.  In the
    P2P simulator the send returns False, changes no message queue, and has
    appended one block to the sender's ledger. *)
Theorem offline_send_not_queued :
  (forall self data env self' s sender,
     handle_send_message self data env = Ok self' ->
     Demo.sender_id data = Some s ->
     s <> "" ->
     lookup_node s (Server.nodes self) = Some sender ->
     BattlefieldNode.status sender = Demo.OFFLINE ->
     message_queues self' = message_queues self
     /\ exists message,
          Server.messages self' = Server.messages self ++ [message]
          /\ BattlefieldMessage.lamport_clock message
             = BattlefieldNode.lamport_clock sender + 1
          /\ Server.outbox self'
             = Server.outbox self ++ [new_message message (BattlefieldNode.name sender)]
          /\ BattlefieldMessage.route_path message
             = (if centralized self then ["central_server"] else []))
  /\ (forall self s rcv mt c env self' delivered sender,
        P2PNetworkSimulator.send_message self s rcv mt c env = Ok (self', delivered) ->
        P2PNetworkSimulator.nodes self !! s = Some sender ->
        PeerNode.connectivity_mode sender = Net.OFFLINE ->
        delivered = false
        /\ P2PNetworkSimulator.message_queues self'
           = P2PNetworkSimulator.message_queues self
        /\ exists ledger ledger' block,
             P2PNetworkSimulator.ledgers self !! s = Some ledger
             /\ P2PNetworkSimulator.ledgers self' !! s = Some ledger'
             /\ LocalLedger.blocks ledger' = LocalLedger.blocks ledger ++ [block]).
Proof.
  split; [|apply send_message_offline].
  intros self data env self' s sender Hrun Hd Hne Hl Hoff.
  apply handle_send_message_inv in Hrun
    as [[_ Hnone]|(s' & sender' & m & Hd' & _ & Hl' & Hc & _ & Hrp & ->)].
  - rewrite (Hnone s Hd Hne) in Hl. discriminate.
  - rewrite Hd in Hd'. injection Hd' as <-. rewrite Hl in Hl'. injection Hl' as <-.
    split.
    + unfold message_queues. cbn [Server.nodes]. apply queues_update_clock.
    + exists m. split; [reflexivity|]. split; [exact Hc|]. split; [reflexivity|].
      rewrite Hrp. destruct (centralized self); [reflexivity|].
      apply (flood_offline_sender _ _
               (BattlefieldNode.set_lamport_clock
                  (BattlefieldNode.lamport_clock sender + 1) sender)).
      * rewrite lookup_update_node_eq, Hl. reflexivity.
      * exact Hoff.
Qed.

Lemma offline_send_not_queued_witness :
  exists self' message,
    handle_send_message alpha_dropped_p2p (send_from "alpha_1") demo_env = Ok self'
    /\ message_queues self' = message_queues alpha_dropped_p2p
    /\ Server.messages self' = Server.messages alpha_dropped_p2p ++ [message]
    /\ BattlefieldMessage.route_path message = [].
Proof.
  destruct (handle_send_message alpha_dropped_p2p (send_from "alpha_1") demo_env)
    as [self'| |] eqn:Hrun;
    [|vm_compute in Hrun; discriminate|vm_compute in Hrun; discriminate].
  destruct (proj1 offline_send_not_queued alpha_dropped_p2p (send_from "alpha_1")
              demo_env self' "alpha_1"
              (BattlefieldNode.mk "alpha_1" "Alpha Team Lead" "Sergeant"
                 "Alpha Company" (100, 150) Demo.OFFLINE "2025-09-13T14:30:00" ∅ [] 0)
              Hrun ltac:(reflexivity) ltac:(discriminate)
              ltac:(vm_compute; reflexivity) ltac:(reflexivity))
    as (Hq & m & Hm & _ & _ & Hrp).
  exists self', m. auto.
Defined.

(** C6, as stated, fails: alpha_1 is OFFLINE and the server is up; the send
    is routed through the central server, logged and broadcast, and the
    sender's message queue does not grow. *)
Lemma offline_send_is_routed :
  exists self' message sender,
    lookup_node "alpha_1" (Server.nodes alpha_dropped) = Some sender
    /\ BattlefieldNode.status sender = Demo.OFFLINE
    /\ handle_send_message alpha_dropped (send_from "alpha_1") demo_env = Ok self'
    /\ last (Server.messages self') = Some message
    /\ BattlefieldMessage.route_path message = ["central_server"]
    /\ last (Server.outbox self') = Some (new_message message "Alpha Team Lead")
    /\ message_queue_size self' "alpha_1" = Some 0%nat
    /\ ~ offline_queue_grows alpha_dropped self' "alpha_1".
Proof.
  eexists _, _, _. split; [vm_compute; reflexivity|]. split; [reflexivity|].
  split; [vm_compute; reflexivity|].
  split; [reflexivity|]. split; [reflexivity|]. split; [reflexivity|].
  split; [reflexivity|].
  intros (q & Hq & Hq'). vm_compute in Hq, Hq'. congruence.
Qed.

End OfflineSend.

(** * Further properties of the chain functions *)
Module ChainMore.
Import Sha256 Json MilitaryBlockchain ChainSpec ChainProofs.

#[local] Arguments sha256_hex : simpl never.
#[local] Arguments dumps : simpl never.
#[local] Arguments calculate_block_hash : simpl never.
#[local] Arguments String.prefix : simpl never.
#[local] Opaque sha256_hex.

Lemma dict_pop_set_same k v d : dict_pop k (dict_set k v d) = dict_pop k d.
Proof.
  induction d as [|[k' v'] d IH]; simpl.
  - now rewrite String.eqb_refl.
  - destruct (String.eqb k k') eqn:E; simpl; rewrite E; congruence.
Qed.

Lemma dict_pop_set_ne k k' v d :
  k <> k' -> dict_pop k (dict_set k' v d) = dict_set k' v (dict_pop k d).
Proof.
  intros Hne. induction d as [|[k2 v2] d IH]; simpl.
  - destruct (String.eqb k k') eqn:E; [|reflexivity].
    apply String.eqb_eq in E. contradiction.
  - destruct (String.eqb k' k2) eqn:E2; simpl.
    + apply String.eqb_eq in E2. subst k2.
      destruct (String.eqb k k') eqn:E; simpl.
      * apply String.eqb_eq in E. contradiction.
      * now rewrite String.eqb_refl.
    + destruct (String.eqb k k2) eqn:E; simpl; [reflexivity|].
      rewrite E2. congruence.
Qed.

(** X1: a block mined by mine_block and completed the way its callers do
    (block_hash and nonce stored in the mined dict) passes
    validate_block_hash, provided the block had no block_hash key before. *)
Theorem mined_block_validates fuel block difficulty block_hash nonce mined :
  mine_block fuel block difficulty = Some (block_hash, nonce, mined) ->
  dict_get "block_hash" block = None ->
  validate_block_hash
    (dict_set "nonce" (JInt nonce) (dict_set "block_hash" (JStr block_hash) mined))
  = true.
Proof.
  intros Hmine Hfresh.
  apply mine_loop_spec in Hmine as (_ & -> & -> & _).
  apply validate_block_hash_spec. unfold hash_valid.
  rewrite get_set_ne by discriminate. rewrite get_set_eq.
  rewrite dict_pop_set_ne by discriminate.
  rewrite dict_pop_set_fresh by (rewrite dict_get_set_ne by discriminate; exact Hfresh).
  now rewrite dict_set_set.
Qed.

Lemma mined_block_validates_witness :
  validate_block_hash
    (dict_set "nonce" (JInt 3)
       (dict_set "block_hash"
          (JStr "0635036b063506d466059de8f4ab50acaaadf1e3606800f1ab86031971622e22")
          (dict_set "nonce" (JInt 3) report_block)))
  = true.
Proof.
  apply (mined_block_validates 4 report_block 1).
  - vm_compute. reflexivity.
  - reflexivity.
Defined.

(** X2: validate_block_hash accepts no other stored hash: replacing the
    block_hash of an accepted block by a different str makes it fail. *)
Theorem altered_hash_rejected block h' :
  validate_block_hash block = true ->
  get "block_hash" block <> JStr h' ->
  validate_block_hash (dict_set "block_hash" (JStr h') block) = false.
Proof.
  intros Hok Hne. apply validate_block_hash_spec in Hok. unfold hash_valid in Hok.
  destruct (validate_block_hash (dict_set "block_hash" (JStr h') block)) eqn:Hv;
    [|reflexivity].
  apply validate_block_hash_spec in Hv. unfold hash_valid in Hv.
  rewrite get_set_eq, dict_pop_set_same in Hv. congruence.
Qed.

Lemma altered_hash_rejected_witness :
  validate_block_hash (dict_set "block_hash" (JStr "00ff") odd_first) = false.
Proof.
  apply altered_hash_rejected.
  - vm_compute. reflexivity.
  - vm_compute. discriminate.
Defined.

Lemma prefix_empty s : String.prefix "" s = true.
Proof. destruct s; reflexivity. Qed.

(** X3: with a difficulty of zero or less the target is the empty str, so
    mine_block returns at once with nonce 0, whatever the hash. *)
Theorem mine_block_no_difficulty fuel block difficulty :
  difficulty <= 0 ->
  mine_block (S fuel) block difficulty
  = Some (calculate_block_hash (dict_set "nonce" (JInt 0) block), 0,
          dict_set "nonce" (JInt 0) block).
Proof.
  intros Hd. unfold mine_block, zeros.
  replace (Z.to_nat difficulty) with 0%nat by lia.
  cbn [mine_loop repeat string_of_list_ascii].
  now rewrite prefix_empty.
Qed.

Lemma mine_block_no_difficulty_witness :
  mine_block 1 report_block (-2)
  = Some (calculate_block_hash (dict_set "nonce" (JInt 0) report_block), 0,
          dict_set "nonce" (JInt 0) report_block).
Proof. apply mine_block_no_difficulty. lia. Defined.

(** ** Chains and sub-chains *)

Lemma validate_block_chain_coded blocks :
  validate_block_chain blocks = true
  <-> adjacent hash_linked blocks /\ Forall hash_valid blocks.
Proof.
  destruct blocks as [|first rest].
  - simpl. split; auto.
  - cbn [validate_block_chain].
    destruct (validate_block_hash first) eqn:Hv; simpl.
    + rewrite validate_links_spec. apply validate_block_hash_spec in Hv.
      rewrite Forall_cons. tauto.
    + split; [discriminate|]. intros [_ Hf]. apply Forall_cons in Hf as [Hc _].
      apply validate_block_hash_spec in Hc. congruence.
Qed.

Lemma adjacent_app (P : dict -> dict -> Prop) l1 l2 :
  adjacent P (l1 ++ l2)
  <-> adjacent P l1 /\ adjacent P l2
      /\ match last l1, head l2 with
         | Some a, Some b => P a b
         | _, _ => True
         end.
Proof.
  induction l1 as [|a l1 IH].
  - simpl. tauto.
  - destruct l1 as [|a' l1].
    + destruct l2 as [|b l2]; simpl; tauto.
    + change ((a :: a' :: l1) ++ l2) with (a :: (a' :: l1) ++ l2).
      change (adjacent P (a :: (a' :: l1) ++ l2))
        with (P a a' /\ adjacent P ((a' :: l1) ++ l2)).
      rewrite IH.
      change (adjacent P (a :: a' :: l1)) with (P a a' /\ adjacent P (a' :: l1)).
      change (last (a :: a' :: l1)) with (last (a' :: l1)). tauto.
Qed.

(** X4: a concatenation of two chains is accepted by validate_block_chain
    exactly when both parts are and the first block of the second part points
    at the last block of the first; so every contiguous part of an accepted
    chain is accepted. *)
Theorem validate_block_chain_app l1 l2 :
  validate_block_chain (l1 ++ l2) = true
  <-> validate_block_chain l1 = true
      /\ validate_block_chain l2 = true
      /\ match last l1, head l2 with
         | Some prev, Some cur => hash_linked prev cur
         | _, _ => True
         end.
Proof.
  rewrite !validate_block_chain_coded, adjacent_app, Forall_app. tauto.
Qed.

Lemma next_level_app_even l1 l2 :
  Nat.even (length l1) = true ->
  next_level (l1 ++ l2) = next_level l1 ++ next_level l2.
Proof.
  revert l1. fix IH 1. intros [|a [|b l1]] Hev.
  - reflexivity.
  - discriminate.
  - change (next_level ((a :: b :: l1) ++ l2))
      with (sha256_hex (a +:+ b) :: next_level (l1 ++ l2)).
    rewrite IH by exact Hev. reflexivity.
Qed.

Lemma merkle_loop_step leaves :
  (2 <= length leaves)%nat -> merkle_loop leaves = merkle_loop (next_level leaves).
Proof.
  destruct leaves as [|a [|b rest]]; simpl; try lia.
  intros _. now simp merkle_loop.
Qed.

(** X5: an odd number (three or more) of transactions has the same Merkle
    root as the same list with its last transaction repeated: the tree does
    not tell the two lists apart. *)
Theorem merkle_root_duplicate_last transactions tx :
  transactions <> [] ->
  Nat.even (length transactions) = true ->
  create_merkle_tree (transactions ++ [tx])
  = create_merkle_tree (transactions ++ [tx; tx]).
Proof.
  intros Hne Hev.
  assert (Hlen : (2 <= length transactions)%nat).
  { destruct transactions as [|a [|b l]]; simpl in *; try congruence; lia. }
  unfold create_merkle_tree.
  destruct (transactions ++ [tx]) as [|t1 l1] eqn:E1;
    [destruct transactions; discriminate|].
  destruct (transactions ++ [tx; tx]) as [|t2 l2] eqn:E2;
    [destruct transactions; discriminate|].
  rewrite <- E1, <- E2. clear E1 E2.
  rewrite !map_app.
  set (L := map (fun tx => sha256_hex (dumps (JDict tx))) transactions).
  assert (HL : Nat.even (length L) = true) by (unfold L; now rewrite length_map).
  assert (HL2 : (2 <= length L)%nat) by (unfold L; now rewrite length_map).
  rewrite (merkle_loop_step (L ++ _)) by (rewrite length_app; simpl; lia).
  rewrite (merkle_loop_step (L ++ map _ [tx; tx]))
    by (rewrite length_app; simpl; lia).
  rewrite !next_level_app_even by exact HL. reflexivity.
Qed.

Lemma merkle_root_duplicate_last_witness :
  create_merkle_tree ([tx_a; tx_b] ++ [tx_a])
  = create_merkle_tree ([tx_a; tx_b] ++ [tx_a; tx_a]).
Proof. apply merkle_root_duplicate_last; [discriminate|reflexivity]. Defined.

(** ** The order of keys *)

Lemma string_compare_le_trans s1 s2 s3 :
  String.compare s1 s2 <> Gt -> String.compare s2 s3 <> Gt ->
  String.compare s1 s3 <> Gt.
Proof.
  revert s2 s3. induction s1 as [|a s1 IH]; intros [|b s2] [|c s3]; simpl;
    try congruence.
  unfold Ascii.compare.
  destruct (N.compare_spec (N_of_ascii a) (N_of_ascii b)) as [Hab|Hab|Hab];
    destruct (N.compare_spec (N_of_ascii b) (N_of_ascii c)) as [Hbc|Hbc|Hbc];
    destruct (N.compare_spec (N_of_ascii a) (N_of_ascii c)) as [Hac|Hac|Hac];
    try congruence; try lia.
  apply IH.
Qed.

Lemma string_leb_trans s1 s2 s3 :
  String.leb s1 s2 = true -> String.leb s2 s3 = true -> String.leb s1 s3 = true.
Proof.
  unfold String.leb. intros H12 H23.
  pose proof (string_compare_le_trans s1 s2 s3) as H.
  destruct (String.compare s1 s2); destruct (String.compare s2 s3);
    destruct (String.compare s1 s3); try discriminate; try reflexivity;
    exfalso; apply H; congruence.
Qed.

Section SortItems.
Context {A : Type}.

(** The order sorted() puts the items in: by key. *)
Definition key_le (x y : string * A) : Prop := String.leb x.1 y.1 = true.

#[local] Instance key_le_trans : Transitive key_le.
Proof. intros x y z. apply string_leb_trans. Qed.

Lemma insert_item_perm (x : string * A) l : insert_item x l ≡ₚ x :: l.
Proof.
  induction l as [|y l IH]; simpl; [reflexivity|].
  destruct (String.leb x.1 y.1); [reflexivity|].
  rewrite IH. apply perm_swap.
Qed.

Lemma sort_items_perm (l : list (string * A)) : sort_items l ≡ₚ l.
Proof.
  induction l as [|x l IH]; simpl; [reflexivity|].
  unfold sort_items in *. simpl. now rewrite insert_item_perm, IH.
Qed.

Lemma insert_item_sorted (x : string * A) l :
  Sorted key_le l -> Sorted key_le (insert_item x l).
Proof.
  induction 1 as [|y l Hs IH Hhd]; simpl; [repeat constructor|].
  destruct (String.leb x.1 y.1) eqn:E.
  - constructor; [constructor; assumption|]. constructor. exact E.
  - constructor; [exact IH|].
    assert (Hyx : key_le y x).
    { destruct (String.leb_total x.1 y.1) as [H|H]; [congruence|exact H]. }
    destruct l as [|z l]; simpl.
    + constructor. exact Hyx.
    + destruct (String.leb x.1 z.1); constructor; [exact Hyx|].
      now inversion Hhd.
Qed.

Lemma sort_items_sorted (l : list (string * A)) : Sorted key_le (sort_items l).
Proof.
  induction l as [|x l IH]; [constructor|].
  unfold sort_items in *. simpl. now apply insert_item_sorted.
Qed.

Lemma NoDup_keys_unique (l : list (string * A)) k v v' :
  NoDup l.*1 -> (k, v) ∈ l -> (k, v') ∈ l -> v = v'.
Proof.
  induction l as [|[k0 v0] l IH]; intros Hnd Hv Hv'; [inversion Hv|].
  apply NoDup_cons in Hnd as [Hk0 Hnd].
  apply elem_of_cons in Hv as [Hv|Hv]; apply elem_of_cons in Hv' as [Hv'|Hv'].
  - congruence.
  - exfalso. apply Hk0. injection Hv as -> ->.
    apply list_elem_of_fmap. exists (k0, v'). auto.
  - exfalso. apply Hk0. injection Hv' as -> ->.
    apply list_elem_of_fmap. exists (k0, v). auto.
  - auto.
Qed.

(** sorted() gives one result for all orders of items with distinct keys. *)
Lemma sort_items_perm_eq (l l' : list (string * A)) :
  NoDup l.*1 -> l ≡ₚ l' -> sort_items l = sort_items l'.
Proof.
  intros Hnd Hperm.
  apply (Sorted_unique_strong key_le);
    [|apply sort_items_sorted|apply sort_items_sorted
     |now rewrite !sort_items_perm].
  intros x y Hx Hy Hxy Hyx.
  rewrite sort_items_perm in Hx. rewrite sort_items_perm, <- Hperm in Hy.
  assert (Hk : x.1 = y.1) by (apply String.leb_antisym; assumption).
  destruct x as [k v], y as [k' v']. simpl in Hk. subst k'.
  f_equal. eapply NoDup_keys_unique; eauto.
Qed.

End SortItems.

Lemma dumps_dict d :
  dumps (JDict d)
  = "{" +:+ join ", "
              (map dumps_item
                 (sort_items (map (fun kv => match kv with (k, x) => (k, dumps x) end) d)))
      +:+ "}".
Proof. reflexivity. Qed.

(** X6: calculate_block_hash does not depend on the order in which the keys
    of the block were inserted (json.dumps sorts them). *)
Theorem calculate_block_hash_key_order block block' :
  block ≡ₚ block' ->
  NoDup block.*1 ->
  calculate_block_hash block = calculate_block_hash block'.
Proof.
  intros Hperm Hnd. unfold calculate_block_hash. f_equal.
  rewrite !dumps_dict. do 4 f_equal.
  apply sort_items_perm_eq.
  - rewrite <- list_fmap_compose.
    erewrite list_fmap_ext; [exact Hnd|]. intros i [k v] _. reflexivity.
  - now apply Permutation_map.
Qed.

Lemma calculate_block_hash_key_order_witness :
  calculate_block_hash [("nonce", JInt 0); ("block_number", JInt 1)]
  = calculate_block_hash [("block_number", JInt 1); ("nonce", JInt 0)].
Proof.
  apply calculate_block_hash_key_order.
  - apply perm_swap.
  - apply NoDup_cons. split; [|apply NoDup_singleton].
    intros Hin. apply list_elem_of_singleton in Hin. discriminate.
Defined.

End ChainMore.

(** * Further properties of the local ledger *)
Module LedgerMore.
Import Sha256 Json MilitaryBlockchain ChainSpec ChainProofs ChainMore.
Import Net LedgerSpec LedgerProofs.

#[local] Arguments sha256_hex : simpl never.
#[local] Arguments dumps : simpl never.
#[local] Arguments calculate_block_hash : simpl never.
#[local] Arguments String.prefix : simpl never.
#[local] Opaque sha256_hex dumps calculate_block_hash.

(** The block add_message appends stores its own hash, which has two
    leading zeros, and points at the ledger's last_block_hash. *)
Lemma add_message_appended fuel self message now self' block :
  LocalLedger.add_message fuel self message now = Some (self', block) ->
  LocalLedger.blocks self' = LocalLedger.blocks self ++ [block]
  /\ get "block_hash" block = JStr (LocalLedger.last_block_hash self')
  /\ get "previous_hash" block = JStr (LocalLedger.last_block_hash self)
  /\ hash_valid block
  /\ leading_zeros 2 (LocalLedger.last_block_hash self').
Proof.
  intros H. apply add_message_inv in H as (block_hash & nonce & Hmine & -> & ->).
  apply mine_loop_spec in Hmine as (_ & _ & Hh & Hpre & _).
  split; [reflexivity|]. split; [reflexivity|]. split; [reflexivity|].
  split; [|apply (startswith_zeros 2); exact Hpre].
  unfold hash_valid. rewrite Hh. reflexivity.
Qed.

Lemma reachable_ledger_sound node_id self :
  reachable node_id self ->
  last_hash_ok self
  /\ validate_block_chain (LocalLedger.blocks self) = true
  /\ Forall (fun block => exists h, get "block_hash" block = JStr h
                                    /\ leading_zeros 2 h)
            (LocalLedger.blocks self).
Proof.
  induction 1 as [|fuel self message now self' block Hreach IH Hadd].
  - split; [reflexivity|]. split; [reflexivity|constructor].
  - destruct IH as (Hlast & Hvalid & Hpow).
    apply add_message_appended in Hadd as (Hb & Hh & Hp & Hv & Hz).
    split; [|split].
    + unfold last_hash_ok. rewrite Hb, last_snoc. exact Hh.
    + rewrite Hb. apply validate_block_chain_coded.
      apply validate_block_chain_coded in Hvalid as [Hadj Hall].
      split.
      * apply adjacent_app. split; [exact Hadj|]. split; [exact I|].
        unfold last_hash_ok in Hlast.
        destruct (last (LocalLedger.blocks self)) as [prev|]; [|exact I].
        simpl. unfold hash_linked. rewrite Hp, Hlast. apply py_eq_str_r. reflexivity.
      * apply Forall_app. split; [exact Hall|]. constructor; [exact Hv|constructor].
    + rewrite Hb. apply Forall_app. split; [exact Hpow|].
      constructor; [eauto|constructor].
Qed.

(** X7: every ledger reached from a fresh one by add_message calls passes
    validate_chain. *)
Theorem reachable_ledger_validates node_id self :
  reachable node_id self -> LocalLedger.validate_chain self = true.
Proof. intros H. now apply reachable_ledger_sound in H as (_ & Hv & _). Qed.

Lemma reachable_ledger_validates_witness : LocalLedger.validate_chain ledger2 = true.
Proof.
  apply (reachable_ledger_validates "alpha_1").
  apply (reachable_add _ 1 ledger1 message2 "1700000214.0" ledger2 block2).
  - apply (reachable_add _ 1 ledger0 message1 "1700000868.0" ledger1 block1).
    + apply reachable_init.
    + vm_compute. reflexivity.
  - vm_compute. reflexivity.
Defined.

(** X8: in every ledger reached from a fresh one by add_message calls, each
    block stores a hash that starts with two characters 0 (the difficulty
    add_message mines at). *)
Theorem reachable_ledger_proof_of_work node_id self :
  reachable node_id self ->
  forall block, block ∈ LocalLedger.blocks self ->
    exists h, get "block_hash" block = JStr h /\ leading_zeros 2 h.
Proof.
  intros H. apply reachable_ledger_sound in H as (_ & _ & Hpow).
  now apply Forall_forall.
Qed.

Lemma reachable_ledger_proof_of_work_witness :
  exists h, get "block_hash" block2 = JStr h /\ leading_zeros 2 h.
Proof.
  apply (reachable_ledger_proof_of_work "alpha_1" ledger2).
  - apply (reachable_add _ 1 ledger1 message2 "1700000214.0" ledger2 block2).
    + apply (reachable_add _ 1 ledger0 message1 "1700000868.0" ledger1 block1).
      * apply reachable_init.
      * vm_compute. reflexivity.
    + vm_compute. reflexivity.
  - right. left.
Defined.

Lemma py_eq_str_l s b : py_eq (JStr s) b = true <-> b = JStr s.
Proof.
  destruct b; simpl; split; try discriminate; try congruence.
  - intros H. apply String.eqb_eq in H. congruence.
  - intros [= ->]. apply String.eqb_refl.
Qed.

(** X9: add_message checks nothing of the ledger it extends.  The extended
    chain passes validate_chain exactly when the chain before did and the
    ledger's last_block_hash was the block_hash of its last block. *)
Theorem add_message_validates_iff fuel self message now self' block :
  LocalLedger.add_message fuel self message now = Some (self', block) ->
  LocalLedger.validate_chain self' = true
  <-> LocalLedger.validate_chain self = true
      /\ match last (LocalLedger.blocks self) with
         | Some prev =>
             get "block_hash" prev = JStr (LocalLedger.last_block_hash self)
         | None => True
         end.
Proof.
  intros Hadd. unfold LocalLedger.validate_chain.
  apply add_message_appended in Hadd as (Hb & Hh & Hp & Hv & Hz).
  rewrite Hb, !validate_block_chain_coded, adjacent_app, Forall_app.
  assert (Hlink : match last (LocalLedger.blocks self), head [block] with
                  | Some a, Some b => hash_linked a b
                  | _, _ => True
                  end
                  <-> match last (LocalLedger.blocks self) with
                      | Some prev =>
                          get "block_hash" prev
                          = JStr (LocalLedger.last_block_hash self)
                      | None => True
                      end).
  { destruct (last (LocalLedger.blocks self)) as [prev|]; [|reflexivity].
    simpl. unfold hash_linked. rewrite Hp. apply py_eq_str_l. }
  rewrite Hlink. split.
  - intros [(Hadj & _ & Hl) [Hall _]]. auto.
  - intros [[Hadj Hall] Hl]. split; [split; [exact Hadj|split; [exact I|exact Hl]]|].
    split; [exact Hall|]. constructor; [exact Hv|constructor].
Qed.

Lemma add_message_validates_iff_witness :
  LocalLedger.add_message 1 ledger1 message2 "1700000214.0" = Some (ledger2, block2)
  /\ (LocalLedger.validate_chain ledger2 = true
      <-> LocalLedger.validate_chain ledger1 = true
          /\ match last (LocalLedger.blocks ledger1) with
             | Some prev =>
                 get "block_hash" prev = JStr (LocalLedger.last_block_hash ledger1)
             | None => True
             end).
Proof.
  split; [vm_compute; reflexivity|].
  apply (add_message_validates_iff 1 ledger1 message2 "1700000214.0" ledger2 block2).
  vm_compute. reflexivity.
Defined.

End LedgerMore.

(** * Further properties of the P2P simulator *)
Module NetMore.
Import Json Net NetSpec NetProofs.
Import P2PNetworkSimulator.

#[local] Set Warnings "-clear-no-such-hyp".

(** [node_order] lists the keys of self.nodes, each once: the two fields
    stand for one dict. *)
Definition keys_in_order (self : P2PNetworkSimulator.t) : Prop :=
  NoDup (node_order self)
  /\ forall k, k ∈ node_order self <-> k ∈ dom (nodes self).

Lemma if_bool_decide_ext {A} (P Q : Prop) `{Decision P, Decision Q} (a b : A) :
  (P <-> Q) ->
  (if bool_decide P then a else b) = (if bool_decide Q then a else b).
Proof. intros H1. now rewrite (bool_decide_ext P Q H1). Qed.

(** ** Delivery through the server *)

(** The loop of the broadcast branch over distinct node ids. *)
Lemma broadcast_loop sender r keys q :
  NoDup keys ->
  (forall k, k ∈ keys -> is_Some (q !! k)) ->
  exists q',
    for_each (fun q node_id =>
                if negb (String.eqb node_id sender)
                then queue_append node_id r q else Ok q) keys q = Ok q'
    /\ forall n,
         q' !! n = if bool_decide (n ∈ keys /\ n <> sender)
                   then (fun l => l ++ [r]) <$> q !! n
                   else q !! n.
Proof.
  intros Hnd. revert q. induction Hnd as [|k keys Hk Hnd IH]; intros q Hq.
  - exists q. split; [reflexivity|]. intros n.
    rewrite bool_decide_eq_false_2; [reflexivity|]. intros [Hin _]. inversion Hin.
  - cbn [for_each].
    destruct (String.eqb k sender) eqn:Hks; cbn [negb].
    + apply String.eqb_eq in Hks. subst k.
      destruct (IH q) as (q' & Hrun & Hq'); [intros k' Hk'; apply Hq; now right|].
      exists q'. split; [exact Hrun|]. intros n. rewrite Hq'.
      apply if_bool_decide_ext. split.
      * intros [Hin Hne]. split; [now right|exact Hne].
      * intros [Hin Hne]. split; [|exact Hne].
        apply elem_of_cons in Hin as [->|Hin]; [contradiction|exact Hin].
    + apply String.eqb_neq in Hks.
      destruct (Hq k) as [l Hl]; [left|].
      unfold queue_append at 1. rewrite Hl.
      destruct (IH (<[k := l ++ [r]]> q)) as (q' & Hrun & Hq').
      { intros k' Hk'. rewrite lookup_insert_is_Some. right.
        split; [intros ->; contradiction|]. apply Hq. now right. }
      exists q'. split; [exact Hrun|]. intros n. rewrite Hq'.
      destruct (decide (n = k)) as [->|Hnk].
      * rewrite lookup_insert_eq, Hl.
        rewrite bool_decide_eq_false_2 by (intros [Hin _]; contradiction).
        rewrite bool_decide_eq_true_2 by (split; [left|exact Hks]). reflexivity.
      * rewrite lookup_insert_ne by congruence.
        apply if_bool_decide_ext. split.
        -- intros [Hin Hne]. split; [now right|exact Hne].
        -- intros [Hin Hne]. split; [|exact Hne].
           apply elem_of_cons in Hin as [->|Hin]; [contradiction|exact Hin].
Qed.

(** The broadcast branch appends and then looks the sender up for its
    print: it returns when the sender is registered and raises KeyError
    when it is not. *)
Lemma server_broadcast_total self r :
  keys_in_order self ->
  dom (nodes self) ⊆ dom (message_queues self) ->
  exists q,
    server_broadcast self r
    = (if bool_decide (P2PMessage.sender_id (deref self r) ∈ dom (nodes self))
       then Ok (set_message_queues q self, true)
       else Raise (KeyError (P2PMessage.sender_id (deref self r))))
    /\ forall n,
         q !! n = if bool_decide (n ∈ dom (nodes self)
                                  /\ n <> P2PMessage.sender_id (deref self r))
                  then (fun l => l ++ [r]) <$> message_queues self !! n
                  else message_queues self !! n.
Proof.
  intros [Hnd Hkeys] Hdom. unfold server_broadcast.
  destruct (broadcast_loop (P2PMessage.sender_id (deref self r)) r
              (node_order self) (message_queues self))
    as (q & Hrun & Hq).
  - exact Hnd.
  - intros k Hk. apply Hkeys in Hk. apply elem_of_dom. set_solver.
  - exists q. rewrite Hrun. cbn [bind]. split.
    + case_bool_decide as Hs.
      * apply elem_of_dom in Hs as [sender ->]. reflexivity.
      * apply not_elem_of_dom in Hs. rewrite Hs. reflexivity.
    + intros n. rewrite Hq. apply if_bool_decide_ext. now rewrite Hkeys.
Qed.

(** X10: a broadcast through the server (no receiver), on a simulator in
    which every node has a queue.  When the sender is a registered node the
    call returns True and appends the message exactly once to the queue of
    every registered node other than the sender, on line or not; no other
    queue changes.  When the sender is not registered the call raises
    KeyError, from the print that closes the branch. *)
Theorem deliver_via_server_broadcast self r :
  P2PMessage.receiver_id (deref self r) = None ->
  keys_in_order self ->
  dom (nodes self) ⊆ dom (message_queues self) ->
  (P2PMessage.sender_id (deref self r) ∈ dom (nodes self) ->
   exists self',
     deliver_via_server self r = Ok (self', true)
     /\ forall n,
          (n ∈ dom (nodes self) /\ n <> P2PMessage.sender_id (deref self r) ->
           enqueued self self' r n)
          /\ (~ (n ∈ dom (nodes self)
                 /\ n <> P2PMessage.sender_id (deref self r)) ->
              untouched self self' n))
  /\ (P2PMessage.sender_id (deref self r) ∉ dom (nodes self) ->
      deliver_via_server self r
      = Raise (KeyError (P2PMessage.sender_id (deref self r)))).
Proof.
  intros Hrcv Hord Hdom. unfold deliver_via_server. rewrite Hrcv.
  destruct (server_broadcast_total self r Hord Hdom) as (q & Hrun & Hq).
  rewrite Hrun. split.
  - intros Hs. rewrite bool_decide_eq_true_2 by exact Hs.
    exists (set_message_queues q self). split; [reflexivity|].
    intros n. unfold enqueued, untouched. cbn [message_queues set_message_queues].
    rewrite Hq. split.
    + intros Hn. rewrite bool_decide_eq_true_2 by exact Hn.
      destruct Hn as [Hin _].
      assert (His : is_Some (message_queues self !! n))
        by (apply elem_of_dom; set_solver).
      destruct His as [l Hl]. exists l. rewrite Hl. auto.
    + intros Hn. now rewrite bool_decide_eq_false_2 by exact Hn.
  - intros Hs. now rewrite bool_decide_eq_false_2 by exact Hs.
Qed.

(** The mesh with a broadcast message at address 0. *)
Definition mesh_broadcast : P2PNetworkSimulator.t :=
  set_objects
    [P2PMessage.mk "u-0" "alpha_1" None STATUS "clear" "1700000000.5" 1
       [("alpha_1", 1)] "{}" "ab" 0 5]
    mesh.

Lemma mesh_broadcast_keys_in_order : keys_in_order mesh_broadcast.
Proof.
  split.
  - apply (bool_decide_unpack _). vm_compute. exact I.
  - intros k. change (node_order mesh_broadcast)
      with ["alpha_1"; "bravo_1"; "charlie_1"; "delta_1"; "echo_1"].
    replace (dom (nodes mesh_broadcast))
      with ({["alpha_1"; "bravo_1"; "charlie_1"; "delta_1"; "echo_1"]}
            : gset string)
      by (apply (bool_decide_unpack _); vm_compute; exact I).
    set_solver.
Qed.

Lemma deliver_via_server_broadcast_witness :
  exists self',
    deliver_via_server mesh_broadcast 0 = Ok (self', true)
    /\ message_queues self' !! "charlie_1" = Some [0%nat]
    /\ message_queues self' !! "alpha_1" = Some [].
Proof.
  destruct (proj1 (deliver_via_server_broadcast mesh_broadcast 0
                     ltac:(reflexivity)
                     mesh_broadcast_keys_in_order
                     ltac:(vm_compute; set_solver))
              ltac:(vm_compute; set_solver))
    as (self' & Hrun & Hq).
  exists self'. split; [exact Hrun|]. split.
  - destruct (proj1 (Hq "charlie_1")) as (l & Hl & Hl').
    + split; [vm_compute; set_solver|discriminate].
    + vm_compute in Hl. injection Hl as <-. exact Hl'.
  - rewrite (proj2 (Hq "alpha_1")); [reflexivity|].
    intros [_ Hne]. apply Hne. reflexivity.
Defined.

(** ** Broadcast over the mesh *)

Definition online_in (nodes : gmap string PeerNode.t) (n : string) : Prop :=
  exists peer, nodes !! n = Some peer /\ PeerNode.is_online peer = true.

Lemma p2p_broadcast_loop nodes r peers q h d q' h' d' :
  NoDup peers ->
  for_each (p2p_step nodes None r) peers (q, h, d) = Ok (q', h', d') ->
  h' = h
  /\ (d' = true <-> d = true \/ exists n, n ∈ peers /\ online_in nodes n)
  /\ (forall n, n ∈ peers -> online_in nodes n ->
        exists l, q !! n = Some l /\ q' !! n = Some (l ++ [r]))
  /\ (forall n, ~ (n ∈ peers /\ online_in nodes n) -> q' !! n = q !! n).
Proof.
  intros Hnd. revert q h d.
  induction Hnd as [|p peers Hp Hnd IH]; intros q h d Hrun.
  - cbn [for_each] in Hrun. injection Hrun as <- <- <-.
    split; [reflexivity|]. split; [|split].
    + split; [auto|]. intros [Hd|(n & Hin & _)]; [exact Hd|inversion Hin].
    + intros n Hin. inversion Hin.
    + reflexivity.
  - cbn [for_each] in Hrun.
    destruct (p2p_step nodes None r (q, h, d) p) as [[[q1 h1] d1]| |] eqn:Hstep;
      try discriminate.
    apply IH in Hrun as (-> & Hd & Hin & Hout). clear IH.
    unfold p2p_step in Hstep.
    destruct (nodes !! p) as [pn|] eqn:Hpn; [|discriminate].
    destruct (PeerNode.is_online pn) eqn:Hon; cbn [negb] in Hstep.
    + (* an on-line peer receives the message *)
      rewrite decide_False in Hstep by discriminate.
      rewrite decide_True in Hstep by reflexivity.
      unfold queue_append in Hstep.
      destruct (q !! p) as [l|] eqn:Hl; [|discriminate].
      simpl in Hstep. injection Hstep as <- <- <-.
      split; [reflexivity|]. split; [|split].
      * split; [intros _; right; exists p; split; [left|exists pn; auto]|].
        intros _. apply Hd. now left.
      * intros n Hn Hnon. apply elem_of_cons in Hn as [->|Hn].
        -- exists l. split; [exact Hl|].
           rewrite Hout by (intros [Hc _]; contradiction).
           apply lookup_insert_eq.
        -- destruct (Hin n Hn Hnon) as (l' & Hl' & Hq').
           rewrite lookup_insert_ne in Hl' by (intros ->; contradiction).
           eauto.
      * intros n Hn.
        assert (Hne : n <> p).
        { intros ->. apply Hn. split; [left|exists pn; auto]. }
        rewrite Hout by (intros [Hc Hc']; apply Hn; split; [now right|exact Hc']).
        apply lookup_insert_ne. congruence.
    + injection Hstep as <- <- <-.
      split; [reflexivity|]. split; [|split].
      * rewrite Hd. split.
        -- intros [Hd'|(n & Hn & Hnon)]; [now left|].
           right. exists n. split; [now right|exact Hnon].
        -- intros [Hd'|(n & Hn & Hnon)]; [now left|].
           right. exists n. split; [|exact Hnon].
           apply elem_of_cons in Hn as [->|Hn]; [|exact Hn].
           destruct Hnon as (pn' & Hpn' & Hon'). congruence.
      * intros n Hn Hnon. apply elem_of_cons in Hn as [->|Hn]; [|auto].
        destruct Hnon as (pn' & Hpn' & Hon'). congruence.
      * intros n Hn. apply Hout. intros [Hc Hc']. apply Hn. split; [now right|exact Hc'].
Qed.

Lemma cond_dec (nodes : gmap string PeerNode.t) (peers : gset string) n :
  (n ∈ peers /\ online_in nodes n) \/ ~ (n ∈ peers /\ online_in nodes n).
Proof.
  destruct (decide (n ∈ peers)) as [Hin|Hin]; [|right; tauto].
  destruct (nodes !! n) as [pn|] eqn:Hpn.
  - destruct (PeerNode.is_online pn) eqn:Hon.
    + left. split; [exact Hin|]. exists pn. auto.
    + right. intros [_ (pn' & Hpn' & Hon')]. congruence.
  - right. intros [_ (pn' & Hpn' & _)]. congruence.
Qed.

Lemma set_hop_count_same m : P2PMessage.set_hop_count (P2PMessage.hop_count m) m = m.
Proof. now destruct m. Qed.

Lemma insert_deref_same (objs : list P2PMessage.t) r :
  <[r := nth r objs null_message]> objs = objs.
Proof.
  revert r. induction objs as [|m objs IH]; intros [|r]; simpl; try reflexivity.
  now rewrite IH.
Qed.

(** X11: a broadcast over the mesh (no receiver, hop budget left) that
    returns appends the message to the queue of exactly the direct neighbours
    of the sender that are on line, leaves the message itself unchanged, and
    returns True exactly when there is such a neighbour. *)
Theorem deliver_via_p2p_broadcast self r self' delivered :
  deliver_via_p2p self r = Ok (self', delivered) ->
  P2PMessage.receiver_id (deref self r) = None ->
  P2PMessage.hop_count (deref self r) < P2PMessage.max_hops (deref self r) ->
  (forall n,
     (enqueued self self' r n
      <-> n ∈ neighbours self (P2PMessage.sender_id (deref self r)) /\ online self n)
     /\ (~ (n ∈ neighbours self (P2PMessage.sender_id (deref self r))
            /\ online self n)
         -> untouched self self' n))
  /\ (delivered = true
      <-> exists n, n ∈ neighbours self (P2PMessage.sender_id (deref self r))
                    /\ online self n)
  /\ objects self' = objects self.
Proof.
  intros Hrun Hrcv Hlt.
  apply deliver_via_p2p_inv in Hrun
    as [(Hge & _)|(_ & q & h & Hloop & ->)]; [lia|].
  rewrite Hrcv in Hloop.
  apply p2p_broadcast_loop in Hloop as (-> & Hd & Hin & Hout);
    [|apply NoDup_elements].
  setoid_rewrite elem_of_elements in Hd.
  setoid_rewrite elem_of_elements in Hin.
  setoid_rewrite elem_of_elements in Hout.
  split; [|split].
  - intros n. unfold enqueued, untouched.
    cbn [message_queues set_objects set_message_queues].
    split; [split|].
    + intros (l & Hl & Hq).
      destruct (cond_dec (nodes self)
                  (neighbours self (P2PMessage.sender_id (deref self r))) n)
        as [Hyes|Hno]; [exact Hyes|].
      rewrite (Hout n Hno), Hl in Hq. injection Hq as Heq.
      apply (f_equal length) in Heq. rewrite length_app in Heq. simpl in Heq. lia.
    + intros [Hn Hon]. exact (Hin n Hn Hon).
    + intros Hno. exact (Hout n Hno).
  - rewrite Hd. split.
    + intros [Hf|Hex]; [discriminate|exact Hex].
    + intros Hex. now right.
  - cbn [objects set_objects set_message_queues].
    rewrite set_hop_count_same. apply insert_deref_same.
Qed.

Lemma deliver_via_p2p_broadcast_witness :
  exists self' delivered,
    deliver_via_p2p mesh_broadcast 0 = Ok (self', delivered)
    /\ enqueued mesh_broadcast self' 0 "delta_1"
    /\ untouched mesh_broadcast self' "charlie_1"
    /\ objects self' = objects mesh_broadcast.
Proof.
  destruct (deliver_via_p2p mesh_broadcast 0) as [[self' delivered]| |] eqn:Hrun;
    [|vm_compute in Hrun; discriminate|vm_compute in Hrun; discriminate].
  exists self', delivered. split; [reflexivity|].
  destruct (deliver_via_p2p_broadcast mesh_broadcast 0 self' delivered Hrun
              ltac:(reflexivity) ltac:(vm_compute; reflexivity))
    as (Hq & _ & Hobj).
  split; [|split; [|exact Hobj]].
  - apply (Hq "delta_1"). split; [vm_compute; set_solver|].
    eexists. split; vm_compute; reflexivity.
  - apply (Hq "charlie_1"). intros [_ (pn & Hpn & Hon)].
    vm_compute in Hpn. injection Hpn as <-. discriminate.
Defined.

(** ** Registries that agree *)

(** The four registries name the same nodes, a node is stored under its own
    id, every peer is a registered node, and the keys are in order. *)
Definition consistent (self : P2PNetworkSimulator.t) : Prop :=
  dom (message_queues self) = dom (nodes self)
  /\ dom (ledgers self) = dom (nodes self)
  /\ dom (network_topology self) = dom (nodes self)
  /\ (forall k n, nodes self !! k = Some n -> PeerNode.node_id n = k)
  /\ (forall k peers, network_topology self !! k = Some peers ->
        peers ⊆ dom (nodes self))
  /\ keys_in_order self.

Lemma queue_append_dom k r q q' :
  queue_append k r q = Ok q' -> dom q' = dom q.
Proof.
  unfold queue_append. destruct (q !! k) as [l|] eqn:Hl; [|discriminate].
  intros [= <-]. rewrite dom_insert_L.
  assert (k ∈ dom q) by (apply elem_of_dom; eauto). set_solver.
Qed.

Lemma p2p_loop_total nodes receiver_id r peers st :
  (forall p, p ∈ peers -> p ∈ dom nodes /\ p ∈ dom st.1.1) ->
  exists st', for_each (p2p_step nodes receiver_id r) peers st = Ok st'
              /\ dom st'.1.1 = dom st.1.1.
Proof.
  revert st. induction peers as [|p peers IH]; intros st Hp.
  - exists st. auto.
  - cbn [for_each]. destruct st as [[q h] d].
    destruct (Hp p ltac:(left)) as [Hn Hq]. simpl in Hq.
    apply elem_of_dom in Hn as [pn Hpn]. apply elem_of_dom in Hq as [l Hl].
    assert (Hstep : exists st1, p2p_step nodes receiver_id r (q, h, d) p = Ok st1
                                /\ dom st1.1.1 = dom q).
    { unfold p2p_step. rewrite Hpn.
      destruct (negb (PeerNode.is_online pn)); [eauto|].
      unfold queue_append. rewrite Hl.
      assert (Hd : dom (<[p := l ++ [r]]> q) = dom q).
      { rewrite dom_insert_L. assert (p ∈ dom q) by (apply elem_of_dom; eauto).
        set_solver. }
      repeat case_decide; eauto. }
    destruct Hstep as (st1 & -> & Hd1).
    destruct (IH st1) as (st' & Hrun & Hd').
    { intros p' Hp'. destruct (Hp p' ltac:(now right)) as [Hn' Hq'].
      split; [exact Hn'|]. simpl in Hq'. now rewrite Hd1. }
    exists st'. split; [exact Hrun|]. simpl. congruence.
Qed.

(** On registries that agree, routing a message whose sender is registered
    returns, and changes nothing but queues and the message's hop count. *)
Lemma route_message_total self r :
  consistent self ->
  P2PMessage.sender_id (deref self r) ∈ dom (nodes self) ->
  exists self' delivered,
    route_message self r = Ok (self', delivered)
    /\ nodes self' = nodes self
    /\ ledgers self' = ledgers self
    /\ network_topology self' = network_topology self
    /\ node_order self' = node_order self
    /\ dom (message_queues self') = dom (message_queues self).
Proof.
  intros (Hq & Hl & Ht & Hid & Hpeers & Hord) Hs. unfold route_message.
  pose proof Hs as Hreg.
  apply elem_of_dom in Hs as [sender Hsender]. rewrite Hsender.
  case_decide; [exists self, false; auto 6|].
  destruct (_ && _).
  - unfold deliver_via_server.
    assert (Hb : exists self' delivered,
               server_broadcast self r = Ok (self', delivered)
               /\ nodes self' = nodes self /\ ledgers self' = ledgers self
               /\ network_topology self' = network_topology self
               /\ node_order self' = node_order self
               /\ dom (message_queues self') = dom (message_queues self)).
    { destruct (server_broadcast_total self r Hord) as (q & Hrun & Hq');
        [rewrite Hq; reflexivity|].
      rewrite bool_decide_eq_true_2 in Hrun by exact Hreg.
      exists (set_message_queues q self), true. split; [exact Hrun|].
      repeat (split; [reflexivity|]). cbn [message_queues set_message_queues].
      apply set_eq. intros n. rewrite !elem_of_dom, Hq'.
      destruct (bool_decide _); [|reflexivity].
      rewrite fmap_is_Some. reflexivity. }
    destruct (P2PMessage.receiver_id (deref self r)) as [receiver|]; [|exact Hb].
    destruct (String.eqb receiver ""); [exact Hb|].
    destruct (message_queues self !! receiver) as [l|] eqn:Hrcv.
    + assert (Hin : receiver ∈ dom (message_queues self))
        by (apply elem_of_dom; eauto).
      pose proof Hin as Hin'. rewrite Hq in Hin'.
      apply elem_of_dom in Hin' as [rn ->].
      eexists _, _. split; [reflexivity|]. repeat (split; [reflexivity|]).
      cbn [message_queues set_message_queues]. rewrite dom_insert_L.
      set_solver.
    + exists self, false. auto 6.
  - unfold deliver_via_p2p.
    destruct (_ <=? _); [exists self, false; auto 6|].
    destruct (p2p_loop_total (nodes self) (P2PMessage.receiver_id (deref self r)) r
                (elements (default ∅ (network_topology self
                                        !! P2PMessage.sender_id (deref self r))))
                (message_queues self, P2PMessage.hop_count (deref self r), false))
      as ([[q h] d] & Hrun & Hd).
    { intros p Hp. apply elem_of_elements in Hp. cbn [fst].
      destruct (network_topology self !! P2PMessage.sender_id (deref self r))
        as [peers|] eqn:Hpe; [|inversion Hp].
      simpl in Hp. apply (Hpeers _ _ Hpe) in Hp. rewrite Hq. auto. }
    rewrite Hrun. cbn [bind]. rewrite Hsender.
    destruct (bool_decide _ && d);
      (eexists _, _; split; [reflexivity|];
       repeat (split; [reflexivity|]); exact Hd).
Qed.

(** On registries that agree, a send returns with registries that agree, or
    has not returned, or lets out the exception of aes_encrypt or of
    sign_message. *)
Lemma send_message_total self sender_id receiver_id message_type content env :
  consistent self ->
  match send_message self sender_id receiver_id message_type content env with
  | Ok (self', _) => consistent self'
  | Raise e => sealed env = Raise e \/ signature env = Raise e
  | Timeout => True
  end.
Proof.
  intros Hc. pose proof Hc as (Hq & Hl & Ht & Hid & Hpeers & Hord).
  unfold send_message.
  destruct (nodes self !! sender_id) as [sender|] eqn:Hs; [|exact Hc].
  destruct (sealed env) as [payload|e|]; [|now left|exact I].
  destruct (signature env) as [digital_signature|e|]; [|now right|exact I].
  cbn [bind ledgers set_objects set_lamport_clock].
  assert (Hsl : is_Some (ledgers self !! sender_id)).
  { apply elem_of_dom. rewrite Hl. apply elem_of_dom. eauto. }
  destruct Hsl as [ledger Hledger]. rewrite Hledger.
  destruct (LocalLedger.add_message _ _ _ _) as [[ledger' block]|]; [|exact I].
  assert (Hdl : dom (<[sender_id := ledger']> (ledgers self)) = dom (nodes self)).
  { rewrite dom_insert_L, Hl.
    assert (sender_id ∈ dom (nodes self)) by (apply elem_of_dom; eauto).
    set_solver. }
  match goal with |- context [route_message ?s ?r] =>
    destruct (route_message_total s r)
      as (self' & d & Hrun & Hn & Hl' & Ht' & Ho' & Hq')
  end.
  - unfold consistent, keys_in_order.
    cbn [nodes ledgers message_queues network_topology node_order set_ledgers
         set_objects set_lamport_clock].
    split; [exact Hq|]. split; [exact Hdl|]. split; [exact Ht|].
    split; [exact Hid|]. split; [exact Hpeers|exact Hord].
  - unfold deref.
    cbn [objects nodes set_ledgers set_objects set_lamport_clock].
    rewrite nth_middle. cbn [P2PMessage.sender_id]. apply elem_of_dom. eauto.
  - rewrite Hrun.
    cbn [nodes ledgers message_queues network_topology node_order set_ledgers
         set_objects set_lamport_clock] in Hn, Hl', Ht', Ho', Hq'.
    unfold consistent, keys_in_order. rewrite Hn, Hl', Ht', Ho', Hq'.
    split; [exact Hq|]. split; [exact Hdl|]. split; [exact Ht|].
    split; [exact Hid|]. split; [exact Hpeers|exact Hord].
Qed.

Lemma pairs_after_elem {A} (l : list A) a b :
  (a, b) ∈ pairs_after l -> a ∈ l /\ b ∈ l.
Proof.
  induction l as [|x l IH]; cbn [pairs_after]; [intros H; inversion H|].
  rewrite elem_of_app, list_elem_of_fmap. intros [(y & [= -> ->] & Hy)|H].
  - split; [left|now right].
  - destruct (IH H). split; now right.
Qed.

Lemma topology_add_total a b topo (D : gset string) :
  dom topo = D -> a ∈ D -> b ∈ D ->
  (forall k peers, topo !! k = Some peers -> peers ⊆ D) ->
  exists topo', topology_add a b topo = Ok topo'
                /\ dom topo' = D
                /\ (forall k peers, topo' !! k = Some peers -> peers ⊆ D).
Proof.
  intros Hd Ha Hb Hp. unfold topology_add.
  rewrite <- Hd in Ha. apply elem_of_dom in Ha as [peers Hpeers]. rewrite Hpeers.
  eexists. split; [reflexivity|]. split.
  - rewrite dom_insert_L, Hd.
    assert (a ∈ D) by (rewrite <- Hd; apply elem_of_dom; eauto). set_solver.
  - intros k ps. destruct (decide (k = a)) as [->|Hne].
    + rewrite lookup_insert_eq. intros [= <-]. specialize (Hp _ _ Hpeers).
      set_solver.
    + rewrite lookup_insert_ne by congruence. apply Hp.
Qed.

Lemma establish_loop_total (can : PeerNode.t -> PeerNode.t -> bool)
    (D : gset string) ps topo :
  (forall n1 n2, (n1, n2) ∈ ps ->
     PeerNode.node_id n1 ∈ D /\ PeerNode.node_id n2 ∈ D) ->
  dom topo = D ->
  (forall k peers, topo !! k = Some peers -> peers ⊆ D) ->
  exists topo',
    for_each
      (fun topo p =>
         let '(node1, node2) := p in
         if can node1 node2 then
           topo <- topology_add (PeerNode.node_id node1)
                                (PeerNode.node_id node2) topo ;;
           topology_add (PeerNode.node_id node2) (PeerNode.node_id node1) topo
         else Ok topo) ps topo = Ok topo'
    /\ dom topo' = D
    /\ (forall k peers, topo' !! k = Some peers -> peers ⊆ D).
Proof.
  revert topo. induction ps as [|[n1 n2] ps IH]; intros topo Hin Hd Hp.
  - exists topo. auto.
  - cbn [for_each]. destruct (Hin n1 n2 ltac:(left)) as [H1 H2].
    assert (Hrest : forall a b, (a, b) ∈ ps ->
                      PeerNode.node_id a ∈ D /\ PeerNode.node_id b ∈ D)
      by (intros a b Hab; apply Hin; now right).
    destruct (can n1 n2).
    + destruct (topology_add_total _ _ topo D Hd H1 H2 Hp) as (t1 & -> & Hd1 & Hp1).
      cbn [bind].
      destruct (topology_add_total _ _ t1 D Hd1 H2 H1 Hp1) as (t2 & -> & Hd2 & Hp2).
      apply IH; assumption.
    + apply IH; assumption.
Qed.

(** On registries that agree, establish_p2p_connections returns, and the
    registries still agree. *)
Lemma establish_p2p_connections_total can self :
  consistent self ->
  exists self', establish_p2p_connections can self = Ok self' /\ consistent self'.
Proof.
  intros (Hq & Hl & Ht & Hid & Hpeers & Hord). unfold establish_p2p_connections.
  destruct (establish_loop_total can (dom (nodes self))
              (pairs_after (node_values self)) (network_topology self))
    as (topo & -> & Hd & Hp); [|exact Ht|exact Hpeers|].
  - intros n1 n2 Hin. apply pairs_after_elem in Hin as [H1 H2].
    assert (Hkey : forall n, n ∈ node_values self ->
                     PeerNode.node_id n ∈ dom (nodes self)).
    { intros n Hn. apply list_elem_of_omap in Hn as (k & _ & Hkn).
      rewrite (Hid _ _ Hkn). apply elem_of_dom. eauto. }
    auto.
  - cbn [bind]. eexists. split; [reflexivity|].
    unfold consistent, keys_in_order.
    cbn [nodes ledgers message_queues network_topology node_order
         set_network_topology]. auto 7.
Qed.

Lemma consistent_init : consistent P2PNetworkSimulator.init.
Proof.
  unfold consistent, keys_in_order, P2PNetworkSimulator.init.
  cbn [nodes ledgers message_queues network_topology node_order].
  rewrite !dom_empty_L. repeat split; try reflexivity.
  - intros k n H. rewrite lookup_empty in H. discriminate.
  - intros k n H. rewrite lookup_empty in H. discriminate.
  - apply NoDup_nil_2.
  - intros H. inversion H.
  - intros H. apply elem_of_empty in H. contradiction.
Qed.

Lemma consistent_set_nodes self (m : gmap string PeerNode.t) :
  consistent self ->
  dom m = dom (nodes self) ->
  (forall k n, m !! k = Some n -> PeerNode.node_id n = k) ->
  consistent (set_nodes m self).
Proof.
  intros (Hq & Hl & Ht & Hid & Hpeers & Hord) Hd Hm.
  unfold consistent, keys_in_order in *.
  cbn [nodes ledgers message_queues network_topology node_order set_nodes].
  rewrite Hd. auto 7.
Qed.

Lemma consistent_fmap self (f : PeerNode.t -> PeerNode.t) :
  consistent self ->
  (forall n, PeerNode.node_id (f n) = PeerNode.node_id n) ->
  consistent (set_nodes (f <$> nodes self) self).
Proof.
  intros Hc Hf. apply consistent_set_nodes; [exact Hc|apply dom_fmap_L|].
  intros k n. rewrite lookup_fmap.
  destruct (nodes self !! k) as [n'|] eqn:Hn; [|discriminate].
  intros [= <-]. rewrite Hf. destruct Hc as (_ & _ & _ & Hid & _). eauto.
Qed.

Lemma consistent_update self k n (f : PeerNode.t -> PeerNode.t) :
  consistent self ->
  nodes self !! k = Some n ->
  PeerNode.node_id (f n) = PeerNode.node_id n ->
  consistent (set_nodes (<[k := f n]> (nodes self)) self).
Proof.
  intros Hc Hn Hf. apply consistent_set_nodes; [exact Hc| |].
  - rewrite dom_insert_L.
    assert (k ∈ dom (nodes self)) by (apply elem_of_dom; eauto). set_solver.
  - destruct Hc as (_ & _ & _ & Hid & _). intros k' n'.
    destruct (decide (k' = k)) as [->|Hne].
    + rewrite lookup_insert_eq. intros [= <-]. rewrite Hf. eauto.
    + rewrite lookup_insert_ne by congruence. eauto.
Qed.

Lemma consistent_server_online b self :
  consistent self -> consistent (set_server_online b self).
Proof. intros H. exact H. Qed.

Lemma consistent_step self self' :
  consistent self -> step self self' -> consistent self'.
Proof.
  intros Hc Hstep. destruct Hstep.
  - destruct Hc as (Hq & Hl & Ht & Hid & Hpeers & Hnd & Hkeys).
    unfold consistent, keys_in_order, add_node.
    cbn [nodes ledgers message_queues network_topology node_order].
    rewrite !dom_insert_L, Hq, Hl, Ht.
    split; [reflexivity|]. split; [reflexivity|]. split; [reflexivity|].
    split; [|split; [|split]].
    + intros k n. destruct (decide (k = PeerNode.node_id node)) as [->|Hne].
      * rewrite lookup_insert_eq. now intros [= <-].
      * rewrite lookup_insert_ne by congruence. eauto.
    + intros k peers. destruct (decide (k = PeerNode.node_id node)) as [->|Hne].
      * rewrite lookup_insert_eq. intros [= <-]. set_solver.
      * rewrite lookup_insert_ne by congruence. intros H.
        specialize (Hpeers _ _ H). set_solver.
    + destruct (nodes self !! PeerNode.node_id node) eqn:Hold; [exact Hnd|].
      apply NoDup_app. split; [exact Hnd|]. split; [|apply NoDup_singleton].
      intros x Hx Hin. apply list_elem_of_singleton in Hin as ->.
      apply Hkeys, elem_of_dom in Hx as [? ?]. congruence.
    + intros k. destruct (nodes self !! PeerNode.node_id node) eqn:Hold.
      * rewrite Hkeys.
        assert (PeerNode.node_id node ∈ dom (nodes self))
          by (apply elem_of_dom; eauto).
        set_solver.
      * rewrite elem_of_app, list_elem_of_singleton, Hkeys. set_solver.
  - unfold simulate_server_failure.
    apply (consistent_fmap (set_server_online false self)); [exact Hc|].
    intros n. now case_decide.
  - unfold simulate_server_recovery.
    apply (consistent_fmap (set_server_online true self)); [exact Hc|].
    intros n. now destruct (PeerNode.connectivity_mode n).
  - unfold simulate_node_dropout.
    destruct (nodes self !! node_id) as [n|] eqn:Hn; [|exact Hc].
    now apply (consistent_update self node_id n
                 (PeerNode.set_mode OFFLINE false)).
  - unfold simulate_node_reconnect.
    destruct (nodes self !! node_id) as [n|] eqn:Hn; [|exact Hc].
    now apply (consistent_update self node_id n
                 (PeerNode.set_mode P2P_WIFI true)).
  - destruct (establish_p2p_connections_total can self Hc) as (s & Hs & Hcs).
    congruence.
  - pose proof (send_message_total self sender_id receiver_id message_type
                  content env Hc) as Hs.
    rewrite H in Hs. exact Hs.
Qed.

Lemma reachable_consistent self : reachable self -> consistent self.
Proof.
  induction 1 as [|self self' _ IH Hstep]; [exact consistent_init|].
  exact (consistent_step self self' IH Hstep).
Qed.

(** X12.  Whatever sequence of simulator calls led to a state, the next
    send_message from it raises no KeyError: the only exceptions it lets out
    are those of aes_encrypt and of sign_message. *)
Theorem reachable_send_message_raises self sender_id receiver_id message_type
    content env e :
  reachable self ->
  send_message self sender_id receiver_id message_type content env = Raise e ->
  sealed env = Raise e \/ signature env = Raise e.
Proof.
  intros Hr Hrun.
  pose proof (send_message_total self sender_id receiver_id message_type content
                env (reachable_consistent self Hr)) as Hs.
  rewrite Hrun in Hs. exact Hs.
Qed.

Lemma two_nodes_reachable : reachable two_nodes.
Proof.
  unfold two_nodes. eapply reachable_step; [|apply step_add_node].
  eapply reachable_step; [|apply step_add_node]. apply reachable_init.
Qed.

(** The private key of the sender is not PEM: sign_message raises. *)
Definition bad_key_env : send_env :=
  {| uuid := "u-1"; now := "1700000001.5"; block_now := "1700000530.0";
     sealed := Ok "{}";
     signature := Raise (ValueError "Could not deserialize key data");
     fuel := 1 |}.

Lemma reachable_send_message_raises_witness :
  send_message two_nodes "alpha_1" (Some "bravo_1") COMMAND "hold" bad_key_env
  = Raise (ValueError "Could not deserialize key data")
  /\ (sealed bad_key_env = Raise (ValueError "Could not deserialize key data")
      \/ signature bad_key_env
         = Raise (ValueError "Could not deserialize key data")).
Proof.
  assert (Hrun : send_message two_nodes "alpha_1" (Some "bravo_1") COMMAND "hold"
                   bad_key_env
                 = Raise (ValueError "Could not deserialize key data"))
    by (vm_compute; reflexivity).
  split; [exact Hrun|].
  exact (reachable_send_message_raises two_nodes "alpha_1" (Some "bravo_1")
           COMMAND "hold" bad_key_env _ two_nodes_reachable Hrun).
Defined.

(** X13.  From any state the simulator can reach, establish_p2p_connections
    returns whatever can_communicate_p2p answers; afterwards every node
    still has its topology entry, and every peer is a registered node. *)
Theorem reachable_establish_p2p_connections can self :
  reachable self ->
  exists self',
    establish_p2p_connections can self = Ok self'
    /\ dom (network_topology self') = dom (nodes self')
    /\ (forall k peers p, network_topology self' !! k = Some peers ->
          p ∈ peers -> is_Some (nodes self' !! p)).
Proof.
  intros Hr.
  destruct (establish_p2p_connections_total can self
              (reachable_consistent self Hr))
    as (self' & Hrun & (_ & _ & Ht & _ & Hp & _)).
  exists self'. split; [exact Hrun|]. split; [exact Ht|].
  intros k peers p Hk Hin. apply elem_of_dom. exact (Hp k peers Hk p Hin).
Qed.

Lemma reachable_establish_p2p_connections_witness :
  reachable two_nodes
  /\ exists self',
       establish_p2p_connections (fun _ _ => true) two_nodes = Ok self'
       /\ dom (network_topology self') = dom (nodes self')
       /\ (forall k peers p, network_topology self' !! k = Some peers ->
             p ∈ peers -> is_Some (nodes self' !! p)).
Proof.
  split; [exact two_nodes_reachable|].
  exact (reachable_establish_p2p_connections (fun _ _ => true) two_nodes
           two_nodes_reachable).
Defined.

(** X14.  After simulate_node_dropout of a registered node, a send from
    that node returns False and appends to no queue, whatever the receiver
    and whether or not the server is up. *)
Theorem dropout_then_send self node_id receiver_id message_type content env
    self' delivered :
  is_Some (nodes self !! node_id) ->
  send_message (simulate_node_dropout self node_id) node_id receiver_id
    message_type content env = Ok (self', delivered) ->
  delivered = false /\ message_queues self' = message_queues self.
Proof.
  intros [n Hn] Hsend.
  assert (Hoff : exists sender,
             nodes (simulate_node_dropout self node_id) !! node_id = Some sender
             /\ PeerNode.connectivity_mode sender = OFFLINE).
  { unfold simulate_node_dropout. rewrite Hn. cbn [nodes set_nodes].
    rewrite lookup_insert_eq. eauto. }
  destruct Hoff as (sender & Hs & Hmode).
  unfold send_message in Hsend. rewrite Hs in Hsend.
  destruct (sealed env) as [payload| |]; try discriminate.
  destruct (signature env) as [digital_signature| |]; try discriminate.
  cbn [bind ledgers set_objects set_lamport_clock] in Hsend.
  destruct (ledgers (simulate_node_dropout self node_id) !! node_id)
    as [ledger|]; [|discriminate].
  destruct (LocalLedger.add_message _ _ _ _) as [[ledger' block]|];
    [|discriminate].
  unfold route_message in Hsend.
  unfold deref in Hsend.
  cbn [objects nodes set_ledgers set_objects set_lamport_clock] in Hsend.
  rewrite nth_middle in Hsend. cbn [P2PMessage.sender_id] in Hsend.
  rewrite Hs in Hsend. rewrite decide_True in Hsend by exact Hmode.
  injection Hsend as <- <-. split; [reflexivity|].
  unfold simulate_node_dropout. rewrite Hn. reflexivity.
Qed.

Lemma dropout_then_send_witness :
  exists self',
    send_message (simulate_node_dropout two_nodes "alpha_1") "alpha_1"
      (Some "bravo_1") COMMAND "hold" first_send_env = Ok (self', false)
    /\ message_queues self' = message_queues two_nodes.
Proof.
  destruct (send_message (simulate_node_dropout two_nodes "alpha_1") "alpha_1"
              (Some "bravo_1") COMMAND "hold" first_send_env)
    as [[self' delivered]| |] eqn:Hrun;
    [|vm_compute in Hrun; discriminate|vm_compute in Hrun; discriminate].
  destruct (dropout_then_send two_nodes "alpha_1" (Some "bravo_1") COMMAND
              "hold" first_send_env self' delivered
              ltac:(vm_compute; eauto) Hrun) as [-> Hq].
  exists self'. split; [reflexivity|exact Hq].
Defined.

(** X15.  simulate_node_reconnect puts the node on P2P_WIFI, so a message
    it sends next is routed by deliver_via_p2p even while the server is up. *)
Theorem reconnect_routes_p2p self node_id node r :
  nodes self !! node_id = Some node ->
  P2PMessage.sender_id (deref self r) = node_id ->
  route_message (simulate_node_reconnect self node_id) r
  = deliver_via_p2p (simulate_node_reconnect self node_id) r.
Proof.
  intros Hn Hs. unfold simulate_node_reconnect. rewrite Hn.
  unfold route_message.
  change (deref (set_nodes _ self) r) with (deref self r).
  rewrite Hs. cbn [nodes set_nodes]. rewrite lookup_insert_eq.
  cbn [PeerNode.connectivity_mode PeerNode.set_mode].
  rewrite decide_False by discriminate.
  rewrite bool_decide_eq_false_2 by discriminate. reflexivity.
Qed.

Lemma reconnect_routes_p2p_witness :
  server_online (simulate_node_reconnect (set_server_online true mesh) "alpha_1")
  = true
  /\ route_message
       (simulate_node_reconnect (set_server_online true mesh) "alpha_1") 0
     = deliver_via_p2p
         (simulate_node_reconnect (set_server_online true mesh) "alpha_1") 0.
Proof.
  split; [reflexivity|].
  apply (reconnect_routes_p2p (set_server_online true mesh) "alpha_1"
           (peer "alpha_1" P2P_WIFI true) 0); reflexivity.
Defined.

(** ** The hop count *)

(** The peer is on line and is not the receiver: the loop of deliver_via_p2p
    takes its last branch. *)
Definition forwards (nodes : gmap string PeerNode.t) (receiver : string)
    (peer_id : string) : bool :=
  match nodes !! peer_id with
  | Some peer => PeerNode.is_online peer && negb (String.eqb peer_id receiver)
  | None => false
  end.

Lemma p2p_loop_hop_count nodes receiver r peers st st' :
  for_each (p2p_step nodes (Some receiver) r) peers st = Ok st' ->
  st'.1.2 = st.1.2 + Z.of_nat (length (List.filter (forwards nodes receiver) peers)).
Proof.
  revert st. induction peers as [|p peers IH]; intros st Hloop.
  - simpl in Hloop. injection Hloop as <-. simpl. lia.
  - cbn [for_each] in Hloop.
    destruct (p2p_step nodes (Some receiver) r st p) as [st1| |] eqn:Hstep;
      try discriminate.
    rewrite (IH _ Hloop). clear IH Hloop.
    destruct st as [[q h] d]. unfold p2p_step in Hstep.
    cbn [List.filter]. unfold forwards at 2.
    destruct (nodes !! p) as [pn|]; [|discriminate].
    destruct (PeerNode.is_online pn); cbn [negb andb] in *.
    2: { injection Hstep as <-. simpl. lia. }
    destruct (decide (Some receiver = Some p)) as [Heq|Hne].
    + injection Heq as <-. rewrite String.eqb_refl. cbn [negb].
      destruct (queue_append receiver r q); try discriminate.
      cbn [bind] in Hstep. injection Hstep as <-. simpl. lia.
    + assert (String.eqb p receiver = false) as ->
        by (apply String.eqb_neq; congruence).
      cbn [negb length]. rewrite decide_False in Hstep by discriminate.
      injection Hstep as <-. cbn [fst snd]. lia.
Qed.

(** X16.  A direct send over the mesh adds to the hop_count of the message
    one for every on-line neighbour of the sender that is not the receiver:
    hop_count counts the peers passed over, and the object the receiver's
    queue holds is the object that was updated. *)
Theorem deliver_via_p2p_hop_count self r self' delivered receiver :
  deliver_via_p2p self r = Ok (self', delivered) ->
  (r < length (objects self))%nat ->
  P2PMessage.receiver_id (deref self r) = Some receiver ->
  P2PMessage.hop_count (deref self r) < P2PMessage.max_hops (deref self r) ->
  P2PMessage.hop_count (deref self' r)
  = P2PMessage.hop_count (deref self r)
    + Z.of_nat
        (length
           (List.filter (forwards (nodes self) receiver)
              (elements (neighbours self (P2PMessage.sender_id (deref self r)))))).
Proof.
  intros Hrun Hr Hrcv Hlt.
  apply deliver_via_p2p_inv in Hrun
    as [(Hge & _)|(_ & q & h & Hloop & ->)]; [lia|].
  rewrite Hrcv in Hloop. apply p2p_loop_hop_count in Hloop. cbn [fst snd] in Hloop.
  unfold deref at 1. cbn [objects set_objects set_message_queues].
  rewrite <- Hloop.
  assert (Hnth : forall (l : list P2PMessage.t) i x d,
             (i < length l)%nat -> nth i (<[i := x]> l) d = x).
  { induction l as [|y l IH]; intros [|i] x d Hi; simpl in *; try lia;
      [reflexivity|]. apply IH. lia. }
  rewrite Hnth by exact Hr. reflexivity.
Qed.

Lemma deliver_via_p2p_hop_count_witness :
  exists self' delivered,
    deliver_via_p2p mesh 0 = Ok (self', delivered)
    /\ P2PMessage.hop_count (deref mesh 0) = 0
    /\ P2PMessage.hop_count (deref self' 0) = 1.
Proof.
  destruct (deliver_via_p2p mesh 0) as [[self' delivered]| |] eqn:Hrun;
    [|vm_compute in Hrun; discriminate|vm_compute in Hrun; discriminate].
  exists self', delivered. split; [reflexivity|]. split; [reflexivity|].
  rewrite (deliver_via_p2p_hop_count mesh 0 self' delivered "bravo_1" Hrun
             ltac:(simpl; lia) ltac:(reflexivity) ltac:(vm_compute; reflexivity)).
  vm_compute. reflexivity.
Defined.

End NetMore.

(** * Further properties of the demo server *)
Module DemoMore.
Import Demo.
Import Demo.Server.
Import DemoSpec DemoProofs DemoRun.

#[local] Set Warnings "-clear-no-such-hyp".

(** ** What the flood reaches *)

Section Flood.
Variable nodes : registry.
Variable sender : string.

(** A radio link from [a] to [b]: neither is OFFLINE and they are in range. *)
Definition link (a b : string) : Prop :=
  exists node target,
    lookup_node a nodes = Some node
    /\ BattlefieldNode.status node <> OFFLINE
    /\ (b, target) ∈ nodes
    /\ BattlefieldNode.status target <> OFFLINE
    /\ within_p2p_range (BattlefieldNode.position node)
                        (BattlefieldNode.position target) = true.

(** Every node [a] links to has been visited. *)
Definition expanded (visited : gset string) (a : string) : Prop :=
  forall b, link a b -> b ∈ visited.

Lemma within_hops_mono n m x :
  within_hops nodes sender n x -> (n <= m)%nat -> within_hops nodes sender m x.
Proof.
  intros H. revert m. induction H as [n|n a node b target Ha IH Hl Hs Hin Ht Hr];
    intros m Hle.
  - constructor.
  - destruct m as [|m]; [lia|].
    eapply within_hops_link; eauto. apply IH. lia.
Qed.

Lemma within_hops_inv n x :
  within_hops nodes sender n x ->
  x = sender
  \/ exists m a, n = S m /\ within_hops nodes sender m a /\ link a x.
Proof.
  intros H. destruct H as [n|n a node b target Ha Hl Hs Hin Ht Hr]; [now left|].
  right. exists n, a. split; [reflexivity|]. split; [exact Ha|].
  exists node, target. auto.
Qed.

Lemma within_hops_step n a x :
  within_hops nodes sender n a -> link a x -> within_hops nodes sender (S n) x.
Proof.
  intros Ha (node & target & Hl & Hs & Hin & Ht & Hr).
  eapply within_hops_link; eauto.
Qed.

(** The innermost loop appends the same ids to next_hops and to route_path
    and adds them to visited: the targets in range that were not visited. *)
Lemma scan_targets_added node targets visited next_hops route_path :
  exists added,
    scan_targets node targets (visited, next_hops, route_path)
    = (visited ∪ list_to_set added, next_hops ++ added, route_path ++ added)
    /\ (forall x, x ∈ added ->
          (x ∉ visited)
          /\ exists target,
               (x, target) ∈ targets
               /\ BattlefieldNode.status target <> OFFLINE
               /\ within_p2p_range (BattlefieldNode.position node)
                                   (BattlefieldNode.position target) = true)
    /\ (forall b target,
          (b, target) ∈ targets ->
          BattlefieldNode.status target <> OFFLINE ->
          within_p2p_range (BattlefieldNode.position node)
                           (BattlefieldNode.position target) = true ->
          b ∈ visited ∪ list_to_set added).
Proof.
  unfold scan_targets.
  revert visited next_hops route_path.
  induction targets as [|[k t] targets IH]; intros visited next_hops route_path.
  - exists []. cbn [fold_left]. rewrite !app_nil_r, list_to_set_nil, union_empty_r_L.
    split; [reflexivity|]. split; [intros x Hx; inversion Hx|].
    intros b target Hin. inversion Hin.
  - cbn [fold_left].
    destruct (bool_decide (k ∈ visited)
              || bool_decide (BattlefieldNode.status t = OFFLINE)) eqn:Hskip;
      [|destruct (within_p2p_range (BattlefieldNode.position node)
                                   (BattlefieldNode.position t)) eqn:Hr].
    + destruct (IH visited next_hops route_path) as (added & -> & Hs & Hc).
      exists added. split; [reflexivity|]. split.
      * intros x Hx. destruct (Hs x Hx) as (Hv & target & Hin & Ht & Hrt).
        split; [exact Hv|]. exists target. split; [now right|auto].
      * intros b target Hin Ht Hrt. apply elem_of_cons in Hin as [[= -> ->]|Hin].
        -- apply orb_true_iff in Hskip as [Hk|Hk].
           ++ apply bool_decide_eq_true in Hk. set_solver.
           ++ apply bool_decide_eq_true in Hk. contradiction.
        -- eauto.
    + apply orb_false_iff in Hskip as [Hk Hoff].
      apply bool_decide_eq_false in Hk. apply bool_decide_eq_false in Hoff.
      destruct (IH (visited ∪ {[k]}) (next_hops ++ [k]) (route_path ++ [k]))
        as (added & -> & Hs & Hc).
      exists (k :: added). rewrite list_to_set_cons, <- !app_assoc.
      split; [rewrite !(assoc_L (∪)); reflexivity|]. split.
      * intros x Hx. apply elem_of_cons in Hx as [->|Hx].
        -- split; [exact Hk|]. exists t. split; [left|auto].
        -- destruct (Hs x Hx) as (Hv & target & Hin & Ht & Hrt).
           split; [set_solver|]. exists target. split; [now right|auto].
      * intros b target Hin Ht Hrt. apply elem_of_cons in Hin as [[= -> ->]|Hin].
        -- set_solver.
        -- specialize (Hc b target Hin Ht Hrt). set_solver.
    + destruct (IH visited next_hops route_path) as (added & -> & Hs & Hc).
      exists added. split; [reflexivity|]. split.
      * intros x Hx. destruct (Hs x Hx) as (Hv & target & Hin & Ht & Hrt).
        split; [exact Hv|]. exists target. split; [now right|auto].
      * intros b target Hin Ht Hrt. apply elem_of_cons in Hin as [[= -> ->]|Hin].
        -- congruence.
        -- eauto.
Qed.

(** One current node: what it adds are nodes it links to, and afterwards
    every node it links to is visited. *)
Lemma expand_added visited next_hops route_path a :
  exists added,
    expand nodes (visited, next_hops, route_path) a
    = (visited ∪ list_to_set added, next_hops ++ added, route_path ++ added)
    /\ (forall x, x ∈ added -> (x ∉ visited) /\ link a x)
    /\ expanded (visited ∪ list_to_set added) a.
Proof.
  unfold expand.
  destruct (lookup_node a nodes) as [node|] eqn:Hl.
  2: { exists []. rewrite !app_nil_r, list_to_set_nil, union_empty_r_L.
       split; [reflexivity|]. split; [intros x Hx; inversion Hx|].
       intros b (n & t & Hn & _). congruence. }
  case_bool_decide as Hoff.
  { exists []. rewrite !app_nil_r, list_to_set_nil, union_empty_r_L.
    split; [reflexivity|]. split; [intros x Hx; inversion Hx|].
    intros b (n & t & Hn & Hs & _). congruence. }
  destruct (scan_targets_added node nodes visited next_hops route_path)
    as (added & -> & Hs & Hc).
  exists added. split; [reflexivity|]. split.
  - intros x Hx. destruct (Hs x Hx) as (Hv & target & Hin & Ht & Hr).
    split; [exact Hv|]. exists node, target. auto.
  - intros b (n & t & Hn & _ & Hin & Ht & Hr).
    assert (n = node) as -> by congruence. eauto.
Qed.

(** One level of the flood. *)
Lemma level_added current visited next_hops route_path :
  exists added,
    fold_left (expand nodes) current (visited, next_hops, route_path)
    = (visited ∪ list_to_set added, next_hops ++ added, route_path ++ added)
    /\ (forall x, x ∈ added ->
          (x ∉ visited) /\ exists a, a ∈ current /\ link a x)
    /\ (forall a, a ∈ current -> expanded (visited ∪ list_to_set added) a).
Proof.
  revert visited next_hops route_path.
  induction current as [|c current IH]; intros visited next_hops route_path.
  - exists []. cbn [fold_left]. rewrite !app_nil_r, list_to_set_nil, union_empty_r_L.
    split; [reflexivity|]. split; [intros x Hx; inversion Hx|].
    intros a Ha. inversion Ha.
  - cbn [fold_left].
    destruct (expand_added visited next_hops route_path c) as (l1 & -> & Hs1 & Hc1).
    destruct (IH (visited ∪ list_to_set l1) (next_hops ++ l1) (route_path ++ l1))
      as (l2 & -> & Hs2 & Hc2).
    exists (l1 ++ l2). rewrite list_to_set_app_L, !app_assoc.
    split; [rewrite !(assoc_L (∪)); reflexivity|]. split.
    + intros x Hx. apply elem_of_app in Hx as [Hx|Hx].
      * destruct (Hs1 x Hx) as [Hv Hl]. split; [exact Hv|].
        exists c. split; [left|exact Hl].
      * destruct (Hs2 x Hx) as (Hv & a & Ha & Hl). split; [set_solver|].
        exists a. split; [now right|exact Hl].
    + intros a Ha b Hl. apply elem_of_cons in Ha as [->|Ha].
      * specialize (Hc1 b Hl). set_solver.
      * specialize (Hc2 a Ha b Hl). set_solver.
Qed.

(** The levels together: the flood visits the nodes within [d + hops] links
    when it starts from the nodes within [d]. *)
Lemma flood_reaches hops : forall d visited current route_path,
  (forall c, c ∈ current -> within_hops nodes sender d c) ->
  (forall x, x ∈ visited <-> within_hops nodes sender d x) ->
  (forall x, x ∈ visited -> x ∈ current \/ expanded visited x) ->
  (forall x, x ∈ visited <-> x = sender \/ x ∈ route_path) ->
  sender ∉ route_path ->
  forall x,
    x ∈ flood hops nodes visited current route_path
    <-> x <> sender /\ within_hops nodes sender (d + hops) x.
Proof.
  induction hops as [|hops IH]; intros d visited current route_path Hcur Hvis Hexp
    Hrp Hns x.
  - cbn [flood]. rewrite Nat.add_0_r, <- Hvis, Hrp. split.
    + intros Hx. split; [congruence|now right].
    + intros [Hne [?|?]]; [contradiction|assumption].
  - cbn [flood].
    destruct (level_added current visited [] route_path) as (added & -> & Hs & Hc).
    cbn [app].
    assert (Hvis' : forall y, y ∈ visited ∪ list_to_set added
                              <-> within_hops nodes sender (S d) y).
    { intros y. split.
      - intros Hy. apply elem_of_union in Hy as [Hy|Hy].
        + apply (within_hops_mono d); [now apply Hvis|lia].
        + apply elem_of_list_to_set in Hy.
          destruct (Hs y Hy) as (_ & a & Ha & Hl).
          apply (within_hops_step d a); auto.
      - intros Hy. apply within_hops_inv in Hy as [->|(m & a & [= <-] & Ha & Hl)].
        + apply elem_of_union. left. apply Hrp. now left.
        + apply Hvis in Ha. destruct (Hexp a Ha) as [Hin|He].
          * exact (Hc a Hin y Hl).
          * apply elem_of_union. left. exact (He y Hl). }
    assert (Hrp' : forall y, y ∈ visited ∪ list_to_set added
                             <-> y = sender \/ y ∈ route_path ++ added).
    { intros y. rewrite elem_of_union, elem_of_list_to_set, elem_of_app, Hrp.
      tauto. }
    assert (Hns' : sender ∉ route_path ++ added).
    { rewrite elem_of_app. intros [?|Hin]; [contradiction|].
      destruct (Hs sender Hin) as [Hv _]. apply Hv, Hrp. now left. }
    destruct added as [|a0 added'] eqn:Hadded.
    + (* nobody new: every visited node is expanded *)
      rewrite app_nil_r in *. rewrite list_to_set_nil, union_empty_r_L in *.
      assert (Hclosed : forall n y, within_hops nodes sender n y -> y ∈ visited).
      { intros n y Hy. induction Hy as [n|n a node b target Ha IHa Hl Hst Hin Ht Hr].
        - apply Hrp. now left.
        - assert (Hlink : link a b) by (exists node, target; auto).
          destruct (Hexp a IHa) as [Hin'|He]; [exact (Hc a Hin' b Hlink)|].
          exact (He b Hlink). }
      split.
      * intros Hx. split; [intros ->; apply Hns; exact Hx|].
        apply (within_hops_mono (S d)); [|lia]. apply Hvis'. apply Hrp. now right.
      * intros [Hne Hx]. apply Hclosed, Hrp in Hx as [?|?]; [contradiction|assumption].
    + rewrite <- Hadded in *. clear Hadded a0 added'.
      replace (d + S hops)%nat with (S d + hops)%nat by lia.
      apply IH; try assumption.
      * intros c Hin. destruct (Hs c Hin) as (_ & a & Ha & Hl).
        apply (within_hops_step d a); auto.
      * intros y Hy. apply elem_of_union in Hy as [Hy|Hy].
        -- right. destruct (Hexp y Hy) as [Hin|He].
           ++ exact (Hc y Hin).
           ++ intros b Hl. apply elem_of_union. left. exact (He b Hl).
        -- left. now apply elem_of_list_to_set in Hy.
Qed.

(** The route_path the flood builds lists the nodes within max_hops radio
    links of the sender, the sender left out. *)
Lemma flood_route_path_reaches x :
  x ∈ flood max_hops nodes {[sender]} [sender] []
  <-> x <> sender /\ within_hops nodes sender max_hops x.
Proof.
  apply (flood_reaches max_hops 0).
  - intros c Hc. apply list_elem_of_singleton in Hc as ->. constructor.
  - intros y. rewrite elem_of_singleton. split; [intros ->; constructor|].
    intros Hy. apply within_hops_inv in Hy as [->|(m & a & Hm & _)];
      [reflexivity|discriminate].
  - intros y Hy. left. apply elem_of_singleton in Hy as ->. left.
  - intros y. rewrite elem_of_singleton. split; [now left|].
    intros [?|Hy]; [assumption|inversion Hy].
  - intros Hin. inversion Hin.
Qed.

End Flood.

(** X17.  On the P2P path the route_path of the logged message lists
    exactly the nodes within max_hops = 3 radio links of the sender, the
    sender left out, every relay and every listed node being a node that is
    not OFFLINE. *)
Theorem p2p_route_path_reaches self data env self' message x :
  handle_send_message self data env = Ok self' ->
  messages self' = messages self ++ [message] ->
  centralized self = false ->
  x ∈ BattlefieldMessage.route_path message
  <-> x <> BattlefieldMessage.sender_id message
      /\ within_hops (nodes self') (BattlefieldMessage.sender_id message)
                     max_hops x.
Proof.
  intros Hrun Hlog Hp2p.
  apply handle_send_message_inv in Hrun
    as [[-> _]|(s & sender & m & _ & _ & _ & _ & Hs & Hrp & ->)].
  - apply (f_equal length) in Hlog. rewrite length_app in Hlog. simpl in Hlog. lia.
  - cbn [messages nodes] in *. apply app_inv_head in Hlog. injection Hlog as <-.
    rewrite Hp2p in Hrp. rewrite Hrp, Hs. apply flood_route_path_reaches.
Qed.

Lemma p2p_route_path_reaches_witness :
  exists message,
    messages after_bravo = messages alpha_dropped_p2p ++ [message]
    /\ ("echo_1" ∈ BattlefieldMessage.route_path message
        <-> "echo_1" <> BattlefieldMessage.sender_id message
            /\ within_hops (nodes after_bravo)
                           (BattlefieldMessage.sender_id message) max_hops "echo_1").
Proof.
  eexists. split; [vm_compute; reflexivity|].
  apply (p2p_route_path_reaches alpha_dropped_p2p (send_from "bravo_1") demo_env
           after_bravo); vm_compute; reflexivity.
Defined.

(** ** States the server can be in *)

Lemma keys_map_nodes f nodes : map fst (map_nodes f nodes) = map fst nodes.
Proof. unfold map_nodes. rewrite map_map. reflexivity. Qed.

Lemma Forall_update_node (P : string * BattlefieldNode.t -> Prop) k f nodes :
  (forall k n, P (k, n) -> P (k, f n)) ->
  Forall P nodes -> Forall P (update_node k f nodes).
Proof.
  intros Hf. induction 1 as [|[k' n] nodes Hn Hrest IH]; simpl; [constructor|].
  destruct (String.eqb k k'); constructor; auto.
Qed.

Lemma Forall_map_nodes (P Q : string * BattlefieldNode.t -> Prop) f nodes :
  (forall k n, P (k, n) -> Q (k, f n)) ->
  Forall P nodes -> Forall Q (map_nodes f nodes).
Proof.
  intros Hf. induction 1 as [|[k' n] nodes Hn Hrest IH]; simpl; constructor; auto.
Qed.

Lemma lookup_node_elem k nodes n :
  lookup_node k nodes = Some n -> (k, n) ∈ nodes.
Proof.
  induction nodes as [|[k' n'] nodes IH]; simpl; [discriminate|].
  destruct (String.eqb k k') eqn:E.
  - apply String.eqb_eq in E. subst. intros [= ->]. left.
  - intros H. right. auto.
Qed.

(** What a node is allowed to look like while the server is up, or down. *)
Definition node_ok (server_online : bool) (kn : string * BattlefieldNode.t)
    : Prop :=
  BattlefieldNode.id kn.2 = kn.1
  /\ BattlefieldNode.message_queue kn.2 = []
  /\ (BattlefieldNode.status kn.2 = OFFLINE
      \/ BattlefieldNode.status kn.2 = live_status server_online).

Lemma coherent_intro self :
  network_state self = (if server_online self then CENTRALIZED else P2P_FALLBACK) ->
  map fst (nodes self) = ["alpha_1"; "bravo_1"; "charlie_1"; "delta_1"; "echo_1"] ->
  Forall (node_ok (server_online self)) (nodes self) ->
  coherent self.
Proof. intros H1 H2 H3. split; [exact H1|]. split; [exact H2|exact H3]. Qed.

Lemma coherent_elim self :
  coherent self ->
  network_state self = (if server_online self then CENTRALIZED else P2P_FALLBACK)
  /\ map fst (nodes self) = ["alpha_1"; "bravo_1"; "charlie_1"; "delta_1"; "echo_1"]
  /\ Forall (node_ok (server_online self)) (nodes self).
Proof. intros H. exact H. Qed.

Lemma coherent_synchronize_network self self' :
  synchronize_network self = Ok self' -> coherent self ->
  coherent self' /\ messages self' = messages self.
Proof.
  intros Hsync Hc. apply synchronize_network_inv in Hsync as (m & _ & ->).
  apply coherent_elim in Hc as (Hmode & Hkeys & Hall).
  split; [|reflexivity]. apply coherent_intro; cbn [network_state server_online
                                                     nodes set_nodes].
  - exact Hmode.
  - rewrite !keys_map_nodes. exact Hkeys.
  - apply (Forall_map_nodes (node_ok (server_online self))).
    + intros k n (Hid & _ & Hst). split; [exact Hid|]. split; [reflexivity|exact Hst].
    + apply (Forall_map_nodes (node_ok (server_online self))); [|exact Hall].
      intros k n H. exact H.
Qed.

(** A send from a coherent state keeps it coherent, and the message it logs,
    if any, has at most four entries in its route_path. *)
Lemma coherent_handle_send_message self data env self' :
  handle_send_message self data env = Ok self' -> coherent self ->
  coherent self'
  /\ (messages self' = messages self
      \/ exists message, messages self' = messages self ++ [message]
                         /\ route_bounded message).
Proof.
  intros Hrun Hc. apply coherent_elim in Hc as (Hmode & Hkeys & Hall).
  apply handle_send_message_inv in Hrun
    as [[-> _]|(s & sender & m & _ & _ & Hl & _ & _ & Hrp & ->)].
  - split; [apply coherent_intro; assumption|now left].
  - split.
    + apply coherent_intro; cbn [network_state server_online nodes].
      * exact Hmode.
      * rewrite keys_update_node. exact Hkeys.
      * apply Forall_update_node; [|exact Hall]. intros k n H. exact H.
    + right. exists m. split; [reflexivity|]. unfold route_bounded.
      destruct (centralized self).
      * rewrite Hrp. split; [simpl; unfold max_hops; lia|apply NoDup_singleton].
      * pose proof (flood_route_path s
                      (update_node s
                         (BattlefieldNode.set_lamport_clock
                            (BattlefieldNode.lamport_clock sender + 1))
                         (nodes self))) as (Hnd & Hns & Hsub).
        rewrite <- Hrp in Hnd, Hns, Hsub. rewrite keys_update_node in Hsub.
        split; [|exact Hnd].
        assert (Hle : s :: BattlefieldMessage.route_path m ⊆+ map fst (nodes self)).
        { apply NoDup_submseteq; [constructor; assumption|].
          intros y Hy. apply elem_of_cons in Hy as [->|Hy]; [|auto].
          eapply lookup_node_key; eauto. }
        apply submseteq_length in Hle. rewrite Hkeys in Hle. simpl in Hle.
        unfold max_hops. lia.
Qed.

Lemma coherent_step self self' :
  step self self' -> coherent self ->
  coherent self'
  /\ (messages self' = messages self
      \/ exists message, messages self' = messages self ++ [message]
                         /\ route_bounded message).
Proof.
  intros Hstep Hc. destruct Hstep as
    [self data env self' Hrun|self now|self now self' Hrun|self now self' Hrun
    |self choice now|self node_id now|self now|self].
  - exact (coherent_handle_send_message self data env self' Hrun Hc).
  - split; [|left; unfold simulate_server_failure;
              now destruct (server_online self)].
    unfold simulate_server_failure.
    destruct (server_online self) eqn:Hon; [|exact Hc].
    apply coherent_elim in Hc as (Hmode & Hkeys & Hall). rewrite Hon in Hall.
    apply coherent_intro; cbn [network_state server_online nodes set_nodes set_mode
                               emit_event broadcast_to_clients set_events set_outbox].
    + reflexivity.
    + rewrite keys_map_nodes. exact Hkeys.
    + apply (Forall_map_nodes (node_ok true)); [|exact Hall].
      intros k n (Hid & Hq & Hst). case_bool_decide as Hon'.
      * split; [exact Hid|]. split; [exact Hq|]. now right.
      * split; [exact Hid|]. split; [exact Hq|]. left.
        destruct Hst as [Hst|Hst]; [exact Hst|contradiction].
  - unfold simulate_server_recovery in Hrun.
    destruct (server_online self) eqn:Hon; [injection Hrun as <-; auto|].
    apply coherent_elim in Hc as (Hmode & Hkeys & Hall). rewrite Hon in Hall.
    assert (Hc0 : coherent
                    (set_nodes
                       (map_nodes
                          (fun n => if bool_decide (BattlefieldNode.status n = P2P_ONLY)
                                    then BattlefieldNode.set_status ONLINE n else n)
                          (nodes (set_mode true CENTRALIZED self)))
                       (set_mode true CENTRALIZED self))).
    { apply coherent_intro; cbn [network_state server_online nodes set_nodes set_mode].
      - reflexivity.
      - rewrite keys_map_nodes. exact Hkeys.
      - apply (Forall_map_nodes (node_ok false)); [|exact Hall].
        intros k n (Hid & Hq & Hst). case_bool_decide as Hp.
        + split; [exact Hid|]. split; [exact Hq|]. now right.
        + split; [exact Hid|]. split; [exact Hq|]. left.
          destruct Hst as [Hst|Hst]; [exact Hst|contradiction]. }
    match type of Hrun with context [synchronize_network ?s] =>
      destruct (synchronize_network s) as [synced| |] eqn:Hsync;
        [|discriminate|discriminate]
    end.
    destruct (coherent_synchronize_network _ synced Hsync Hc0) as [Hc' Hm].
    cbn [bind] in Hrun. injection Hrun as <-. split; [exact Hc'|]. left.
    exact Hm.
  - unfold handle_force_sync in Hrun.
    destruct (synchronize_network self) as [synced| |] eqn:Hsync;
      [|discriminate|discriminate].
    destruct (coherent_synchronize_network self synced Hsync Hc) as [Hc' Hm].
    cbn [bind] in Hrun. injection Hrun as <-. split; [exact Hc'|]. left. exact Hm.
  - unfold simulate_node_dropout.
    destruct (nth_error _ choice) as [[k dropout_node]|]; [|auto].
    split; [|now left].
    apply coherent_elim in Hc as (Hmode & Hkeys & Hall).
    apply coherent_intro; cbn [network_state server_online nodes set_nodes
                               emit_event broadcast_to_clients set_events set_outbox].
    + exact Hmode.
    + rewrite keys_update_node. exact Hkeys.
    + apply Forall_update_node; [|exact Hall].
      intros k' n (Hid & Hq & _). split; [exact Hid|]. split; [exact Hq|]. now left.
  - unfold schedule_node_recovery.
    destruct (lookup_node node_id (nodes self)) as [node|]; [|auto].
    split; [|now left].
    apply coherent_elim in Hc as (Hmode & Hkeys & Hall).
    apply coherent_intro; cbn [network_state server_online nodes set_nodes
                               emit_event broadcast_to_clients set_events set_outbox].
    + exact Hmode.
    + rewrite keys_update_node. exact Hkeys.
    + apply Forall_update_node; [|exact Hall].
      intros k' n (Hid & Hq & _). split; [exact Hid|]. split; [exact Hq|]. now right.
  - unfold simulate_network_partition.
    destruct (_ <? _)%nat; auto.
  - auto.
Qed.

Lemma reachable_sound now self :
  reachable now self ->
  coherent self /\ Forall route_bounded (messages self).
Proof.
  induction 1 as [|self self' _ [Hc Hm] Hstep].
  - split; [|constructor]. apply coherent_intro; [reflexivity|reflexivity|].
    repeat (constructor;
            [split; [reflexivity|split; [reflexivity|right; reflexivity]]|]).
    constructor.
  - destruct (coherent_step self self' Hstep Hc) as [Hc' [->|(m & -> & Hb)]].
    + auto.
    + split; [exact Hc'|]. apply Forall_app. split; [exact Hm|].
      constructor; [exact Hb|constructor].
Qed.

Lemma alpha_dropped_p2p_reachable :
  reachable "2025-09-13T14:30:00" alpha_dropped_p2p.
Proof.
  unfold alpha_dropped_p2p, alpha_dropped.
  eapply reachable_step; [|apply step_server_failure].
  eapply reachable_step; [|apply step_node_dropout].
  apply reachable_init.
Qed.

Lemma after_bravo_reachable : reachable "2025-09-13T14:30:00" after_bravo.
Proof.
  eapply reachable_step; [exact alpha_dropped_p2p_reachable|].
  apply (step_send_message _ (send_from "bravo_1") demo_env).
  vm_compute. reflexivity.
Qed.

(** X18.  Whatever handlers ran since the server started, the mode and the
    statuses fit together: network_state is CENTRALIZED while the server is
    up and P2P_FALLBACK while it is down, the registry holds the five demo
    nodes, each node is OFFLINE, or ONLINE while the server is up and
    P2P_ONLY while it is down, and every message_queue is empty. *)
Theorem reachable_coherent now self : reachable now self -> coherent self.
Proof. intros H. now apply reachable_sound in H. Qed.

Lemma reachable_coherent_witness : coherent alpha_dropped_p2p.
Proof.
  exact (reachable_coherent "2025-09-13T14:30:00" alpha_dropped_p2p
           alpha_dropped_p2p_reachable).
Defined.

(** C7: whatever handlers ran since the server started, the message that a
    handle_send_message call delivers (routes, logs and broadcasts) has at
    most max_hops + 1 = 4 entries in its route_path, and no node twice. *)
Theorem delivered_route_bounded now self data env self' message :
  reachable now self ->
  handle_send_message self data env = Ok self' ->
  messages self' = messages self ++ [message] ->
  route_bounded message.
Proof.
  intros Hr Hrun Hlog. apply reachable_sound in Hr as [Hc _].
  destruct (coherent_handle_send_message self data env self' Hrun Hc)
    as [_ [Hsame|(m & Hm & Hb)]].
  - rewrite Hsame in Hlog. apply (f_equal length) in Hlog.
    rewrite length_app in Hlog. simpl in Hlog. lia.
  - rewrite Hm in Hlog. apply app_inv_head in Hlog. injection Hlog as <-.
    exact Hb.
Qed.

Lemma delivered_route_bounded_witness :
  exists message,
    handle_send_message alpha_dropped_p2p (send_from "bravo_1") demo_env
    = Ok after_bravo
    /\ messages after_bravo = messages alpha_dropped_p2p ++ [message]
    /\ route_bounded message.
Proof.
  eexists. split; [vm_compute; reflexivity|].
  split; [vm_compute; reflexivity|].
  apply (delivered_route_bounded "2025-09-13T14:30:00" alpha_dropped_p2p
           (send_from "bravo_1") demo_env after_bravo).
  - exact alpha_dropped_p2p_reachable.
  - vm_compute. reflexivity.
  - vm_compute. reflexivity.
Defined.

(** X19.  Whatever handlers ran since the server started, every message in
    the log has a route_path without repeats and with at most
    max_hops + 1 = 4 entries. *)
Theorem reachable_route_bounded now self message :
  reachable now self -> message ∈ messages self -> route_bounded message.
Proof.
  intros H Hin. apply reachable_sound in H as [_ Hall].
  rewrite Forall_forall in Hall. auto.
Qed.

Lemma reachable_route_bounded_witness :
  exists message, last (messages after_bravo) = Some message
                  /\ route_bounded message.
Proof.
  eexists. split; [vm_compute; reflexivity|].
  apply (reachable_route_bounded "2025-09-13T14:30:00" after_bravo).
  - exact after_bravo_reachable.
  - left.
Defined.

(** ** What no handler changes *)

(** The node object [n'] is [n] later on: same id and position, a Lamport
    clock that is not smaller. *)
Definition later (n n' : BattlefieldNode.t) : Prop :=
  BattlefieldNode.id n' = BattlefieldNode.id n
  /\ BattlefieldNode.position n' = BattlefieldNode.position n
  /\ BattlefieldNode.lamport_clock n <= BattlefieldNode.lamport_clock n'.

Lemma later_refl n : later n n.
Proof. split; [reflexivity|]. split; [reflexivity|lia]. Qed.

Lemma later_set_status v n : later n (BattlefieldNode.set_status v n).
Proof. split; [reflexivity|]. split; [reflexivity|simpl; lia]. Qed.

Lemma later_set_last_seen v n : later n (BattlefieldNode.set_last_seen v n).
Proof. split; [reflexivity|]. split; [reflexivity|simpl; lia]. Qed.

Lemma later_trans n1 n2 n3 : later n1 n2 -> later n2 n3 -> later n1 n3.
Proof.
  intros (H1 & H2 & H3) (H4 & H5 & H6).
  split; [congruence|]. split; [congruence|lia].
Qed.

Lemma lookup_update_node_later k0 f nodes k n :
  (forall n, later n (f n)) ->
  lookup_node k nodes = Some n ->
  exists n', lookup_node k (update_node k0 f nodes) = Some n' /\ later n n'.
Proof.
  intros Hf Hl. destruct (decide (k0 = k)) as [->|Hne].
  - rewrite lookup_update_node_eq, Hl. eexists. split; [reflexivity|apply Hf].
  - rewrite lookup_update_node_ne by exact Hne. exists n. split; [exact Hl|].
    apply later_refl.
Qed.

Lemma lookup_map_nodes_later f nodes k n :
  (forall n, later n (f n)) ->
  lookup_node k nodes = Some n ->
  exists n', lookup_node k (map_nodes f nodes) = Some n' /\ later n n'.
Proof.
  intros Hf Hl. rewrite lookup_map_nodes, Hl. eexists. split; [reflexivity|apply Hf].
Qed.

Lemma synchronize_network_later self self' k n :
  synchronize_network self = Ok self' ->
  lookup_node k (nodes self) = Some n ->
  exists n', lookup_node k (nodes self') = Some n' /\ later n n'.
Proof.
  intros Hsync Hl. apply synchronize_network_inv in Hsync as (m & [_ Hmax] & ->).
  cbn [nodes set_nodes]. rewrite !lookup_map_nodes, Hl. eexists.
  split; [reflexivity|]. split; [reflexivity|]. split; [reflexivity|].
  cbn [BattlefieldNode.lamport_clock BattlefieldNode.set_message_queue
       BattlefieldNode.set_lamport_clock].
  specialize (Hmax (k, n) (lookup_node_elem k _ n Hl)). simpl in Hmax. lia.
Qed.

(** X20.  No handler removes a node, moves it, renames it or lowers its
    Lamport clock. *)
Theorem step_nodes_later self self' k n :
  step self self' ->
  lookup_node k (nodes self) = Some n ->
  exists n',
    lookup_node k (nodes self') = Some n'
    /\ BattlefieldNode.id n' = BattlefieldNode.id n
    /\ BattlefieldNode.position n' = BattlefieldNode.position n
    /\ BattlefieldNode.lamport_clock n <= BattlefieldNode.lamport_clock n'.
Proof.
  intros Hstep Hl. change (exists n', lookup_node k (nodes self') = Some n'
                                      /\ later n n').
  destruct Hstep as
    [self data env self' Hrun|self now|self now self' Hrun|self now self' Hrun
    |self choice now|self node_id now|self now|self].
  - apply handle_send_message_inv in Hrun
      as [[-> _]|(s & sender & m & _ & _ & Hs & _ & _ & _ & ->)].
    + exists n. split; [exact Hl|apply later_refl].
    + cbn [nodes]. destruct (decide (s = k)) as [->|Hne].
      * rewrite lookup_update_node_eq, Hl. eexists. split; [reflexivity|].
        assert (sender = n) as -> by congruence.
        split; [reflexivity|]. split; [reflexivity|]. simpl. lia.
      * rewrite lookup_update_node_ne by exact Hne. exists n.
        split; [exact Hl|apply later_refl].
  - unfold simulate_server_failure. destruct (server_online self).
    + cbn [nodes set_nodes set_mode emit_event broadcast_to_clients set_events
           set_outbox].
      apply lookup_map_nodes_later; [|exact Hl].
      intros n0. case_bool_decide; [apply later_set_status|apply later_refl].
    + exists n. split; [exact Hl|apply later_refl].
  - unfold simulate_server_recovery in Hrun. destruct (server_online self).
    { injection Hrun as <-. exists n. split; [exact Hl|apply later_refl]. }
    match type of Hrun with context [synchronize_network ?s] =>
      destruct (synchronize_network s) as [synced| |] eqn:Hsync;
        [|discriminate|discriminate]
    end.
    cbn [bind] in Hrun. injection Hrun as <-.
    cbn [nodes set_nodes set_mode emit_event broadcast_to_clients set_events
         set_outbox].
    destruct (lookup_map_nodes_later
                (fun n => if bool_decide (BattlefieldNode.status n = P2P_ONLY)
                          then BattlefieldNode.set_status ONLINE n else n)
                (nodes self) k n) as (n1 & Hl1 & Hlater1); [|exact Hl|].
    { intros n0. case_bool_decide; [apply later_set_status|apply later_refl]. }
    destruct (synchronize_network_later _ synced k n1 Hsync Hl1)
      as (n2 & Hl2 & Hlater2).
    exists n2. split; [exact Hl2|]. exact (later_trans _ _ _ Hlater1 Hlater2).
  - unfold handle_force_sync in Hrun.
    destruct (synchronize_network self) as [synced| |] eqn:Hsync;
      [|discriminate|discriminate].
    cbn [bind] in Hrun. injection Hrun as <-.
    exact (synchronize_network_later self synced k n Hsync Hl).
  - unfold simulate_node_dropout.
    destruct (nth_error _ choice) as [[k0 dropout_node]|].
    + cbn [nodes set_nodes emit_event broadcast_to_clients set_events set_outbox].
      apply lookup_update_node_later; [|exact Hl]. intros n0.
      apply later_set_status.
    + exists n. split; [exact Hl|apply later_refl].
  - unfold schedule_node_recovery.
    destruct (lookup_node node_id (nodes self)) as [node|].
    + cbn [nodes set_nodes emit_event broadcast_to_clients set_events set_outbox].
      apply lookup_update_node_later; [|exact Hl]. intros n0.
      exact (later_trans _ _ _ (later_set_status _ n0) (later_set_last_seen _ _)).
    + exists n. split; [exact Hl|apply later_refl].
  - unfold simulate_network_partition. destruct (_ <? _)%nat;
      exists n; (split; [exact Hl|apply later_refl]).
  - exists n. split; [exact Hl|apply later_refl].
Qed.

Lemma step_nodes_later_witness :
  exists n',
    lookup_node "bravo_1" (nodes after_bravo) = Some n'
    /\ BattlefieldNode.id n' = "bravo_1"
    /\ BattlefieldNode.position n' = (300, 200)
    /\ 0 <= BattlefieldNode.lamport_clock n'.
Proof.
  apply (step_nodes_later alpha_dropped_p2p after_bravo "bravo_1"
           (BattlefieldNode.mk "bravo_1" "Bravo Scout" "Corporal" "Bravo Company"
              (300, 200) P2P_ONLY "2025-09-13T14:30:00" ∅ [] 0)).
  - apply (step_send_message _ (send_from "bravo_1") demo_env).
    vm_compute. reflexivity.
  - vm_compute. reflexivity.
Defined.

(** X21.  simulate_network_partition partitions nothing: a send after it is
    routed as without it, and leaves the same registry and the same log. *)
Theorem partition_keeps_routing self now data env :
  match handle_send_message (simulate_network_partition self now) data env,
        handle_send_message self data env with
  | Ok self1, Ok self2 =>
      nodes self1 = nodes self2 /\ messages self1 = messages self2
      /\ server_online self1 = server_online self2
      /\ network_state self1 = network_state self2
  | Raise e1, Raise e2 => e1 = e2
  | Timeout, Timeout => True
  | _, _ => False
  end.
Proof.
  unfold simulate_network_partition. destruct (_ <? _)%nat.
  - destruct (handle_send_message self data env); auto.
  - unfold handle_send_message.
    cbn [nodes messages server_online network_state emit_event
         broadcast_to_clients set_events set_outbox set_nodes set_messages].
    destruct (MessageType_of_value (Demo.message_type data)); [|reflexivity].
    destruct (Demo.sender_id data) as [s|]; [|auto].
    destruct (String.eqb s ""); [auto|].
    destruct (lookup_node s (nodes self)); auto.
Qed.

(** ** The topology shown and the routes taken *)

Lemma lookup_node_of_elem k n nodes :
  NoDup (map fst nodes) -> (k, n) ∈ nodes -> lookup_node k nodes = Some n.
Proof.
  induction nodes as [|[k' n'] nodes IH]; intros Hnd Hin; [inversion Hin|].
  apply NoDup_cons in Hnd as [Hk Hnd]. simpl.
  apply elem_of_cons in Hin as [[= -> ->]|Hin].
  - now rewrite String.eqb_refl.
  - destruct (String.eqb k k') eqn:E; [|auto].
    apply String.eqb_eq in E. subst k'. exfalso. apply Hk.
    apply list_elem_of_fmap. exists (k, n). auto.
Qed.

Lemma within_p2p_range_sym p q : within_p2p_range p q = within_p2p_range q p.
Proof.
  unfold within_p2p_range. f_equal. rewrite !Z.pow_2_r. ring.
Qed.

(** What the P2P branch of get_network_topology lists. *)
Lemma connections_p2p self a b :
  centralized self = false ->
  (a, b, "p2p") ∈ connections self ->
  String.leb b a = false
  /\ exists na nb,
       (a, na) ∈ nodes self /\ (b, nb) ∈ nodes self
       /\ BattlefieldNode.status na <> OFFLINE
       /\ BattlefieldNode.status nb <> OFFLINE
       /\ within_p2p_range (BattlefieldNode.position na)
                           (BattlefieldNode.position nb) = true.
Proof.
  unfold centralized, connections. intros ->.
  rewrite list_elem_of_bind. intros ([k1 n1] & Hin1 & Hk1). cbn [fst snd] in Hin1.
  case_bool_decide as Hoff1; [inversion Hin1|].
  apply list_elem_of_bind in Hin1 as ([k2 n2] & Hin2 & Hk2). cbn [fst snd] in Hin2.
  destruct (bool_decide (BattlefieldNode.status n2 = OFFLINE) || String.leb k2 k1)
    eqn:Hskip; [inversion Hin2|].
  apply orb_false_iff in Hskip as [Hoff2 Hle].
  apply bool_decide_eq_false in Hoff2.
  destruct (within_p2p_range (BattlefieldNode.position n1)
                             (BattlefieldNode.position n2)) eqn:Hr;
    [|inversion Hin2].
  apply list_elem_of_singleton in Hin2. injection Hin2 as -> ->.
  split; [exact Hle|]. exists n1, n2. auto.
Qed.

(** X22.  On the P2P path, every node that get_network_topology shows
    linked to the sender, in either direction, is listed in the route_path
    of the message the sender's send logs. *)
Theorem shown_links_are_routed self data env self' message x :
  handle_send_message self data env = Ok self' ->
  messages self' = messages self ++ [message] ->
  centralized self = false ->
  NoDup (map fst (nodes self)) ->
  (BattlefieldMessage.sender_id message, x, "p2p") ∈ connections self'
  \/ (x, BattlefieldMessage.sender_id message, "p2p") ∈ connections self' ->
  x ∈ BattlefieldMessage.route_path message.
Proof.
  intros Hrun Hlog Hp2p Hnd Hshown.
  apply handle_send_message_inv in Hrun
    as [[-> _]|(s & sender & m & _ & _ & _ & _ & Hs & Hrp & ->)].
  { apply (f_equal length) in Hlog. rewrite length_app in Hlog. simpl in Hlog. lia. }
  cbn [messages] in Hlog. apply app_inv_head in Hlog. injection Hlog as <-.
  rewrite Hp2p in Hrp. rewrite Hrp. rewrite Hs in Hshown.
  set (nodes' := update_node s
                   (BattlefieldNode.set_lamport_clock
                      (BattlefieldNode.lamport_clock sender + 1)) (nodes self))
    in *.
  assert (Hnd' : NoDup (map fst nodes'))
    by (unfold nodes'; now rewrite keys_update_node).
  assert (Hc : forall a b,
             (a, b, "p2p")
             ∈ connections
                 (Server.mk (server_online self) (network_state self) nodes'
                    (messages self ++ [m]) (events self)
                    (outbox self ++ [new_message m (BattlefieldNode.name sender)])) ->
             a <> b /\ link nodes' a b /\ link nodes' b a).
  { intros a b Hin. apply connections_p2p in Hin as (Hle & na & nb & Ha & Hb & Hoa & Hob & Hr);
      [|exact Hp2p].
    cbn [nodes] in Ha, Hb. split.
    - intros ->. unfold String.leb in Hle.
      pose proof (String.compare_antisym b b) as Hanti.
      destruct (String.compare b b); discriminate.
    - split.
      + exists na, nb. split; [now apply lookup_node_of_elem|]. auto.
      + exists nb, na. split; [now apply lookup_node_of_elem|].
        rewrite within_p2p_range_sym. auto. }
  apply flood_route_path_reaches.
  destruct Hshown as [Hin|Hin]; apply Hc in Hin as (Hne & Hl1 & Hl2).
  - split; [congruence|]. apply (within_hops_mono _ _ 1); [|unfold max_hops; lia].
    apply (within_hops_step _ _ 0 s); [constructor|exact Hl1].
  - split; [congruence|]. apply (within_hops_mono _ _ 1); [|unfold max_hops; lia].
    apply (within_hops_step _ _ 0 s); [constructor|exact Hl2].
Qed.

Lemma shown_links_are_routed_witness :
  exists message,
    messages after_bravo = messages alpha_dropped_p2p ++ [message]
    /\ ("bravo_1", "echo_1", "p2p") ∈ connections after_bravo
    /\ "echo_1" ∈ BattlefieldMessage.route_path message.
Proof.
  eexists. split; [vm_compute; reflexivity|].
  assert (Hshown : ("bravo_1", "echo_1", "p2p") ∈ connections after_bravo).
  { vm_compute. repeat constructor. }
  split; [exact Hshown|].
  apply (shown_links_are_routed alpha_dropped_p2p (send_from "bravo_1") demo_env
           after_bravo).
  - vm_compute. reflexivity.
  - vm_compute. reflexivity.
  - vm_compute. reflexivity.
  - apply (bool_decide_unpack _). vm_compute. exact I.
  - left. exact Hshown.
Defined.

End DemoMore.
